(** * advanced-vector: RawMemory<T> and Vector<T> (vector.h)

    A shallow embedding of the two class templates of [vector.h] and the
    properties of the container that its specification states.

    Modelling conventions.
    - A buffer obtained from [operator new] is a list of slots; a slot is
      [Some v] when an object of value [v] lives in it and [None] when it is
      raw storage.  The null pointer is the empty list.
    - [size_t] quantities are [nat]: a capacity is the size of an allocation
      that the allocator granted, and the allocator (the oracle
      [alloc_fails]) is the only source of a failing request.
    - The element type [T] is a parameter of the templates.  What the
      container consumes from it (its constructors, assignments, the two
      type traits tested by [if constexpr]) is the class [Element].
    - A member function returns the log of the operations it performed on
      elements and on the allocator, and an outcome: normal return, an
      exception that propagates (with the state the object is left in), or
      [Fault] for undefined behaviour (an object destroyed or read where none
      lives, an object constructed over a live one, a failed [assert]).
    - Whether an operation of [T] throws is decided by the value it is
      applied to; a constructor or assignment that throws leaves its source
      as it was.
    - The argument of [PushBack] and [Insert], and the constructor
      arguments of [EmplaceBack] and [Emplace], are objects outside the
      vector's own block.
    - An iterator is its offset from [begin()], an integer. *)

From Stdlib Require Import ZArith Lia String.
From stdpp Require Import base tactics option list.

Set Default Proof Using "Type".

(** ** The element type *)

Class Element (T : Type) := {
  (** [std::is_nothrow_move_constructible_v<T>] *)
  is_nothrow_move_constructible : bool;
  (** [std::is_copy_constructible_v<T>] *)
  is_copy_constructible : bool;
  (** [T(const T&)] throws when copying from this value *)
  copy_throws : T -> bool;
  (** [T(T&&)] throws when moving from this value *)
  move_throws : T -> bool;
  (** the value a moved-from object is left with *)
  moved_from : T -> T;
  (** [T()]: the value-initialised object, [None] when it throws *)
  value_init : option T;
  (** [operator=(const T&)] throws when assigning from this value *)
  copy_assign_throws : T -> bool;
  (** [operator=(T&&)] throws when assigning from this value *)
  move_assign_throws : T -> bool;
  (** a [noexcept] move constructor does not throw *)
  nothrow_move_sound :
    is_nothrow_move_constructible = true -> forall v, move_throws v = false
}.

(** ** Exceptions, events and outcomes *)

Inductive exn : Type :=
| bad_alloc       (* operator new *)
| out_of_range    (* std::out_of_range("Invalid position") *)
| elem_failure.   (* thrown by an operation of T *)

Inductive event (T : Type) : Type :=
| Alloc (n : nat)              (* operator new(n * sizeof(T)), n <> 0 *)
| Dealloc (leaked : list T)    (* operator delete; objects still in the block *)
| ArgsCtor (r : option T)      (* T(std::forward<Args>(args)...) *)
| ValueCtor                    (* T() *)
| CopyCtor (v : T)             (* T(const T&) from an object of value v *)
| MoveCtor (v : T)             (* T(T&&) from an object of value v *)
| CopyAssign (v : T)           (* operator=(const T&) *)
| MoveAssign (v : T)           (* operator=(T&&) *)
| Destroy (v : T).             (* ~T() on an object of value v *)

Arguments Alloc {T} n.
Arguments Dealloc {T} leaked.
Arguments ArgsCtor {T} r.
Arguments ValueCtor {T}.
Arguments CopyCtor {T} v.
Arguments MoveCtor {T} v.
Arguments CopyAssign {T} v.
Arguments MoveAssign {T} v.
Arguments Destroy {T} v.

Inductive outcome (A S : Type) : Type :=
| Normal (a : A)
| Throws (e : exn) (s : S)
| Fault.

Arguments Normal {A S} a.
Arguments Throws {A S} e s.
Arguments Fault {A S}.

Module Run.

(** A computation: the events it produced and how it ended. *)
Definition M (T A S : Type) : Type := (list (event T) * outcome A S)%type.

Definition ret {T A S} (a : A) : M T A S := ([], Normal a).
Definition throw {T A S} (e : exn) (s : S) : M T A S := ([], Throws e s).
Definition fault {T A S} : M T A S := ([], Fault).
Definition emit {T S} (l : list (event T)) : M T unit S := (l, Normal tt).

(** the events [l], then the computation [m] *)
Definition log_then {T A S} (l : list (event T)) (m : M T A S) : M T A S :=
  let '(l', r) := m in (l ++ l', r).

Definition bind {T A B S} (m : M T A S) (k : A -> M T B S) : M T B S :=
  match m with
  | (l, Normal a) => log_then l (k a)
  | (l, Throws e s) => (l, Throws e s)
  | (l, Fault) => (l, Fault)
  end.

(** What runs while an exception leaves a scope: a [catch (...)] block
    and the destructors of the locals; [h] ends by throwing again. *)
Definition unwind {T A S S'} (m : M T A S) (h : exn -> S -> M T A S')
  : M T A S' :=
  match m with
  | (l, Normal a) => (l, Normal a)
  | (l, Throws e s) => log_then l (h e s)
  | (l, Fault) => (l, Fault)
  end.

End Run.

Import Run.

Notation "'do' x <- m ; k" := (bind m (fun x => k))
  (at level 10, x pattern, m at level 100, k at level 200,
   format "'[v' 'do'  x  <-  m ; '/' k ']'").

(** The allocator: [alloc_fails n] when [operator new] cannot provide [n]
    slots and throws [std::bad_alloc]. *)
Class Allocator := { alloc_fails : nat -> bool }.

(** ** Objects in raw storage, and the algorithms of <memory> and <algorithm> *)

Section Memory.
Context {T : Type} {E : Element T}.

Abbreviation buffer := (list (option T)).

(** the objects alive in a block *)
Definition live (buf : buffer) : list T := omap id buf.

(** reading [buf[i]]: an object must live there *)
Definition read {St} (buf : buffer) (i : nat) : M T T St :=
  match buf !! i with
  | Some (Some v) => ret v
  | _ => fault
  end.

(** [new (buf + i) T(...)] once the constructor has produced [v]: slot [i]
    must exist and hold no object *)
Definition place {St} (buf : buffer) (i : nat) (v : T) : M T buffer St :=
  match buf !! i with
  | Some None => ret (<[i := Some v]> buf)
  | _ => fault
  end.

(** the object in slot [i] takes the value [v] (an assignment) *)
Definition store {St} (buf : buffer) (i : nat) (v : T) : M T buffer St :=
  match buf !! i with
  | Some (Some _) => ret (<[i := Some v]> buf)
  | _ => fault
  end.

(** The constructors and assignment operators of [T].  [s] is the state
    that is left if the call throws. *)
Definition construct_args {St} (s : St) (r : option T) : M T T St :=
  ([ArgsCtor r],
   match r with Some v => Normal v | None => Throws elem_failure s end).

Definition construct_value {St} (s : St) : M T T St :=
  ([ValueCtor],
   match value_init with
   | Some v => Normal v
   | None => Throws elem_failure s
   end).

Definition construct_copy {St} (s : St) (v : T) : M T T St :=
  ([CopyCtor v], if copy_throws v then Throws elem_failure s else Normal v).

Definition construct_move {St} (s : St) (v : T) : M T T St :=
  ([MoveCtor v], if move_throws v then Throws elem_failure s else Normal v).

Definition assign_copy {St} (s : St) (v : T) : M T T St :=
  ([CopyAssign v],
   if copy_assign_throws v then Throws elem_failure s else Normal v).

Definition assign_move {St} (s : St) (v : T) : M T T St :=
  ([MoveAssign v],
   if move_assign_throws v then Throws elem_failure s else Normal v).

(** The constructor call that [EmplaceBack] and [Emplace] forward to:
    [T(args...)] in general ([from_args r], [r] what it produces), the copy
    constructor for [PushBack(const T&)] and [Insert(pos, const T&)], the
    move constructor for the [T&&] overloads. *)
Inductive init : Type :=
| from_args (r : option T)
| from_copy (v : T)
| from_move (v : T).

Definition construct {St} (s : St) (a : init) : M T T St :=
  match a with
  | from_args r => construct_args s r
  | from_copy v => construct_copy s v
  | from_move v => construct_move s v
  end.

(** [std::destroy_at(buf + i)] *)
Definition destroy_at {St} (buf : buffer) (i : nat) : M T buffer St :=
  match buf !! i with
  | Some (Some v) => ([Destroy v], Normal (<[i := None]> buf))
  | _ => fault
  end.

(** [std::destroy_n(buf + first, n)] *)
Fixpoint destroy_n {St} (buf : buffer) (first n : nat) : M T buffer St :=
  match n with
  | 0 => ret buf
  | S n' =>
      do buf' <- destroy_at buf first;
      destroy_n buf' (S first) n'
  end.

(** [std::uninitialized_value_construct_n(buf + first, n)]: on an exception
    the objects constructed so far are destroyed *)
Fixpoint value_construct_loop (buf : buffer) (first cur n : nat)
  : M T buffer (buffer * nat) :=
  match n with
  | 0 => ret buf
  | S n' =>
      do v <- construct_value (buf, cur);
      do buf' <- place buf cur v;
      value_construct_loop buf' first (S cur) n'
  end.

Definition uninitialized_value_construct_n (buf : buffer) (first n : nat)
  : M T buffer buffer :=
  unwind (value_construct_loop buf first first n)
    (fun e '(buf', cur) =>
       do buf'' <- destroy_n buf' first (cur - first);
       throw e buf'').

(** [std::uninitialized_copy_n(src + first, n, dst + d_first)] *)
Fixpoint copy_construct_loop (src : buffer) (first : nat) (dst : buffer)
  (cur n : nat) : M T buffer (buffer * nat) :=
  match n with
  | 0 => ret dst
  | S n' =>
      do v <- read src first;
      do v' <- construct_copy (dst, cur) v;
      do dst' <- place dst cur v';
      copy_construct_loop src (S first) dst' (S cur) n'
  end.

Definition uninitialized_copy_n (src : buffer) (first n : nat)
  (dst : buffer) (d_first : nat) : M T (buffer * buffer) (buffer * buffer) :=
  do dst' <- unwind (copy_construct_loop src first dst d_first n)
               (fun e '(dst', cur) =>
                  do dst'' <- destroy_n dst' d_first (cur - d_first);
                  throw e (src, dst''));
  ret (src, dst').

(** [std::uninitialized_move_n(src + first, n, dst + d_first)]: every
    source object is left in its moved-from state *)
Fixpoint move_construct_loop (src : buffer) (first : nat) (dst : buffer)
  (cur n : nat) : M T (buffer * buffer) (buffer * buffer * nat) :=
  match n with
  | 0 => ret (src, dst)
  | S n' =>
      do v <- read src first;
      do v' <- construct_move (src, dst, cur) v;
      do dst' <- place dst cur v';
      do src' <- store src first (moved_from v);
      move_construct_loop src' (S first) dst' (S cur) n'
  end.

Definition uninitialized_move_n (src : buffer) (first n : nat)
  (dst : buffer) (d_first : nat) : M T (buffer * buffer) (buffer * buffer) :=
  unwind (move_construct_loop src first dst d_first n)
    (fun e '(src', dst', cur) =>
       do dst'' <- destroy_n dst' d_first (cur - d_first);
       throw e (src', dst'')).

(** [buf[dst] = std::move(buf[src])] *)
Definition move_assign_slot (buf : buffer) (dst src : nat)
  : M T buffer buffer :=
  do _ <- read buf dst;
  do v <- read buf src;
  do v' <- assign_move buf v;
  do buf' <- store buf dst v';
  store buf' src (moved_from v).

(** [std::move_backward(buf + first, buf + last, buf + d_last)]: while
    [first != last], step [last] and [d_last] back by one and move-assign
    the object at [last] to the one at [d_last] *)
Fixpoint move_backward_loop (buf : buffer) (last d_last n : nat)
  : M T buffer buffer :=
  match n with
  | 0 => ret buf
  | S n' =>
      do buf' <- move_assign_slot buf (d_last - 1) (last - 1);
      move_backward_loop buf' (last - 1) (d_last - 1) n'
  end.

Definition move_backward (buf : buffer) (first last d_last : nat)
  : M T buffer buffer :=
  move_backward_loop buf last d_last (last - first).

(** [std::copy_n(src + first, n, dst + d_first)]: copy assignment *)
Fixpoint copy_n (src : buffer) (first n : nat) (dst : buffer) (d_first : nat)
  : M T buffer buffer :=
  match n with
  | 0 => ret dst
  | S n' =>
      do _ <- read dst d_first;
      do v <- read src first;
      do v' <- assign_copy dst v;
      do dst' <- store dst d_first v';
      copy_n src (S first) n' dst' (S d_first)
  end.

End Memory.

(** ** RawMemory<T> *)

Module RawMemory.
Section RawMemory.
Context {T : Type} {E : Element T} {A : Allocator}.

Record t : Type := { buffer_ : list (option T); capacity_ : nat }.

(** the same block after the objects in it have changed *)
Definition with_contents (m : t) (buf : list (option T)) : t :=
  {| buffer_ := buf; capacity_ := capacity_ m |}.

(** [n != 0 ? operator new(n * sizeof(T)) : nullptr] *)
Definition Allocate {St} (s : St) (n : nat) : M T (list (option T)) St :=
  if n =? 0 then ret []
  else if alloc_fails n then throw bad_alloc s
  else ([Alloc n], Normal (replicate n None)).

(** [operator delete(buf)]; nothing happens for the null pointer *)
Definition Deallocate {St} (buf : list (option T)) : M T unit St :=
  match buf with
  | [] => ret tt
  | _ => emit [Dealloc (live buf)]
  end.

(** [RawMemory() = default] *)
Definition default : t := {| buffer_ := []; capacity_ := 0 |}.

(** [explicit RawMemory(size_t capacity)] *)
Definition make {St} (s : St) (capacity : nat) : M T t St :=
  do buf <- Allocate s capacity;
  ret {| buffer_ := buf; capacity_ := capacity |}.

(** [RawMemory(RawMemory&& other)]: the new object and what is left of
    [other] *)
Definition move (other : t) : t * t :=
  ({| buffer_ := buffer_ other; capacity_ := capacity_ other |},
   {| buffer_ := []; capacity_ := 0 |}).

(** [~RawMemory()] *)
Definition dtor {St} (this : t) : M T unit St := Deallocate (buffer_ this).

(** [Swap(RawMemory& other)]: the two objects afterwards *)
Definition Swap (this other : t) : t * t :=
  ({| buffer_ := buffer_ other; capacity_ := capacity_ other |},
   {| buffer_ := buffer_ this; capacity_ := capacity_ this |}).

(** [operator[](size_t index)], with its [assert(index < capacity_)] *)
Definition at_ {St} (this : t) (index : nat) : M T T St :=
  if index <? capacity_ this then read (buffer_ this) index else fault.

Definition GetAddress (this : t) : list (option T) := buffer_ this.
Definition Capacity (this : t) : nat := capacity_ this.

End RawMemory.
End RawMemory.

Arguments RawMemory.t T : clear implicits.

(** ** Vector<T> *)

Module Vector.
Section Vector.
Context {T : Type} {E : Element T} {A : Allocator}.

Import RawMemory.

Record t : Type := { data_ : RawMemory.t T; size_ : nat }.

(** [*this] after the objects in its block have changed *)
Definition with_data (this : t) (buf : list (option T)) : t :=
  {| data_ := with_contents (data_ this) buf; size_ := size_ this |}.

Definition Size (this : t) : nat := size_ this.
Definition Capacity (this : t) : nat := RawMemory.Capacity (data_ this).

(** iterators, as offsets from [begin()] *)
Definition begin (this : t) : Z := 0.
Definition end_ (this : t) : Z := Z.of_nat (size_ this).

(** [T& operator[](size_t index)], with its [assert(index < size_)] *)
Definition index {St} (this : t) (i : nat) : M T T St :=
  if i <? size_ this then at_ (data_ this) i else fault.

(** [Vector() = default] *)
Definition default : t := {| data_ := RawMemory.default; size_ := 0 |}.

(** [Vector(size_t size)] *)
Definition sized (size : nat) : M T t unit :=
  do data <- make tt size;
  do buf <- unwind (uninitialized_value_construct_n (GetAddress data) 0 size)
              (fun e buf' =>
                 do _ <- dtor (with_contents data buf');
                 throw e tt);
  ret {| data_ := with_contents data buf; size_ := size |}.

(** [Vector(const Vector& vector)] *)
Definition copy (vector : t) : M T t unit :=
  do data <- make tt (size_ vector);
  do (_, buf) <- unwind
       (uninitialized_copy_n (GetAddress (data_ vector)) 0 (size_ vector)
          (GetAddress data) 0)
       (fun e '(_, buf') =>
          do _ <- dtor (with_contents data buf');
          throw e tt);
  ret {| data_ := with_contents data buf; size_ := size_ vector |}.

(** [Vector(Vector&& other) noexcept]: the new vector and what is left of
    [other] *)
Definition move (other : t) : M T (t * t) unit :=
  let '(data, other_data) := RawMemory.move (data_ other) in
  ret ({| data_ := data; size_ := size_ other |},
       {| data_ := other_data; size_ := 0 |}).

(** [~Vector()], followed by the destructor of the member [data_] *)
Definition dtor (this : t) : M T unit unit :=
  do buf <- destroy_n (GetAddress (data_ this)) 0 (size_ this);
  RawMemory.dtor (with_contents (data_ this) buf).

(** [Swap(Vector& other) noexcept]: the two vectors afterwards *)
Definition Swap (this other : t) : t * t :=
  let '(data, other_data) := RawMemory.Swap (data_ this) (data_ other) in
  ({| data_ := data; size_ := size_ other |},
   {| data_ := other_data; size_ := size_ this |}).

(** [AssignFromSmaller(const Vector& rhs)] *)
Definition AssignFromSmaller (this rhs : t) : M T t t :=
  let common := size_ this `min` size_ rhs in
  do buf <- unwind
       (copy_n (GetAddress (data_ rhs)) 0 common (GetAddress (data_ this)) 0)
       (fun e buf' => throw e (with_data this buf'));
  do buf' <-
    (if size_ this <? size_ rhs then
       do (_, buf') <- unwind
            (uninitialized_copy_n (GetAddress (data_ rhs)) common
               (size_ rhs - common) buf common)
            (fun e '(_, buf') => throw e (with_data this buf'));
       ret buf'
     else
       destroy_n buf (size_ rhs) (size_ this - size_ rhs));
  ret {| data_ := with_contents (data_ this) buf'; size_ := size_ rhs |}.

(** [Vector& operator=(const Vector& rhs)]; [rhs = None] stands for
    [this == &rhs] *)
Definition assign (this : t) (rhs : option t) : M T t t :=
  match rhs with
  | None => ret this
  | Some rhs =>
      if Capacity this <? size_ rhs then
        do temp <- unwind (copy rhs) (fun e _ => throw e this);
        let '(this', temp') := Swap this temp in
        do _ <- unwind (dtor temp') (fun e _ => throw e this');
        ret this'
      else AssignFromSmaller this rhs
  end.

(** [Vector& operator=(Vector&& rhs) noexcept]; [rhs = None] stands for
    [this == &rhs]; the result is [*this] and what is left of [rhs] *)
Definition move_assign (this : t) (rhs : option t) : t * option t :=
  match rhs with
  | None => (this, None)
  | Some rhs => let '(this', rhs') := Swap this rhs in (this', Some rhs')
  end.

(** [Reserve(size_t capacity)] *)
Definition Reserve (this : t) (capacity : nat) : M T t t :=
  if capacity <=? Capacity this then ret this
  else
    do newData <- make this capacity;
    do (old, new) <- unwind
         (if is_nothrow_move_constructible || negb is_copy_constructible
          then uninitialized_move_n (GetAddress (data_ this)) 0 (size_ this)
                 (GetAddress newData) 0
          else uninitialized_copy_n (GetAddress (data_ this)) 0 (size_ this)
                 (GetAddress newData) 0)
         (fun e '(old, new) =>
            do _ <- RawMemory.dtor (with_contents newData new);
            throw e (with_data this old));
    do old' <- destroy_n old 0 (size_ this);
    (* data_.Swap(newData); then newData goes out of scope *)
    do _ <- RawMemory.dtor (with_contents (data_ this) old');
    ret {| data_ := with_contents newData new; size_ := size_ this |}.

(** [Resize(size_t new_size)] *)
Definition Resize (this : t) (new_size : nat) : M T t t :=
  if new_size <? size_ this then
    do buf <- destroy_n (GetAddress (data_ this)) new_size
                (size_ this - new_size);
    ret {| data_ := with_contents (data_ this) buf; size_ := new_size |}
  else if new_size <=? Capacity this then
    do buf <- unwind
         (uninitialized_value_construct_n (GetAddress (data_ this))
            (size_ this) (new_size - size_ this))
         (fun e buf' => throw e (with_data this buf'));
    ret {| data_ := with_contents (data_ this) buf; size_ := new_size |}
  else
    let new_capacity :=
      new_size `max` (if Capacity this =? 0 then 1 else Capacity this * 2) in
    do newData <- make this new_capacity;
    do (old, new) <- unwind
         (if is_nothrow_move_constructible || negb is_copy_constructible
          then uninitialized_move_n (GetAddress (data_ this)) 0 (size_ this)
                 (GetAddress newData) 0
          else uninitialized_copy_n (GetAddress (data_ this)) 0 (size_ this)
                 (GetAddress newData) 0)
         (fun e '(old, new) =>
            do _ <- RawMemory.dtor (with_contents newData new);
            throw e (with_data this old));
    do new' <- unwind
         (uninitialized_value_construct_n new (size_ this)
            (new_size - size_ this))
         (fun e new' =>
            do _ <- RawMemory.dtor (with_contents newData new');
            throw e (with_data this old));
    do old' <- destroy_n old 0 (size_ this);
    do _ <- RawMemory.dtor (with_contents (data_ this) old');
    ret {| data_ := with_contents newData new'; size_ := new_size |}.

(** [PopBack() noexcept] *)
Definition PopBack (this : t) : M T t t :=
  if size_ this =? 0 then ret this
  else
    do buf <- destroy_at (GetAddress (data_ this)) (size_ this - 1);
    ret {| data_ := with_contents (data_ this) buf;
           size_ := size_ this - 1 |}.

(** [T& EmplaceBack(Args&&... args)]; the reference returned is the index
    of the new element *)
Definition EmplaceBack (this : t) (args : init) : M T (t * nat) t :=
  if size_ this <? Capacity this then
    do v <- construct this args;
    do buf <- place (GetAddress (data_ this)) (size_ this) v;
    ret ({| data_ := with_contents (data_ this) buf;
            size_ := S (size_ this) |}, size_ this)
  else
    let new_capacity := if Capacity this =? 0 then 1 else Capacity this * 2 in
    do newData <- make this new_capacity;
    do (old, new) <- unwind
         (if is_nothrow_move_constructible || negb is_copy_constructible
          then uninitialized_move_n (GetAddress (data_ this)) 0 (size_ this)
                 (GetAddress newData) 0
          else uninitialized_copy_n (GetAddress (data_ this)) 0 (size_ this)
                 (GetAddress newData) 0)
         (fun e '(old, new) =>
            do _ <- RawMemory.dtor (with_contents newData new);
            throw e (with_data this old));
    do v <- unwind (construct (old, new) args)
         (fun e '(old, new) =>
            do new' <- destroy_n new 0 (size_ this);
            do _ <- RawMemory.dtor (with_contents newData new');
            throw e (with_data this old));
    do new' <- place new (size_ this) v;
    do old' <- destroy_n old 0 (size_ this);
    do _ <- RawMemory.dtor (with_contents (data_ this) old');
    ret ({| data_ := with_contents newData new'; size_ := S (size_ this) |},
         size_ this).

(** [PushBack(const T& value)] *)
Definition PushBack (this : t) (value : T) : M T t t :=
  do (this', _) <- EmplaceBack this (from_copy value);
  ret this'.

(** [PushBack(T&& value)] *)
Definition PushBack_move (this : t) (value : T) : M T t t :=
  do (this', _) <- EmplaceBack this (from_move value);
  ret this'.

(** [iterator Emplace(const_iterator pos, Args&&... args)] *)
Definition Emplace (this : t) (pos : Z) (args : init) : M T (t * Z) t :=
  if (pos <? begin this)%Z || (pos >? end_ this)%Z then
    throw out_of_range this
  else
    let index := Z.to_nat (pos - begin this) in
    if size_ this =? Capacity this then
      let new_capacity := if size_ this =? 0 then 1 else size_ this * 2 in
      do new_data <- make this new_capacity;
      do (old, new) <- unwind
           (if is_nothrow_move_constructible || negb is_copy_constructible
            then uninitialized_move_n (GetAddress (data_ this)) 0 index
                   (GetAddress new_data) 0
            else uninitialized_copy_n (GetAddress (data_ this)) 0 index
                   (GetAddress new_data) 0)
           (fun e '(old, new) =>
              do _ <- RawMemory.dtor (with_contents new_data new);
              throw e (with_data this old));
      do v <- unwind (construct (old, new) args)
           (fun e '(old, new) =>
              do new' <- destroy_n new 0 index;
              do _ <- RawMemory.dtor (with_contents new_data new');
              throw e (with_data this old));
      do new <- place new index v;
      do (old, new) <- unwind
           (if is_nothrow_move_constructible || negb is_copy_constructible
            then uninitialized_move_n old index (size_ this - index)
                   new (index + 1)
            else uninitialized_copy_n old index (size_ this - index)
                   new (index + 1))
           (fun e '(old, new) =>
              do new' <- destroy_at new index;
              do new'' <- destroy_n new' 0 index;
              do _ <- RawMemory.dtor (with_contents new_data new'');
              throw e (with_data this old));
      do old' <- destroy_n old 0 (size_ this);
      do _ <- RawMemory.dtor (with_contents (data_ this) old');
      ret ({| data_ := with_contents new_data new; size_ := S (size_ this) |},
           (begin this + Z.of_nat index)%Z)
    else
      do buf <-
        (if index =? size_ this then
           do v <- construct this args;
           place (GetAddress (data_ this)) (size_ this) v
         else
           (* T temp(std::forward<Args>(args)...); *)
           do temp <- construct this args;
           (* new (data_.GetAddress() + size_)
                T(std::move(data_[size_ - 1])); *)
           do last <- at_ (data_ this) (size_ this - 1);
           do last' <- unwind (construct_move tt last)
                (fun e _ =>
                   do _ <- emit [Destroy temp];
                   throw e this);
           do buf <- place (GetAddress (data_ this)) (size_ this) last';
           do buf <- store buf (size_ this - 1) (moved_from last);
           do buf <- unwind
                (do buf <- move_backward buf index (size_ this - 1)
                             (size_ this);
                 (* data_[index] = std::move(temp); *)
                 if index <? Capacity this then
                   do temp' <- assign_move buf temp;
                   store buf index temp'
                 else fault)
                (fun e buf' =>
                   do buf'' <- destroy_at buf' (size_ this);
                   do _ <- emit [Destroy temp];
                   throw e (with_data this buf''));
           do _ <- emit [Destroy (moved_from temp)];
           ret buf);
      ret ({| data_ := with_contents (data_ this) buf;
              size_ := S (size_ this) |},
           (begin this + Z.of_nat index)%Z).

(** The loop of [Erase]:
    [for (size_t i = index; i + 1 < size_; ++i)]
    [data_[i] = std::move(data_[i + 1]);]
    [n] is the number of iterations left, [size_ - (i + 1)]. *)
Fixpoint Erase_loop (data : RawMemory.t T) (buf : list (option T))
  (i n : nat) : M T (list (option T)) (list (option T)) :=
  match n with
  | 0 => ret buf
  | S n' =>
      if (i <? RawMemory.Capacity data) && (i + 1 <? RawMemory.Capacity data)
      then
        do buf' <- move_assign_slot buf i (i + 1);
        Erase_loop data buf' (i + 1) n'
      else fault
  end.

(** [iterator Erase(const_iterator pos)] *)
Definition Erase (this : t) (pos : Z) : M T (t * Z) t :=
  if (pos <? begin this)%Z || (pos >=? end_ this)%Z then
    throw out_of_range this
  else
    let index := Z.to_nat (pos - begin this) in
    do buf <- unwind
         (Erase_loop (data_ this) (GetAddress (data_ this)) index
            (size_ this - (index + 1)))
         (fun e buf' => throw e (with_data this buf'));
    do buf <- destroy_at buf (size_ this - 1);
    ret ({| data_ := with_contents (data_ this) buf;
            size_ := size_ this - 1 |},
         (begin this + Z.of_nat index)%Z).

(** [iterator Insert(const_iterator pos, const T& value)] *)
Definition Insert (this : t) (pos : Z) (value : T) : M T (t * Z) t :=
  Emplace this pos (from_copy value).

(** [iterator Insert(const_iterator pos, T&& value)] *)
Definition Insert_move (this : t) (pos : Z) (value : T) : M T (t * Z) t :=
  Emplace this pos (from_move value).

(** [void DestroyN(T* ptr, size_t size)], a public member; [ptr] is taken
    in the vector's own block, as an offset from [begin()] *)
Definition DestroyN (this : t) (ptr size : nat) : M T t t :=
  do buf <- destroy_n (GetAddress (data_ this)) ptr size;
  ret (with_data this buf).

End Vector.
End Vector.

Arguments Vector.t T : clear implicits.

(** * Vocabulary of the statements *)

Section Vocabulary.
Context {T : Type} {E : Element T}.

(** The exceptions a computation can end with all satisfy [P]. *)
Definition throws_only {A S} (P : exn -> Prop) (m : M T A S) : Prop :=
  forall e s, m.2 = Throws e s -> P e.

(** A block that holds the objects [xs] followed by [spare] raw slots. *)
Definition slots (xs : list T) (spare : nat) : list (option T) :=
  (Some <$> xs) ++ replicate spare None.

(** The vector with elements [xs] and [spare] unused slots. *)
Definition vec (xs : list T) (spare : nat) : Vector.t T :=
  {| Vector.data_ :=
       {| RawMemory.buffer_ := slots xs spare;
          RawMemory.capacity_ := length xs + spare |};
     Vector.size_ := length xs |}.

(** The values of the elements at indices [0 .. size_). *)
Definition contents (v : Vector.t T) : list T :=
  live (take (Vector.size_ v) (RawMemory.buffer_ (Vector.data_ v))).

(** The invariant of the data model: the block has [capacity_] slots,
    [size_] is at most the capacity, an object lives in each slot below
    [size_] and none in the slots from [size_] on. *)
Definition invariant (v : Vector.t T) : Prop :=
  RawMemory.capacity_ (Vector.data_ v)
    = length (RawMemory.buffer_ (Vector.data_ v)) /\
  Vector.size_ v <= RawMemory.capacity_ (Vector.data_ v) /\
  (forall i, i < Vector.size_ v ->
     exists x, RawMemory.buffer_ (Vector.data_ v) !! i = Some (Some x)) /\
  (forall i, Vector.size_ v <= i < RawMemory.capacity_ (Vector.data_ v) ->
     RawMemory.buffer_ (Vector.data_ v) !! i = Some None).

(** The growth policy in the words of the specification. *)
Definition growth_policy (requested_size current_capacity : nat) : nat :=
  requested_size `max`
    (if current_capacity =? 0 then 1 else current_capacity * 2).

(** The condition tested by [if constexpr] before every relocation. *)
Definition relocates_by_move : bool :=
  is_nothrow_move_constructible || negb is_copy_constructible.

(** The constructor that relocation uses throws on this value. *)
Definition relocation_throws (x : T) : bool :=
  if relocates_by_move then move_throws x else copy_throws x.

(** The constructor events of a relocation of [xs]. *)
Definition relocation_events (xs : list T) : list (event T) :=
  if relocates_by_move then MoveCtor <$> xs else CopyCtor <$> xs.

(** The old objects after a relocation of [xs]. *)
Definition relocated_from (xs : list T) : list T :=
  if relocates_by_move then moved_from <$> xs else xs.

(** The constructor event of an [init], and whether it throws. *)
Definition init_event (a : init) : event T :=
  match a with
  | from_args r => ArgsCtor r
  | from_copy v => CopyCtor v
  | from_move v => MoveCtor v
  end.

Definition init_value (a : init) : option T :=
  match a with
  | from_args r => r
  | from_copy v => if copy_throws v then None else Some v
  | from_move v => if move_throws v then None else Some v
  end.

(** what the slot at the start of a shifted range is left with *)
Definition shift_residue (y : T) (xs : list T) : T :=
  match xs with
  | [] => y
  | x :: _ => moved_from x
  end.

(** the capacity that [EmplaceBack] and [Emplace] grow to *)
Definition doubled (c : nat) : nat := if c =? 0 then 1 else c * 2.

(** the allocator events of a request for [n] slots and of the release
    of a block of [n] raw slots *)
Definition alloc_events (n : nat) : list (event T) :=
  if n =? 0 then [] else [Alloc n].

Definition free_events (n : nat) : list (event T) :=
  if n =? 0 then [] else [Dealloc []].

(** an event that is a call of a constructor of [T] *)
Definition is_ctor (e : event T) : bool :=
  match e with
  | ArgsCtor _ | ValueCtor | CopyCtor _ | MoveCtor _ => true
  | _ => false
  end.

(** the constructor calls in a log, in order *)
Definition ctor_events (l : list (event T)) : list (event T) :=
  List.filter is_ctor l.

(** a call of the copy constructor, of the move constructor *)
Definition copies (e : event T) : bool :=
  match e with CopyCtor _ => true | _ => false end.

Definition moves (e : event T) : bool :=
  match e with MoveCtor _ => true | _ => false end.

(** Every event of a computation satisfies [Q]. *)
Definition logs_only {A S} (Q : event T -> Prop) (m : M T A S) : Prop :=
  Forall Q m.1.

(** [Q] holds of every event, except possibly of calls of the copy and of
    the move constructor. *)
Definition lenient (Q : event T -> Prop) : Prop :=
  (forall n, Q (Alloc n)) /\ (forall l, Q (Dealloc l)) /\
  (forall r, Q (ArgsCtor r)) /\ Q ValueCtor /\
  (forall v, Q (CopyAssign v)) /\ (forall v, Q (MoveAssign v)) /\
  (forall v, Q (Destroy v)).

End Vocabulary.

(** ** Element types and an allocator for the examples *)

(** [int]: copying and moving are the same and never throw. *)
Definition int_element : Element Z :=
  {| is_nothrow_move_constructible := true;
     is_copy_constructible := true;
     copy_throws := fun _ => false;
     move_throws := fun _ => false;
     moved_from := fun v => v;
     value_init := Some 0%Z;
     copy_assign_throws := fun _ => false;
     move_assign_throws := fun _ => false;
     nothrow_move_sound := fun _ _ => eq_refl |}.

(** [std::string]: a [noexcept] move constructor that leaves the source
    empty. *)
Definition string_element : Element string :=
  {| is_nothrow_move_constructible := true;
     is_copy_constructible := true;
     copy_throws := fun _ => false;
     move_throws := fun _ => false;
     moved_from := fun _ => EmptyString;
     value_init := Some EmptyString;
     copy_assign_throws := fun _ => false;
     move_assign_throws := fun _ => false;
     nothrow_move_sound := fun _ _ => eq_refl |}.

(** A copyable type whose move constructor may throw (it is not
    [noexcept]): relocation copies. *)
Definition copying_element : Element Z :=
  {| is_nothrow_move_constructible := false;
     is_copy_constructible := true;
     copy_throws := fun _ => false;
     move_throws := fun _ => false;
     moved_from := fun _ => 0%Z;
     value_init := Some 0%Z;
     copy_assign_throws := fun _ => false;
     move_assign_throws := fun _ => false;
     nothrow_move_sound := fun _ _ => eq_refl |}.

(** An allocator that grants every request. *)
Definition plentiful : Allocator := {| alloc_fails := fun _ => false |}.

(** A copyable type without a [noexcept] move constructor, whose copy
    constructor throws on the value 13 and whose default constructor
    throws. *)
Definition fragile_element : Element Z :=
  {| is_nothrow_move_constructible := false;
     is_copy_constructible := true;
     copy_throws := fun v => (v =? 13)%Z;
     move_throws := fun _ => false;
     moved_from := fun _ => 0%Z;
     value_init := None;
     copy_assign_throws := fun _ => false;
     move_assign_throws := fun _ => false;
     nothrow_move_sound := fun _ _ => eq_refl |}.


(** ** Sequences of calls *)

Section Sequences.
Context {T : Type} {E : Element T} {A : Allocator}.

(** [for (const T& x : xs) v.PushBack(x);] *)
Fixpoint PushBack_all (v : Vector.t T) (xs : list T)
  : M T (Vector.t T) (Vector.t T) :=
  match xs with
  | [] => ret v
  | x :: xs' =>
      do v' <- Vector.PushBack v x;
      PushBack_all v' xs'
  end.

(** the destructor calls in a log, in order *)
Definition is_dtor (e : event T) : bool :=
  match e with Destroy _ => true | _ => false end.

Definition dtor_events (l : list (event T)) : list (event T) :=
  List.filter is_dtor l.

(** a block is released while objects are still alive in it *)
Definition leaks (e : event T) : bool :=
  match e with Dealloc (_ :: _) => true | _ => false end.

(** The constructor and destructor calls in [l] account for a change of
    the number of live objects from [n] to [n'], and no block is released
    with objects alive in it. *)
Definition balanced (l : list (event T)) (n n' : nat) : Prop :=
  length (ctor_events l) + n = length (dtor_events l) + n' /\
  Forall (fun e => leaks e = false) l.

End Sequences.

(** * Properties *)

Ltac run := cbn [bind unwind ret throw fault emit log_then fst snd].

Create HintDb throws discriminated.

Ltac open_op :=
  unfold Vector.Capacity, RawMemory.Capacity;
  cbn [vec Vector.size_ Vector.data_ RawMemory.capacity_ RawMemory.buffer_
       RawMemory.GetAddress RawMemory.with_contents Vector.with_data].

Ltac vec_side :=
  repeat (progress (rewrite ?app_nil_r, ?length_app, ?length_fmap,
                      ?length_replicate, ?length_take; cbn [length]));
  try done; try lia.

Ltac list_norm :=
  repeat (progress (rewrite ?fmap_app, <- ?app_assoc;
                    cbn [fmap list_fmap app]));
  try done.

(** ** Facts about the algorithms on raw storage *)

Section MemoryFacts.
Context {T : Type} `{!Element T}.
Implicit Types (xs ys : list T) (pre post : list (option T)).

Lemma lookup_mid {A} (l1 l2 : list A) (x : A) :
  (l1 ++ x :: l2) !! length l1 = Some x.
Proof. by apply list_lookup_middle. Qed.

Lemma insert_mid {A} (l1 l2 : list A) (x y : A) :
  <[length l1 := y]> (l1 ++ x :: l2) = l1 ++ y :: l2.
Proof.
  rewrite insert_app_r_alt by lia. by rewrite Nat.sub_diag.
Qed.

Lemma snoc_shift {A} (l1 l2 : list A) (x : A) :
  l1 ++ x :: l2 = (l1 ++ [x]) ++ l2.
Proof. by rewrite <- app_assoc. Qed.

Lemma length_snoc {A} (l : list A) (x : A) : length (l ++ [x]) = S (length l).
Proof. rewrite length_app. simpl. lia. Qed.

(** destroying a run of live objects leaves raw storage *)
Lemma destroy_n_live {St} xs : forall pre post,
  destroy_n (St:=St) (pre ++ (Some <$> xs) ++ post) (length pre) (length xs)
  = (Destroy <$> xs, Normal (pre ++ replicate (length xs) None ++ post)).
Proof.
  induction xs as [|x xs IH]; intros pre post; [done|].
  cbn [destroy_n length fmap list_fmap app].
  unfold destroy_at. rewrite lookup_mid, insert_mid. run.
  rewrite snoc_shift, <- (length_snoc pre None), IH. run.
  by rewrite <- app_assoc.
Qed.

Lemma destroy_n_outcome {St} n : forall (buf : list (option T)) first l r,
  destroy_n (St:=St) buf first n = (l, r) ->
  (exists buf', r = Normal buf') \/ r = Fault.
Proof.
  induction n as [|n IH]; intros buf first l r; cbn [destroy_n].
  - intros [= <- <-]. eauto.
  - unfold destroy_at. destruct (buf !! first) as [[v|]|]; run;
      try (intros [= <- <-]; by right).
    destruct (destroy_n _ _ _) as [l' r'] eqn:E. run.
    intros [= <- <-]. eapply IH, E.
Qed.

(** the first element on which an operation throws *)
Lemma first_throw_split (p : T -> bool) xs :
  ~ Forall (fun x => p x = false) xs ->
  exists ys x zs,
    xs = ys ++ x :: zs /\ Forall (fun y => p y = false) ys /\ p x = true.
Proof.
  induction xs as [|x xs IH]; intros Hn.
  - destruct Hn. constructor.
  - destruct (p x) eqn:Hx.
    + exists [], x, xs. by repeat split.
    + destruct IH as (ys & y & zs & -> & Hys & Hy).
      { intros HF. apply Hn. by constructor. }
      exists (x :: ys), y, zs. repeat split; [by constructor | done].
Qed.

Lemma value_construct_loop_ok d n : forall first pre post,
  value_init = Some d ->
  value_construct_loop (pre ++ replicate n None ++ post) first (length pre) n
  = (replicate n ValueCtor, Normal (pre ++ replicate n (Some d) ++ post)).
Proof.
  induction n as [|n IH]; intros first pre post Hd; [done|].
  cbn [value_construct_loop replicate app].
  unfold construct_value, place. rewrite Hd. run.
  rewrite lookup_mid, insert_mid. run.
  rewrite snoc_shift, <- (length_snoc pre (Some d)), IH by done. run.
  by rewrite <- app_assoc.
Qed.

Lemma uninitialized_value_construct_n_ok d n pre post :
  value_init = Some d ->
  uninitialized_value_construct_n (pre ++ replicate n None ++ post)
    (length pre) n
  = (replicate n ValueCtor, Normal (pre ++ replicate n (Some d) ++ post)).
Proof.
  intros Hd. unfold uninitialized_value_construct_n.
  by rewrite (value_construct_loop_ok d).
Qed.

Lemma uninitialized_value_construct_n_throw n (buf : list (option T)) first :
  value_init = None ->
  uninitialized_value_construct_n buf first (S n)
  = ([ValueCtor], Throws elem_failure buf).
Proof.
  intros Hd. unfold uninitialized_value_construct_n.
  cbn [value_construct_loop]. unfold construct_value. rewrite Hd.
  run. rewrite Nat.sub_diag. done.
Qed.

Lemma copy_construct_loop_ok xs : forall spre spost dpre dpost,
  Forall (fun x => copy_throws x = false) xs ->
  copy_construct_loop (spre ++ (Some <$> xs) ++ spost) (length spre)
    (dpre ++ replicate (length xs) None ++ dpost) (length dpre) (length xs)
  = (CopyCtor <$> xs, Normal (dpre ++ (Some <$> xs) ++ dpost)).
Proof.
  induction xs as [|x xs IH]; intros spre spost dpre dpost HF; [done|].
  inversion_clear HF as [|? ? Hx HF'].
  cbn [copy_construct_loop length fmap list_fmap app replicate].
  unfold read. rewrite lookup_mid. run.
  unfold construct_copy. rewrite Hx. run.
  unfold place. rewrite lookup_mid, insert_mid. run.
  rewrite (snoc_shift spre), <- (length_snoc spre (Some x)).
  rewrite (snoc_shift dpre), <- (length_snoc dpre (Some x)).
  rewrite IH by done. run. by rewrite <- app_assoc.
Qed.

Lemma copy_construct_loop_throw ys x zs : forall spre spost dpre dpost,
  Forall (fun y => copy_throws y = false) ys ->
  copy_throws x = true ->
  copy_construct_loop (spre ++ (Some <$> ys ++ x :: zs) ++ spost)
    (length spre)
    (dpre ++ replicate (length (ys ++ x :: zs)) None ++ dpost) (length dpre)
    (length (ys ++ x :: zs))
  = (CopyCtor <$> ys ++ [x],
     Throws elem_failure
       (dpre ++ (Some <$> ys) ++ replicate (length (x :: zs)) None ++ dpost,
        length dpre + length ys)).
Proof.
  induction ys as [|y ys IH]; intros spre spost dpre dpost HF Hx.
  - cbn [copy_construct_loop length fmap list_fmap app replicate].
    unfold read. rewrite lookup_mid. run.
    unfold construct_copy. rewrite Hx. run. by rewrite Nat.add_0_r.
  - inversion_clear HF as [|? ? Hy HF'].
    cbn [copy_construct_loop length fmap list_fmap app replicate].
    unfold read. rewrite lookup_mid. run.
    unfold construct_copy. rewrite Hy. run.
    unfold place. rewrite lookup_mid, insert_mid. run.
    rewrite (snoc_shift spre), <- (length_snoc spre (Some y)).
    rewrite (snoc_shift dpre), <- (length_snoc dpre (Some y)).
    rewrite IH by done. run. rewrite <- app_assoc.
    rewrite length_snoc. do 3 f_equal. lia.
Qed.

(** [uninitialized_copy_n]: every element copied, the source as it was *)
Lemma uninitialized_copy_n_ok xs spre spost dpre dpost :
  Forall (fun x => copy_throws x = false) xs ->
  uninitialized_copy_n (spre ++ (Some <$> xs) ++ spost) (length spre)
    (length xs) (dpre ++ replicate (length xs) None ++ dpost) (length dpre)
  = (CopyCtor <$> xs,
     Normal (spre ++ (Some <$> xs) ++ spost, dpre ++ (Some <$> xs) ++ dpost)).
Proof.
  intros HF. unfold uninitialized_copy_n.
  rewrite copy_construct_loop_ok by done.
  run. by rewrite app_nil_r.
Qed.

(** [uninitialized_copy_n] when a copy throws: what was constructed is
    destroyed again, source and destination are as before the call *)
Lemma uninitialized_copy_n_throw xs spre spost dpre dpost :
  ~ Forall (fun x => copy_throws x = false) xs ->
  exists l,
    uninitialized_copy_n (spre ++ (Some <$> xs) ++ spost) (length spre)
      (length xs) (dpre ++ replicate (length xs) None ++ dpost) (length dpre)
    = (l, Throws elem_failure
            (spre ++ (Some <$> xs) ++ spost,
             dpre ++ replicate (length xs) None ++ dpost)).
Proof.
  intros (ys & x & zs & -> & HF & Hx)%first_throw_split.
  unfold uninitialized_copy_n.
  rewrite copy_construct_loop_throw by done. run.
  replace (length dpre + length ys - length dpre) with (length ys) by lia.
  rewrite destroy_n_live. run.
  eexists. f_equal. f_equal. f_equal.
  rewrite length_app, replicate_add. by rewrite <- app_assoc.
Qed.

Lemma move_construct_loop_ok xs : forall spre spost dpre dpost,
  Forall (fun x => move_throws x = false) xs ->
  move_construct_loop (spre ++ (Some <$> xs) ++ spost) (length spre)
    (dpre ++ replicate (length xs) None ++ dpost) (length dpre) (length xs)
  = (MoveCtor <$> xs,
     Normal (spre ++ (Some <$> (moved_from <$> xs)) ++ spost,
             dpre ++ (Some <$> xs) ++ dpost)).
Proof.
  induction xs as [|x xs IH]; intros spre spost dpre dpost HF; [done|].
  inversion_clear HF as [|? ? Hx HF'].
  cbn [move_construct_loop length fmap list_fmap app replicate].
  unfold read. rewrite lookup_mid. run.
  unfold construct_move. rewrite Hx. run.
  unfold place, store. rewrite !lookup_mid, !insert_mid. run.
  rewrite (snoc_shift spre), <- (length_snoc spre (Some (moved_from x))).
  rewrite (snoc_shift dpre), <- (length_snoc dpre (Some x)).
  rewrite IH by done. run. by rewrite <- !app_assoc.
Qed.

Lemma move_construct_loop_throw ys x zs : forall spre spost dpre dpost,
  Forall (fun y => move_throws y = false) ys ->
  move_throws x = true ->
  move_construct_loop (spre ++ (Some <$> ys ++ x :: zs) ++ spost)
    (length spre)
    (dpre ++ replicate (length (ys ++ x :: zs)) None ++ dpost) (length dpre)
    (length (ys ++ x :: zs))
  = (MoveCtor <$> ys ++ [x],
     Throws elem_failure
       (spre ++ (Some <$> (moved_from <$> ys) ++ x :: zs) ++ spost,
        dpre ++ (Some <$> ys) ++ replicate (length (x :: zs)) None ++ dpost,
        length dpre + length ys)).
Proof.
  induction ys as [|y ys IH]; intros spre spost dpre dpost HF Hx.
  - cbn [move_construct_loop length fmap list_fmap app replicate].
    unfold read. rewrite lookup_mid. run.
    unfold construct_move. rewrite Hx. run. by rewrite Nat.add_0_r.
  - inversion_clear HF as [|? ? Hy HF'].
    cbn [move_construct_loop length fmap list_fmap app replicate].
    unfold read. rewrite lookup_mid. run.
    unfold construct_move. rewrite Hy. run.
    unfold place, store. rewrite !lookup_mid, !insert_mid. run.
    rewrite (snoc_shift spre), <- (length_snoc spre (Some (moved_from y))).
    rewrite (snoc_shift dpre), <- (length_snoc dpre (Some y)).
    rewrite IH by done. run. rewrite <- !app_assoc.
    rewrite length_snoc. do 3 f_equal. lia.
Qed.

(** [uninitialized_move_n]: every element moved, the source objects left
    moved-from *)
Lemma uninitialized_move_n_ok xs spre spost dpre dpost :
  Forall (fun x => move_throws x = false) xs ->
  uninitialized_move_n (spre ++ (Some <$> xs) ++ spost) (length spre)
    (length xs) (dpre ++ replicate (length xs) None ++ dpost) (length dpre)
  = (MoveCtor <$> xs,
     Normal (spre ++ (Some <$> (moved_from <$> xs)) ++ spost,
             dpre ++ (Some <$> xs) ++ dpost)).
Proof.
  intros HF. unfold uninitialized_move_n.
  by rewrite move_construct_loop_ok by done.
Qed.

(** [uninitialized_move_n] when a move throws: the destination is raw
    again, the elements before the failing one stay moved-from *)
Lemma uninitialized_move_n_throw xs spre spost dpre dpost :
  ~ Forall (fun x => move_throws x = false) xs ->
  exists l ys x zs,
    xs = ys ++ x :: zs /\
    uninitialized_move_n (spre ++ (Some <$> xs) ++ spost) (length spre)
      (length xs) (dpre ++ replicate (length xs) None ++ dpost) (length dpre)
    = (l, Throws elem_failure
            (spre ++ (Some <$> (moved_from <$> ys) ++ x :: zs) ++ spost,
             dpre ++ replicate (length xs) None ++ dpost)).
Proof.
  intros (ys & x & zs & -> & HF & Hx)%first_throw_split.
  unfold uninitialized_move_n.
  rewrite move_construct_loop_throw by done. run.
  replace (length dpre + length ys - length dpre) with (length ys) by lia.
  rewrite destroy_n_live. run.
  eexists _, ys, x, zs. split; [done|]. f_equal. f_equal. f_equal.
  rewrite length_app, replicate_add. by rewrite <- app_assoc.
Qed.

Lemma read_mid {St} (pre post : list (option T)) a i :
  i = length pre -> read (St:=St) (pre ++ Some a :: post) i = ret a.
Proof. intros ->. unfold read. by rewrite lookup_mid. Qed.

Lemma store_mid {St} (pre post : list (option T)) a i (w : T) :
  i = length pre ->
  store (St:=St) (pre ++ Some a :: post) i w = ret (pre ++ Some w :: post).
Proof. intros ->. unfold store. by rewrite lookup_mid, insert_mid. Qed.

Lemma place_mid {St} (pre post : list (option T)) i (w : T) :
  i = length pre ->
  place (St:=St) (pre ++ None :: post) i w = ret (pre ++ Some w :: post).
Proof. intros ->. unfold place. by rewrite lookup_mid, insert_mid. Qed.

Lemma destroy_at_mid {St} (pre post : list (option T)) a i :
  i = length pre ->
  destroy_at (St:=St) (pre ++ Some a :: post) i
  = ([Destroy a], Normal (pre ++ None :: post)).
Proof. intros ->. unfold destroy_at. by rewrite lookup_mid, insert_mid. Qed.

(** move assignment between neighbours, to the left and to the right *)
Lemma move_assign_slot_left pre post (a b : T) :
  move_assign_throws b = false ->
  move_assign_slot (pre ++ Some a :: Some b :: post) (length pre)
    (S (length pre))
  = ([MoveAssign b], Normal (pre ++ Some b :: Some (moved_from b) :: post)).
Proof.
  intros Hb. unfold move_assign_slot.
  rewrite read_mid by done. run.
  rewrite (snoc_shift pre), read_mid by by rewrite length_snoc. run.
  unfold assign_move. rewrite Hb. run.
  rewrite <- snoc_shift, store_mid by done. run.
  rewrite (snoc_shift pre), store_mid by by rewrite length_snoc.
  by rewrite <- snoc_shift.
Qed.

Lemma move_assign_slot_right pre post (a b : T) :
  move_assign_throws a = false ->
  move_assign_slot (pre ++ Some a :: Some b :: post) (S (length pre))
    (length pre)
  = ([MoveAssign a], Normal (pre ++ Some (moved_from a) :: Some a :: post)).
Proof.
  intros Ha. unfold move_assign_slot.
  rewrite (snoc_shift pre), read_mid by by rewrite length_snoc. run.
  rewrite <- snoc_shift, read_mid by done. run.
  unfold assign_move. rewrite Ha. run.
  rewrite (snoc_shift pre), store_mid by by rewrite length_snoc. run.
  by rewrite <- snoc_shift, store_mid.
Qed.

Lemma move_assign_slot_throw (buf : list (option T)) dst src w v :
  buf !! dst = Some (Some w) ->
  buf !! src = Some (Some v) ->
  move_assign_throws v = true ->
  move_assign_slot buf dst src = ([MoveAssign v], Throws elem_failure buf).
Proof.
  intros Hd Hs Hv. unfold move_assign_slot, read. rewrite Hd. run.
  rewrite Hs. run. unfold assign_move. by rewrite Hv.
Qed.

Lemma shift_residue_snoc y xs x :
  shift_residue y (xs ++ [x]) = shift_residue (moved_from x) xs.
Proof. by destruct xs. Qed.

(** [move_backward] shifts a run of objects one slot to the right *)
Lemma move_backward_loop_ok xs : forall pre y post,
  Forall (fun x => move_assign_throws x = false) xs ->
  move_backward_loop (pre ++ (Some <$> xs) ++ Some y :: post)
    (length pre + length xs) (length pre + length xs + 1) (length xs)
  = (MoveAssign <$> reverse xs,
     Normal (pre ++ Some (shift_residue y xs) :: (Some <$> xs) ++ post)).
Proof.
  induction xs as [|x xs IH] using rev_ind; intros pre y post HF; [done|].
  apply Forall_app in HF as [HF Hx]. inversion_clear Hx as [|? ? Hx' _].
  rewrite length_app, reverse_snoc, shift_residue_snoc. cbn [length].
  replace (length xs + 1) with (S (length xs)) by lia.
  cbn [move_backward_loop].
  rewrite fmap_app, <- app_assoc. cbn [fmap list_fmap app].
  rewrite (app_assoc pre).
  replace (length pre + S (length xs) + 1 - 1)
    with (S (length (pre ++ (Some <$> xs))))
    by (rewrite length_app, length_fmap; lia).
  replace (length pre + S (length xs) - 1)
    with (length (pre ++ (Some <$> xs)))
    by (rewrite length_app, length_fmap; lia).
  rewrite move_assign_slot_right by done. run.
  rewrite <- app_assoc, length_app, length_fmap.
  replace (S (length pre + length xs)) with (length pre + length xs + 1)
    by lia.
  rewrite IH by done. run.
  by rewrite <- app_assoc.
Qed.

Lemma move_backward_loop_throw xs : forall pre y post,
  ~ Forall (fun x => move_assign_throws x = false) xs ->
  exists l s,
    move_backward_loop (pre ++ (Some <$> xs) ++ Some y :: post)
      (length pre + length xs) (length pre + length xs + 1) (length xs)
    = (l, Throws elem_failure s).
Proof.
  induction xs as [|x xs IH] using rev_ind; intros pre y post HF.
  { destruct HF. constructor. }
  rewrite length_app. cbn [length].
  replace (length xs + 1) with (S (length xs)) by lia.
  cbn [move_backward_loop].
  rewrite fmap_app, <- app_assoc. cbn [fmap list_fmap app].
  rewrite (app_assoc pre).
  replace (length pre + S (length xs) + 1 - 1)
    with (S (length (pre ++ (Some <$> xs))))
    by (rewrite length_app, length_fmap; lia).
  replace (length pre + S (length xs) - 1)
    with (length (pre ++ (Some <$> xs)))
    by (rewrite length_app, length_fmap; lia).
  destruct (move_assign_throws x) eqn:Hx.
  - rewrite (move_assign_slot_throw _ _ _ y x);
      [run; eauto | | apply lookup_mid | done].
    rewrite snoc_shift, <- (length_snoc _ (Some x)). apply lookup_mid.
  - rewrite move_assign_slot_right by done. run.
    rewrite <- app_assoc, length_app, length_fmap.
    replace (S (length pre + length xs)) with (length pre + length xs + 1)
      by lia.
    destruct (IH pre (moved_from x) (Some x :: post)) as (l & s & ->).
    { intros HF'. apply HF, Forall_app. split; [done|]. by constructor. }
    run. eauto.
Qed.

(** [copy_n] assigns a run of objects over another *)
Lemma copy_n_ok xs : forall ys spre spost dpre dpost,
  length ys = length xs ->
  Forall (fun x => copy_assign_throws x = false) xs ->
  copy_n (spre ++ (Some <$> xs) ++ spost) (length spre) (length xs)
    (dpre ++ (Some <$> ys) ++ dpost) (length dpre)
  = (CopyAssign <$> xs, Normal (dpre ++ (Some <$> xs) ++ dpost)).
Proof.
  induction xs as [|x xs IH]; intros ys spre spost dpre dpost Hl HF.
  { by destruct ys. }
  destruct ys as [|y ys]; [done|]. injection Hl as Hl.
  inversion_clear HF as [|? ? Hx HF'].
  cbn [copy_n length fmap list_fmap app].
  unfold read. rewrite !lookup_mid. run.
  unfold assign_copy. rewrite Hx. run.
  unfold store. rewrite lookup_mid, insert_mid. run.
  rewrite (snoc_shift spre), <- (length_snoc spre (Some x)).
  rewrite (snoc_shift dpre), <- (length_snoc dpre (Some x)).
  rewrite (IH ys) by done. run. by rewrite <- app_assoc.
Qed.

Lemma copy_n_throw xs : forall ys spre spost dpre dpost,
  length ys = length xs ->
  ~ Forall (fun x => copy_assign_throws x = false) xs ->
  exists l s,
    copy_n (spre ++ (Some <$> xs) ++ spost) (length spre) (length xs)
      (dpre ++ (Some <$> ys) ++ dpost) (length dpre)
    = (l, Throws elem_failure s).
Proof.
  induction xs as [|x xs IH]; intros ys spre spost dpre dpost Hl HF.
  { destruct HF. constructor. }
  destruct ys as [|y ys]; [done|]. injection Hl as Hl.
  cbn [copy_n length fmap list_fmap app].
  unfold read. rewrite !lookup_mid. run.
  unfold assign_copy. destruct (copy_assign_throws x) eqn:Hx; run; [eauto|].
  unfold store. rewrite lookup_mid, insert_mid. run.
  rewrite (snoc_shift spre), <- (length_snoc spre (Some x)).
  rewrite (snoc_shift dpre), <- (length_snoc dpre (Some x)).
  destruct (IH ys (spre ++ [Some x]) spost (dpre ++ [Some x]) dpost)
    as (l & s & ->); [done | | run; eauto].
  intros HF'. apply HF. by constructor.
Qed.

End MemoryFacts.

(** ** Which exceptions can leave an algorithm *)

Section Throws.
Context {T : Type} `{!Element T}.
Implicit Types (P : exn -> Prop).

Lemma throws_only_ret {A S} P (a : A) : throws_only P (ret (T:=T) (S:=S) a).
Proof. by intros e s. Qed.

Lemma throws_only_fault {A S} P :
  throws_only P (fault (T:=T) (A:=A) (S:=S)).
Proof. by intros e s. Qed.

Lemma throws_only_emit {S} P l : throws_only P (emit (T:=T) (S:=S) l).
Proof. by intros e s. Qed.

Lemma throws_only_throw {A S} P e (s : S) :
  P e -> throws_only P (throw (T:=T) (A:=A) e s).
Proof. intros HP e' s' [= <- <-]. done. Qed.

Lemma throws_only_bind {A B S} P (m : M T A S) (k : A -> M T B S) :
  throws_only P m -> (forall a, throws_only P (k a)) ->
  throws_only P (bind m k).
Proof.
  intros Hm Hk e s. destruct m as [l [a| e' s'|]]; run; [| |done].
  - specialize (Hk a e s). destruct (k a) as [l' r']. run. eauto.
  - intros [= <- <-]. exact (Hm _ _ eq_refl).
Qed.

Lemma throws_only_unwind {A S S'} P (m : M T A S)
  (h : exn -> S -> M T A S') :
  throws_only P m -> (forall e s, P e -> throws_only P (h e s)) ->
  throws_only P (unwind m h).
Proof.
  intros Hm Hh e s. destruct m as [l [a| e' s'|]]; run; [done| |done].
  specialize (Hh e' s' (Hm _ _ eq_refl) e s).
  destruct (h e' s') as [l' r']. run. eauto.
Qed.

Lemma throws_only_construct {S} P (s : S) (a : init) :
  P elem_failure -> throws_only P (construct s a).
Proof.
  intros HP e s'. destruct a as [[v|]|v|v]; cbn;
    repeat case_match; try done; by intros [= <- <-].
Qed.

Lemma throws_only_construct_move {S} P (s : S) (v : T) :
  P elem_failure -> throws_only P (construct_move s v).
Proof. apply (throws_only_construct P s (from_move v)). Qed.

Lemma throws_only_construct_copy {S} P (s : S) (v : T) :
  P elem_failure -> throws_only P (construct_copy s v).
Proof. apply (throws_only_construct P s (from_copy v)). Qed.

Lemma throws_only_construct_value {S} P (s : S) :
  P elem_failure -> throws_only P (construct_value s).
Proof.
  intros HP e s'. unfold construct_value. cbn.
  case_match; try done; by intros [= <- <-].
Qed.

Lemma throws_only_assign_move {S} P (s : S) (v : T) :
  P elem_failure -> throws_only P (assign_move s v).
Proof.
  intros HP e s'. unfold assign_move. cbn.
  case_match; try done; by intros [= <- <-].
Qed.

Lemma throws_only_assign_copy {S} P (s : S) (v : T) :
  P elem_failure -> throws_only P (assign_copy s v).
Proof.
  intros HP e s'. unfold assign_copy. cbn.
  case_match; try done; by intros [= <- <-].
Qed.

Lemma throws_only_read {S} P (buf : list (option T)) i :
  throws_only P (read (St:=S) buf i).
Proof. intros e s. unfold read. by repeat case_match. Qed.

Lemma throws_only_place {S} P (buf : list (option T)) i v :
  throws_only P (place (St:=S) buf i v).
Proof. intros e s. unfold place. by repeat case_match. Qed.

Lemma throws_only_store {S} P (buf : list (option T)) i v :
  throws_only P (store (St:=S) buf i v).
Proof. intros e s. unfold store. by repeat case_match. Qed.

Lemma throws_only_destroy_at {S} P (buf : list (option T)) i :
  throws_only P (destroy_at (St:=S) buf i).
Proof. intros e s. unfold destroy_at. by repeat case_match. Qed.

Lemma throws_only_destroy_n {S} P n : forall (buf : list (option T)) first,
  throws_only P (destroy_n (St:=S) buf first n).
Proof.
  induction n as [|n IH]; intros buf first; cbn [destroy_n].
  - apply throws_only_ret.
  - apply throws_only_bind; [apply throws_only_destroy_at | intros; apply IH].
Qed.

End Throws.

#[export] Hint Resolve throws_only_ret throws_only_fault throws_only_emit
  throws_only_throw throws_only_construct throws_only_construct_move
  throws_only_construct_copy throws_only_construct_value
  throws_only_assign_move throws_only_assign_copy throws_only_read
  throws_only_place throws_only_store throws_only_destroy_at
  throws_only_destroy_n : throws.

(** one step through the structure of a computation *)
Ltac throws_step :=
  match goal with
  | |- throws_only _ (bind _ _) => apply throws_only_bind; [|intros]
  | |- throws_only _ (unwind _ _) => apply throws_only_unwind; [|intros]
  | |- throws_only _ (_, Normal _) => by intros ? ?
  | |- throws_only _ (if ?b then _ else _) => destruct b
  | |- throws_only _ (match ?x with _ => _ end) => destruct x
  | |- throws_only _ _ => solve [eauto with throws]
  end.

Section ThrowsAlgorithms.
Context {T : Type} `{!Element T}.
Implicit Types (P : exn -> Prop) (buf src dst : list (option T)).

Lemma throws_only_value_construct_loop P n : forall buf first cur,
  P elem_failure -> throws_only P (value_construct_loop buf first cur n).
Proof.
  induction n as [|n IH]; intros buf first cur HP;
    cbn [value_construct_loop]; repeat throws_step.
Qed.

Lemma throws_only_uninitialized_value_construct_n P n buf first :
  P elem_failure -> throws_only P (uninitialized_value_construct_n buf first n).
Proof.
  intros HP. unfold uninitialized_value_construct_n.
  pose proof (throws_only_value_construct_loop P n). repeat throws_step.
Qed.

Lemma throws_only_copy_construct_loop P n : forall src first dst cur,
  P elem_failure -> throws_only P (copy_construct_loop src first dst cur n).
Proof.
  induction n as [|n IH]; intros src first dst cur HP;
    cbn [copy_construct_loop]; repeat throws_step.
Qed.

Lemma throws_only_uninitialized_copy_n P n src first dst d_first :
  P elem_failure ->
  throws_only P (uninitialized_copy_n src first n dst d_first).
Proof.
  intros HP. unfold uninitialized_copy_n.
  pose proof (throws_only_copy_construct_loop P n). repeat throws_step.
Qed.

Lemma throws_only_move_construct_loop P n : forall src first dst cur,
  P elem_failure -> throws_only P (move_construct_loop src first dst cur n).
Proof.
  induction n as [|n IH]; intros src first dst cur HP;
    cbn [move_construct_loop]; repeat throws_step.
Qed.

Lemma throws_only_uninitialized_move_n P n src first dst d_first :
  P elem_failure ->
  throws_only P (uninitialized_move_n src first n dst d_first).
Proof.
  intros HP. unfold uninitialized_move_n.
  pose proof (throws_only_move_construct_loop P n). repeat throws_step.
Qed.

Lemma throws_only_move_assign_slot P buf i j :
  P elem_failure -> throws_only P (move_assign_slot buf i j).
Proof. intros HP. unfold move_assign_slot. repeat throws_step. Qed.

Lemma throws_only_move_backward P buf first last d_last :
  P elem_failure -> throws_only P (move_backward buf first last d_last).
Proof.
  intros HP. unfold move_backward. generalize (last - first) as n.
  intros n. revert buf last d_last.
  pose proof (throws_only_move_assign_slot P).
  induction n as [|n IH]; intros buf last d_last;
    cbn [move_backward_loop]; repeat throws_step.
Qed.

Lemma throws_only_copy_n P n : forall src first dst d_first,
  P elem_failure -> throws_only P (copy_n src first n dst d_first).
Proof.
  induction n as [|n IH]; intros src first dst d_first HP;
    cbn [copy_n]; repeat throws_step.
Qed.

Lemma throws_only_make {St} `{!Allocator} P (s : St) n :
  P bad_alloc -> throws_only P (RawMemory.make (T:=T) s n).
Proof.
  intros HP. unfold RawMemory.make, RawMemory.Allocate. repeat throws_step.
Qed.

Lemma throws_only_dtor {St} P (m : RawMemory.t T) :
  throws_only P (RawMemory.dtor (St:=St) m).
Proof.
  unfold RawMemory.dtor, RawMemory.Deallocate. repeat throws_step.
Qed.

Lemma throws_only_at {St} P (m : RawMemory.t T) i :
  throws_only P (RawMemory.at_ (St:=St) m i).
Proof. unfold RawMemory.at_. repeat throws_step. Qed.

Lemma throws_only_Erase_loop P (data : RawMemory.t T) n : forall buf i,
  P elem_failure -> throws_only P (Vector.Erase_loop data buf i n).
Proof.
  pose proof (throws_only_move_assign_slot P).
  induction n as [|n IH]; intros buf i HP;
    cbn [Vector.Erase_loop]; repeat throws_step.
Qed.

End ThrowsAlgorithms.

#[export] Hint Resolve throws_only_uninitialized_value_construct_n
  throws_only_uninitialized_copy_n throws_only_uninitialized_move_n
  throws_only_move_assign_slot throws_only_move_backward throws_only_copy_n
  throws_only_make throws_only_dtor throws_only_at throws_only_Erase_loop
  : throws.

(** ** The invariant and its canonical form *)

Section Representation.
Context {T : Type} `{!Element T}.
Implicit Types (xs ys : list T) (v : Vector.t T).

Lemma live_some xs : live (Some <$> xs) = xs.
Proof.
  unfold live. induction xs as [|x xs IH]; [done|].
  cbn. by rewrite IH.
Qed.

Lemma live_raw n : live (T:=T) (replicate n None) = [].
Proof. unfold live. induction n as [|n IH]; [done|]. done. Qed.



Lemma contents_vec xs spare : contents (vec xs spare) = xs.
Proof.
  unfold contents, vec, slots. cbn.
  rewrite take_app_length' by by rewrite length_fmap.
  apply live_some.
Qed.

Lemma invariant_vec xs spare : invariant (vec xs spare).
Proof.
  unfold invariant, vec, slots. cbn. repeat split.
  - by rewrite length_app, length_fmap, length_replicate.
  - lia.
  - intros i Hi. destruct (lookup_lt_is_Some_2 xs i Hi) as [x Hx].
    exists x. rewrite lookup_app_l by by rewrite length_fmap.
    by rewrite list_lookup_fmap, Hx.
  - intros i [Hi1 Hi2]. rewrite lookup_app_r by by rewrite length_fmap.
    rewrite length_fmap. apply lookup_replicate_2. lia.
Qed.

Lemma all_some_live (l : list (option T)) :
  Forall is_Some l -> Some <$> live l = l.
Proof.
  unfold live. induction 1 as [|o l [x ->] _ IH]; [done|].
  cbn. by rewrite IH.
Qed.

Lemma all_none_replicate (l : list (option T)) :
  Forall (fun o => o = None) l -> l = replicate (length l) None.
Proof. induction 1 as [|o l -> _ IH]; [done|]. cbn. by rewrite <- IH. Qed.

(** A vector that satisfies the invariant is [vec] of its contents. *)
Lemma invariant_inv v :
  invariant v ->
  v = vec (contents v) (Vector.Capacity v - Vector.Size v) /\
  length (contents v) = Vector.Size v.
Proof.
  destruct v as [[b c] n]. unfold invariant, contents, vec, slots.
  unfold Vector.Capacity, Vector.Size, RawMemory.Capacity. cbn.
  intros (-> & Hn & Hlive & Hraw).
  assert (Htake : Some <$> live (take n b) = take n b).
  { apply all_some_live, Forall_lookup. intros i o Hio.
    apply lookup_take_Some in Hio as [Hio Hi].
    destruct (Hlive i Hi) as [x Hx]. rewrite Hx in Hio.
    injection Hio as <-. by eexists. }
  assert (Hlen : length (live (take n b)) = n).
  { rewrite <- (length_fmap Some), Htake, length_take. lia. }
  assert (Hdrop : drop n b = replicate (length b - n) None).
  { rewrite <- (length_drop b n). apply all_none_replicate, Forall_lookup.
    intros i o Hio. rewrite lookup_drop in Hio.
    rewrite Hraw in Hio; [congruence|].
    apply lookup_lt_Some in Hio. lia. }
  unfold live in Htake, Hlen.
  split; [|done]. rewrite Htake, Hlen, <- Hdrop, take_drop.
  do 2 f_equal. lia.
Qed.

Lemma invariant_iff v :
  invariant v <-> exists xs spare, v = vec xs spare.
Proof.
  split.
  - intros [Hv _]%invariant_inv. eauto.
  - intros (xs & spare & ->). apply invariant_vec.
Qed.

Lemma Size_vec xs spare : Vector.Size (vec xs spare) = length xs.
Proof. done. Qed.

Lemma Capacity_vec xs spare :
  Vector.Capacity (vec xs spare) = length xs + spare.
Proof. done. Qed.

Lemma vec_inj xs ys s1 s2 : vec xs s1 = vec ys s2 -> xs = ys /\ s1 = s2.
Proof.
  intros H. assert (xs = ys) as <-.
  { by rewrite <- (contents_vec xs s1), H, contents_vec. }
  split; [done|]. apply (f_equal Vector.Capacity) in H.
  rewrite !Capacity_vec in H. lia.
Qed.

End Representation.

(** ** The member functions on vectors in canonical form *)

Section VectorFacts.
Context {T : Type} `{!Element T} `{!Allocator}.
Implicit Types (xs ys : list T) (v : Vector.t T).

Import RawMemory Vector.

Lemma vec_eq (buf : list (option T)) c n ys spare :
  buf = slots ys spare -> c = length ys + spare -> n = length ys ->
  {| data_ := {| buffer_ := buf; capacity_ := c |}; size_ := n |}
  = vec ys spare.
Proof. by intros -> -> ->. Qed.

Lemma make_ok {St} (s : St) n :
  n = 0 \/ alloc_fails n = false ->
  make (T:=T) s n
  = (alloc_events n,
     Normal {| buffer_ := replicate n None; capacity_ := n |}).
Proof.
  unfold make, Allocate, alloc_events.
  intros [-> | Hn]; [done|]. destruct n as [|n]; [done|].
  cbn [Nat.eqb]. by rewrite Hn.
Qed.

Lemma make_throw {St} (s : St) n :
  n <> 0 -> alloc_fails n = true ->
  make (T:=T) s n = ([], Throws bad_alloc s).
Proof.
  unfold make, Allocate. intros Hn Hf.
  destruct n as [|n]; [done|]. cbn [Nat.eqb]. by rewrite Hf.
Qed.

Lemma dtor_raw {St} (m : RawMemory.t T) n :
  RawMemory.dtor (St:=St) (with_contents m (replicate n None))
  = (free_events n, Normal tt).
Proof.
  unfold RawMemory.dtor, Deallocate, free_events. destruct n as [|n]; [done|].
  pose proof (live_raw (T:=T) (S n)) as Hl.
  cbn [with_contents buffer_ replicate Nat.eqb emit] in *.
  by rewrite Hl.
Qed.

Lemma construct_eq {St} (s : St) (a : init) :
  construct s a
  = ([init_event a],
     match init_value a with
     | Some x => Normal x
     | None => Throws elem_failure s
     end).
Proof.
  destruct a as [[x|]|x|x]; cbn; try done; unfold construct_copy,
    construct_move; by case_match.
Qed.

Lemma place_slots {St} xs spare x :
  place (St:=St) (slots xs (S spare)) (length xs) x
  = ret (slots (xs ++ [x]) spare).
Proof.
  unfold place, slots. rewrite <- (length_fmap Some xs).
  cbn [replicate]. rewrite lookup_mid, insert_mid.
  by rewrite fmap_app, <- app_assoc.
Qed.

(** relocation of a run of elements into raw storage, by the constructor
    that the type traits select *)
Lemma relocate_ok xs spre spost dpre dpost :
  Forall (fun x => relocation_throws x = false) xs ->
  (if is_nothrow_move_constructible || negb is_copy_constructible
   then uninitialized_move_n (spre ++ (Some <$> xs) ++ spost) (length spre)
          (length xs) (dpre ++ replicate (length xs) None ++ dpost)
          (length dpre)
   else uninitialized_copy_n (spre ++ (Some <$> xs) ++ spost) (length spre)
          (length xs) (dpre ++ replicate (length xs) None ++ dpost)
          (length dpre))
  = (relocation_events xs,
     Normal (spre ++ (Some <$> relocated_from xs) ++ spost,
             dpre ++ (Some <$> xs) ++ dpost)).
Proof.
  unfold relocation_throws, relocation_events, relocated_from,
    relocates_by_move.
  destruct (is_nothrow_move_constructible || negb is_copy_constructible);
    intros HF.
  - by apply uninitialized_move_n_ok.
  - by apply uninitialized_copy_n_ok.
Qed.

Lemma relocate_throw xs spre spost dpre dpost :
  ~ Forall (fun x => relocation_throws x = false) xs ->
  exists l ys,
    (if is_nothrow_move_constructible || negb is_copy_constructible
     then uninitialized_move_n (spre ++ (Some <$> xs) ++ spost) (length spre)
            (length xs) (dpre ++ replicate (length xs) None ++ dpost)
            (length dpre)
     else uninitialized_copy_n (spre ++ (Some <$> xs) ++ spost) (length spre)
            (length xs) (dpre ++ replicate (length xs) None ++ dpost)
            (length dpre))
    = (l, Throws elem_failure
            (spre ++ (Some <$> ys) ++ spost,
             dpre ++ replicate (length xs) None ++ dpost)) /\
    length ys = length xs /\
    (relocates_by_move = false -> ys = xs).
Proof.
  unfold relocation_throws, relocates_by_move.
  destruct (is_nothrow_move_constructible || negb is_copy_constructible);
    intros HF.
  - destruct (uninitialized_move_n_throw xs spre spost dpre dpost HF)
      as (l & ys & x & zs & -> & ->).
    exists l, ((moved_from <$> ys) ++ x :: zs). repeat split; [|done].
    rewrite !length_app, length_fmap. done.
  - destruct (uninitialized_copy_n_throw xs spre spost dpre dpost HF)
      as (l & ->).
    by exists l, xs.
Qed.

Lemma length_relocated_from xs : length (relocated_from xs) = length xs.
Proof.
  unfold relocated_from. destruct relocates_by_move; [|done].
  by rewrite length_fmap.
Qed.


Lemma slots_raw spare : slots (T:=T) [] spare = replicate spare None.
Proof. done. Qed.

Lemma relocate_front_ok xs spare n :
  length xs <= n ->
  Forall (fun x => relocation_throws x = false) xs ->
  (if is_nothrow_move_constructible || negb is_copy_constructible
   then uninitialized_move_n (slots xs spare) 0 (length xs)
          (replicate n None) 0
   else uninitialized_copy_n (slots xs spare) 0 (length xs)
          (replicate n None) 0)
  = (relocation_events xs,
     Normal (slots (relocated_from xs) spare, slots xs (n - length xs))).
Proof.
  intros Hn HF.
  replace (replicate n None)
    with ([] ++ replicate (length xs) (@None T)
             ++ replicate (n - length xs) None).
  - apply (relocate_ok xs [] (replicate spare None) []
             (replicate (n - length xs) None) HF).
  - cbn [app]. rewrite <- replicate_add. f_equal. lia.
Qed.

Lemma relocate_front_throw xs spare n :
  length xs <= n ->
  ~ Forall (fun x => relocation_throws x = false) xs ->
  exists l ys,
    (if is_nothrow_move_constructible || negb is_copy_constructible
     then uninitialized_move_n (slots xs spare) 0 (length xs)
            (replicate n None) 0
     else uninitialized_copy_n (slots xs spare) 0 (length xs)
            (replicate n None) 0)
    = (l, Throws elem_failure (slots ys spare, replicate n None)) /\
    length ys = length xs /\
    (relocates_by_move = false -> ys = xs).
Proof.
  intros Hn HF.
  destruct (relocate_throw xs [] (replicate spare None) []
              (replicate (n - length xs) None) HF) as (l & ys & E & Hl & Hc).
  exists l, ys. split; [|done]. cbn [app length] in E.
  rewrite <- replicate_add in E.
  by replace (length xs + (n - length xs)) with n in E by lia.
Qed.

Lemma destroy_n_front {St} ys spare n :
  length ys = n ->
  destroy_n (St:=St) (slots ys spare) 0 n
  = (Destroy <$> ys, Normal (replicate (n + spare) None)).
Proof.
  intros <-. unfold slots.
  rewrite (destroy_n_live ys [] (replicate spare None)).
  cbn [app]. by rewrite replicate_add.
Qed.

Lemma EmplaceBack_spare xs spare args :
  EmplaceBack (vec xs (S spare)) args
  = ([init_event args],
     match init_value args with
     | Some x => Normal (vec (xs ++ [x]) spare, length xs)
     | None => Throws elem_failure (vec xs (S spare))
     end).
Proof.
  unfold EmplaceBack, Vector.Capacity, RawMemory.Capacity.
  cbn [vec size_ data_ capacity_ buffer_ GetAddress with_contents].
  replace (length xs <? length xs + S spare) with true
    by (symmetry; apply Nat.ltb_lt; lia).
  rewrite construct_eq. destruct (init_value args) as [x|]; run; [|done].
  rewrite place_slots. run. unfold with_contents. cbn [capacity_].
  erewrite vec_eq; [done|done|..]; rewrite length_app; cbn [length]; lia.
Qed.

Lemma doubled_gt c : c < doubled c.
Proof. unfold doubled. destruct c; cbn; lia. Qed.

Lemma alloc_events_doubled c :
  alloc_events (T:=T) (doubled c) = [Alloc (doubled c)].
Proof.
  unfold alloc_events. pose proof (doubled_gt c).
  destruct (doubled c); [lia|done].
Qed.

Lemma EmplaceBack_full_ok xs args x :
  alloc_fails (doubled (length xs)) = false ->
  Forall (fun x => relocation_throws x = false) xs ->
  init_value args = Some x ->
  EmplaceBack (vec xs 0) args
  = (Alloc (doubled (length xs)) :: relocation_events xs
       ++ init_event args :: (Destroy <$> relocated_from xs)
       ++ free_events (length xs),
     Normal (vec (xs ++ [x]) (doubled (length xs) - S (length xs)),
             length xs)).
Proof.
  intros Ha HF Hx. pose proof (doubled_gt (length xs)) as Hd.
  unfold EmplaceBack, Vector.Capacity, RawMemory.Capacity.
  cbn [vec size_ data_ capacity_ buffer_ GetAddress with_contents].
  rewrite Nat.add_0_r, Nat.ltb_irrefl. fold (doubled (length xs)).
  rewrite make_ok, alloc_events_doubled by auto. run.
  cbn [GetAddress buffer_].
  rewrite relocate_front_ok by (done || lia). run.
  rewrite construct_eq, Hx. run.
  replace (doubled (length xs) - length xs)
    with (S (doubled (length xs) - S (length xs))) by lia.
  rewrite place_slots. run.
  rewrite destroy_n_front by apply length_relocated_from. run.
  rewrite Nat.add_0_r, dtor_raw. run.
  unfold with_contents. cbn [capacity_ app].
  rewrite !app_nil_r.
  erewrite vec_eq; [done|done|..]; rewrite length_app; cbn [length]; lia.
Qed.

Lemma free_events_pos n : n <> 0 -> free_events (T:=T) n = [Dealloc []].
Proof. unfold free_events. by destruct n. Qed.

Lemma with_data_vec xs ys spare :
  length ys = length xs ->
  with_data (vec xs spare) (slots ys spare) = vec ys spare.
Proof. intros Hl. unfold with_data, with_contents, vec. cbn. by rewrite Hl. Qed.

Lemma EmplaceBack_full_ctor_throws xs args :
  alloc_fails (doubled (length xs)) = false ->
  Forall (fun x => relocation_throws x = false) xs ->
  init_value args = None ->
  EmplaceBack (vec xs 0) args
  = (Alloc (doubled (length xs)) :: relocation_events xs
       ++ init_event args :: (Destroy <$> xs) ++ [Dealloc []],
     Throws elem_failure (vec (relocated_from xs) 0)).
Proof.
  intros Ha HF Hx. pose proof (doubled_gt (length xs)) as Hd.
  unfold EmplaceBack. open_op.
  rewrite Nat.add_0_r, Nat.ltb_irrefl. fold (doubled (length xs)).
  rewrite make_ok, alloc_events_doubled by auto. run.
  cbn [GetAddress buffer_].
  rewrite relocate_front_ok by (done || lia). run.
  rewrite construct_eq, Hx. run.
  rewrite destroy_n_front by done. run.
  rewrite dtor_raw, free_events_pos by lia. run.
  rewrite with_data_vec by apply length_relocated_from. done.
Qed.

Lemma EmplaceBack_full_reloc_throws xs args :
  alloc_fails (doubled (length xs)) = false ->
  ~ Forall (fun x => relocation_throws x = false) xs ->
  exists l ys,
    EmplaceBack (vec xs 0) args = (l, Throws elem_failure (vec ys 0)) /\
    length ys = length xs /\ (relocates_by_move = false -> ys = xs).
Proof.
  intros Ha HF. pose proof (doubled_gt (length xs)) as Hd.
  unfold EmplaceBack. open_op.
  rewrite Nat.add_0_r, Nat.ltb_irrefl. fold (doubled (length xs)).
  rewrite make_ok, alloc_events_doubled by auto. run.
  cbn [GetAddress buffer_].
  destruct (relocate_front_throw xs 0 (doubled (length xs)))
    as (l & ys & -> & Hl & Hc); [lia|done|]. run.
  rewrite dtor_raw. run. eexists _, ys. split; [|done].
  by rewrite with_data_vec.
Qed.

Lemma EmplaceBack_full_bad_alloc xs args :
  alloc_fails (doubled (length xs)) = true ->
  EmplaceBack (vec xs 0) args = ([], Throws bad_alloc (vec xs 0)).
Proof.
  intros Ha. pose proof (doubled_gt (length xs)) as Hd.
  unfold EmplaceBack. open_op.
  rewrite Nat.add_0_r, Nat.ltb_irrefl. fold (doubled (length xs)).
  rewrite make_throw by (done || lia). run.
  unfold vec. by rewrite Nat.add_0_r.
Qed.

Lemma Reserve_noop v n : n <= Vector.Capacity v -> Reserve v n = ret v.
Proof.
  intros Hn. unfold Reserve.
  by replace (n <=? Vector.Capacity v) with true
    by (symmetry; by apply Nat.leb_le).
Qed.

Lemma Reserve_ok xs spare n :
  length xs + spare < n ->
  alloc_fails n = false ->
  Forall (fun x => relocation_throws x = false) xs ->
  Reserve (vec xs spare) n
  = (Alloc n :: relocation_events xs ++ (Destroy <$> relocated_from xs)
       ++ free_events (length xs + spare),
     Normal (vec xs (n - length xs))).
Proof.
  intros Hn Ha HF. unfold Reserve. open_op.
  replace (n <=? length xs + spare) with false
    by (symmetry; apply Nat.leb_gt; lia).
  rewrite make_ok by auto. run. cbn [GetAddress buffer_].
  rewrite relocate_front_ok by (done || lia). run.
  rewrite destroy_n_front by apply length_relocated_from. run.
  rewrite dtor_raw. run.
  unfold with_contents, alloc_events. cbn [capacity_ app].
  destruct n; [lia|]. cbn [Nat.eqb app]. rewrite ?app_nil_r.
  erewrite vec_eq; [done|done|..]; lia.
Qed.

Lemma Reserve_bad_alloc xs spare n :
  length xs + spare < n ->
  alloc_fails n = true ->
  Reserve (vec xs spare) n = ([], Throws bad_alloc (vec xs spare)).
Proof.
  intros Hn Ha. unfold Reserve. open_op.
  replace (n <=? length xs + spare) with false
    by (symmetry; apply Nat.leb_gt; lia).
  by rewrite make_throw by (done || lia).
Qed.

Lemma Reserve_reloc_throws xs spare n :
  length xs + spare < n ->
  alloc_fails n = false ->
  ~ Forall (fun x => relocation_throws x = false) xs ->
  exists l ys,
    Reserve (vec xs spare) n = (l, Throws elem_failure (vec ys spare)) /\
    length ys = length xs /\ (relocates_by_move = false -> ys = xs).
Proof.
  intros Hn Ha HF. unfold Reserve. open_op.
  replace (n <=? length xs + spare) with false
    by (symmetry; apply Nat.leb_gt; lia).
  rewrite make_ok by auto. run. cbn [GetAddress buffer_].
  destruct (relocate_front_throw xs spare n)
    as (l & ys & -> & Hl & Hc); [lia|done|]. run.
  rewrite dtor_raw. run. eexists _, ys. split; [|done].
  by rewrite with_data_vec.
Qed.

Lemma destroy_n_tail {St} xs spare n :
  n <= length xs ->
  destroy_n (St:=St) (slots xs spare) n (length xs - n)
  = (Destroy <$> drop n xs,
     Normal (slots (take n xs) (length xs - n + spare))).
Proof.
  intros Hn. unfold slots.
  pose proof (destroy_n_live (St:=St) (drop n xs) (Some <$> take n xs)
                (replicate spare None)) as E.
  rewrite length_fmap, length_take, length_drop in E.
  replace (n `min` length xs) with n in E by lia.
  rewrite app_assoc, <- fmap_app, take_drop in E. rewrite E.
  by rewrite replicate_add.
Qed.

Lemma value_construct_slots d xs spare k :
  k <= spare ->
  value_init = Some d ->
  uninitialized_value_construct_n (slots xs spare) (length xs) k
  = (replicate k ValueCtor,
     Normal (slots (xs ++ replicate k d) (spare - k))).
Proof.
  intros Hk Hd. unfold slots.
  replace spare with (k + (spare - k)) at 1 by lia.
  rewrite replicate_add, <- (length_fmap Some xs).
  rewrite (uninitialized_value_construct_n_ok d) by done.
  by rewrite fmap_app, fmap_replicate, <- app_assoc.
Qed.

Lemma normal_vec_eq {St} (l l' : list (event T)) buf c n ys spare :
  l = l' -> buf = slots ys spare -> c = length ys + spare ->
  n = length ys ->
  (l, Normal (S:=St)
        {| data_ := {| buffer_ := buf; capacity_ := c |}; size_ := n |})
  = (l', Normal (vec ys spare)).
Proof. by intros -> -> -> ->. Qed.

Lemma normal_vec_pair_eq {St R} (l l' : list (event T)) buf c n ys spare
    (r r' : R) :
  l = l' -> buf = slots ys spare -> c = length ys + spare ->
  n = length ys -> r = r' ->
  (l, Normal (S:=St)
        ({| data_ := {| buffer_ := buf; capacity_ := c |}; size_ := n |}, r))
  = (l', Normal (vec ys spare, r')).
Proof. by intros -> -> -> -> ->. Qed.

Lemma dtor_normal {St} (m : RawMemory.t T) :
  exists l, RawMemory.dtor (St:=St) m = (l, Normal tt).
Proof.
  unfold RawMemory.dtor, Deallocate. destruct (buffer_ m); eexists; done.
Qed.

Lemma Resize_shrink xs spare n :
  n < length xs ->
  Resize (vec xs spare) n
  = (Destroy <$> drop n xs,
     Normal (vec (take n xs) (length xs - n + spare))).
Proof.
  intros Hn. unfold Resize. open_op.
  replace (n <? length xs) with true by (symmetry; by apply Nat.ltb_lt).
  rewrite destroy_n_tail by lia. run.
  unfold with_contents. cbn [capacity_]. rewrite ?app_nil_r.
  erewrite vec_eq; [done|done|..]; rewrite length_take; lia.
Qed.

Lemma Resize_within_ok d xs spare n :
  length xs <= n <= length xs + spare ->
  value_init = Some d ->
  Resize (vec xs spare) n
  = (replicate (n - length xs) ValueCtor,
     Normal (vec (xs ++ replicate (n - length xs) d)
               (length xs + spare - n))).
Proof.
  intros Hn Hd. unfold Resize. open_op.
  replace (n <? length xs) with false by (symmetry; apply Nat.ltb_ge; lia).
  replace (n <=? length xs + spare) with true
    by (symmetry; apply Nat.leb_le; lia).
  rewrite (value_construct_slots d) by (done || lia). run.
  unfold with_contents. cbn [capacity_].
  apply normal_vec_eq; rewrite ?app_nil_r, ?length_app, ?length_replicate;
    try done; try lia.
  f_equal; lia.
Qed.

Lemma Resize_same xs spare :
  Resize (vec xs spare) (length xs) = ret (vec xs spare).
Proof.
  unfold Resize. open_op.
  rewrite Nat.ltb_irrefl.
  replace (length xs <=? length xs + spare) with true
    by (symmetry; apply Nat.leb_le; lia).
  rewrite Nat.sub_diag. done.
Qed.

Lemma Resize_within_throw xs spare n :
  length xs < n <= length xs + spare ->
  value_init = None ->
  Resize (vec xs spare) n = ([ValueCtor], Throws elem_failure (vec xs spare)).
Proof.
  intros Hn Hd. unfold Resize. open_op.
  replace (n <? length xs) with false by (symmetry; apply Nat.ltb_ge; lia).
  replace (n <=? length xs + spare) with true
    by (symmetry; apply Nat.leb_le; lia).
  destruct (n - length xs) as [|k] eqn:Hk; [lia|].
  rewrite uninitialized_value_construct_n_throw by done. run.
  by rewrite with_data_vec.
Qed.

Lemma Resize_grow_ok d xs spare n :
  length xs + spare < n ->
  alloc_fails (growth_policy n (length xs + spare)) = false ->
  Forall (fun x => relocation_throws x = false) xs ->
  value_init = Some d ->
  Resize (vec xs spare) n
  = (Alloc (growth_policy n (length xs + spare)) :: relocation_events xs
       ++ replicate (n - length xs) ValueCtor
       ++ (Destroy <$> relocated_from xs) ++ free_events (length xs + spare),
     Normal (vec (xs ++ replicate (n - length xs) d)
               (growth_policy n (length xs + spare) - n))).
Proof.
  intros Hn Ha HF Hd. unfold Resize. open_op.
  replace (n <? length xs) with false by (symmetry; apply Nat.ltb_ge; lia).
  replace (n <=? length xs + spare) with false
    by (symmetry; apply Nat.leb_gt; lia).
  fold (growth_policy n (length xs + spare)).
  assert (Hg : n <= growth_policy n (length xs + spare))
    by (unfold growth_policy; lia).
  rewrite make_ok by auto. run. cbn [GetAddress buffer_].
  rewrite relocate_front_ok by (done || lia). run.
  rewrite (value_construct_slots d) by (done || lia). run.
  rewrite destroy_n_front by apply length_relocated_from. run.
  rewrite dtor_raw. run.
  unfold with_contents, alloc_events. cbn [capacity_ app].
  destruct (growth_policy n (length xs + spare)) as [|g] eqn:Eg; [lia|].
  cbn [Nat.eqb app].
  apply normal_vec_eq; rewrite ?app_nil_r, ?length_app, ?length_replicate;
    try done; try lia.
  f_equal; lia.
Qed.

Lemma Resize_grow_throw xs spare n :
  length xs + spare < n ->
  (alloc_fails (growth_policy n (length xs + spare)) = true \/
   ~ Forall (fun x => relocation_throws x = false) xs \/
   value_init = None) ->
  exists l e s, Resize (vec xs spare) n = (l, Throws e s).
Proof.
  intros Hn Hc. unfold Resize. open_op.
  replace (n <? length xs) with false by (symmetry; apply Nat.ltb_ge; lia).
  replace (n <=? length xs + spare) with false
    by (symmetry; apply Nat.leb_gt; lia).
  fold (growth_policy n (length xs + spare)).
  assert (Hg : n <= growth_policy n (length xs + spare))
    by (unfold growth_policy; lia).
  destruct (alloc_fails (growth_policy n (length xs + spare))) eqn:Ha.
  { rewrite make_throw by (done || lia). run. eauto. }
  rewrite make_ok by auto. run. cbn [GetAddress buffer_].
  destruct (decide (Forall (fun x => relocation_throws x = false) xs))
    as [HF|HF].
  - destruct Hc as [?|[?|Hd]]; [done..|].
    rewrite relocate_front_ok by (done || lia). run.
    destruct (growth_policy n (length xs + spare) - length xs)
      as [|k] eqn:Hk; [lia|].
    destruct (n - length xs) as [|j] eqn:Hj; [lia|].
    rewrite uninitialized_value_construct_n_throw by done. run.
    destruct (dtor_normal (St:=Vector.t T)
                (with_contents
                   {| buffer_ :=
                        replicate (growth_policy n (length xs + spare)) None;
                      capacity_ := growth_policy n (length xs + spare) |}
                   (slots xs (S k)))) as [l' ->].
    run. eauto.
  - destruct (relocate_front_throw xs spare
                (growth_policy n (length xs + spare)))
      as (l & ys & -> & Hl & Hy); [lia|done|]. run.
    rewrite dtor_raw. run. eauto.
Qed.

Lemma PopBack_empty v : size_ v = 0 -> PopBack v = ret v.
Proof. intros Hs. unfold PopBack. by rewrite Hs. Qed.

Lemma PopBack_snoc ys x spare :
  PopBack (vec (ys ++ [x]) spare)
  = ([Destroy x], Normal (vec ys (S spare))).
Proof.
  unfold PopBack. open_op. rewrite length_app. cbn [length].
  replace (length ys + 1 =? 0) with false by (symmetry; apply Nat.eqb_neq; lia).
  unfold destroy_at, slots. rewrite fmap_app, <- app_assoc.
  cbn [fmap list_fmap app].
  replace (length ys + 1 - 1) with (length (Some <$> ys))
    by (rewrite length_fmap; lia).
  rewrite lookup_mid, insert_mid. run.
  unfold with_contents. cbn [capacity_].
  apply normal_vec_eq; vec_side.
Qed.

Lemma Erase_loop_ok (data : RawMemory.t T) xs : forall pre y post,
  length pre + length xs + 1 <= capacity_ data ->
  Forall (fun x => move_assign_throws x = false) xs ->
  exists z,
    Erase_loop data (pre ++ Some y :: (Some <$> xs) ++ post) (length pre)
      (length xs)
    = (MoveAssign <$> xs,
       Normal (pre ++ (Some <$> xs) ++ Some z :: post)).
Proof.
  unfold RawMemory.Capacity.
  induction xs as [|x xs IH]; intros pre y post Hc HF.
  { by exists y. }
  inversion_clear HF as [|? ? Hx HF']. cbn [length] in Hc.
  cbn [Erase_loop length fmap list_fmap app]. unfold RawMemory.Capacity.
  replace (length pre <? capacity_ data) with true
    by (symmetry; apply Nat.ltb_lt; lia).
  replace (length pre + 1 <? capacity_ data) with true
    by (symmetry; apply Nat.ltb_lt; lia).
  cbn [andb]. rewrite Nat.add_1_r.
  rewrite move_assign_slot_left by done. run.
  rewrite (snoc_shift pre), <- (length_snoc pre (Some x)).
  destruct (IH (pre ++ [Some x]) (moved_from x) post) as [z ->];
    [rewrite length_snoc; lia | done |].
  run. exists z. by rewrite <- app_assoc.
Qed.

Lemma Erase_loop_throw (data : RawMemory.t T) xs : forall pre y post,
  length pre + length xs + 1 <= capacity_ data ->
  ~ Forall (fun x => move_assign_throws x = false) xs ->
  exists l s,
    Erase_loop data (pre ++ Some y :: (Some <$> xs) ++ post) (length pre)
      (length xs)
    = (l, Throws elem_failure s).
Proof.
  induction xs as [|x xs IH]; intros pre y post Hc HF.
  { destruct HF. constructor. }
  cbn [length] in Hc.
  cbn [Erase_loop length fmap list_fmap app]. unfold RawMemory.Capacity.
  replace (length pre <? capacity_ data) with true
    by (symmetry; apply Nat.ltb_lt; lia).
  replace (length pre + 1 <? capacity_ data) with true
    by (symmetry; apply Nat.ltb_lt; lia).
  cbn [andb]. rewrite Nat.add_1_r.
  destruct (move_assign_throws x) eqn:Hx.
  - rewrite (move_assign_slot_throw _ _ _ y x);
      [run; eauto | apply lookup_mid | | done].
    rewrite (snoc_shift pre), <- (length_snoc pre (Some y)).
    apply lookup_mid.
  - rewrite move_assign_slot_left by done. run.
    rewrite (snoc_shift pre), <- (length_snoc pre (Some x)).
    destruct (IH (pre ++ [Some x]) (moved_from x) post) as (l & s & ->);
      [rewrite length_snoc; lia | | run; eauto].
    intros HF'. apply HF. by constructor.
Qed.

Lemma Erase_out_of_range v pos :
  (pos < begin v \/ end_ v <= pos)%Z ->
  Erase v pos = ([], Throws out_of_range v).
Proof.
  intros Hp. unfold Erase.
  replace ((pos <? begin v)%Z || (pos >=? end_ v)%Z) with true; [done|].
  symmetry. apply orb_true_iff. rewrite Z.ltb_lt, Z.geb_le. lia.
Qed.

Lemma Erase_ok pre y suf spare :
  Forall (fun x => move_assign_throws x = false) suf ->
  exists z,
    Erase (vec (pre ++ y :: suf) spare) (Z.of_nat (length pre))
    = ((MoveAssign <$> suf) ++ [Destroy z],
       Normal (vec (pre ++ suf) (S spare), Z.of_nat (length pre))).
Proof.
  intros HF. unfold Erase, begin, end_. open_op.
  rewrite length_app. cbn [length].
  replace ((Z.of_nat (length pre) <? 0)%Z
           || (Z.of_nat (length pre)
               >=? Z.of_nat (length pre + S (length suf)))%Z) with false.
  2:{ symmetry. apply orb_false_iff. rewrite Z.ltb_ge, Z.geb_leb, Z.leb_gt.
      lia. }
  rewrite Z.sub_0_r, Nat2Z.id.
  replace (length pre + S (length suf) - (length pre + 1))
    with (length suf) by lia.
  unfold slots. rewrite fmap_app, <- app_assoc. cbn [fmap list_fmap app].
  destruct (Erase_loop_ok
              {| buffer_ :=
                   (Some <$> pre) ++ Some y :: (Some <$> suf)
                     ++ replicate spare None;
                 capacity_ := length pre + S (length suf) + spare |}
              suf (Some <$> pre) y (replicate spare None)) as [z E];
    [cbn [capacity_]; rewrite length_fmap; lia | done |].
  rewrite length_fmap in E. rewrite E.
  run. exists z.
  unfold destroy_at. rewrite (app_assoc (Some <$> pre)).
  replace (length pre + S (length suf) - 1)
    with (length ((Some <$> pre) ++ (Some <$> suf)))
    by (rewrite length_app, !length_fmap; lia).
  rewrite lookup_mid, insert_mid. run.
  unfold with_contents. cbn [capacity_].
  apply normal_vec_pair_eq; vec_side.
  unfold slots. by rewrite fmap_app.
Qed.

Lemma Erase_throw pre y suf spare :
  ~ Forall (fun x => move_assign_throws x = false) suf ->
  exists l s,
    Erase (vec (pre ++ y :: suf) spare) (Z.of_nat (length pre))
    = (l, Throws elem_failure s).
Proof.
  intros HF. unfold Erase, begin, end_. open_op.
  rewrite length_app. cbn [length].
  replace ((Z.of_nat (length pre) <? 0)%Z
           || (Z.of_nat (length pre)
               >=? Z.of_nat (length pre + S (length suf)))%Z) with false.
  2:{ symmetry. apply orb_false_iff. rewrite Z.ltb_ge, Z.geb_leb, Z.leb_gt.
      lia. }
  rewrite Z.sub_0_r, Nat2Z.id.
  replace (length pre + S (length suf) - (length pre + 1))
    with (length suf) by lia.
  unfold slots. rewrite fmap_app, <- app_assoc. cbn [fmap list_fmap app].
  destruct (Erase_loop_throw
              {| buffer_ :=
                   (Some <$> pre) ++ Some y :: (Some <$> suf)
                     ++ replicate spare None;
                 capacity_ := length pre + S (length suf) + spare |}
              suf (Some <$> pre) y (replicate spare None)) as (l & s & E);
    [cbn [capacity_]; rewrite length_fmap; lia | done |].
  rewrite length_fmap in E. rewrite E.
  run. eauto.
Qed.

Lemma Emplace_out_of_range v pos args :
  (pos < begin v \/ end_ v < pos)%Z ->
  Emplace v pos args = ([], Throws out_of_range v).
Proof.
  intros Hp. unfold Emplace.
  replace ((pos <? begin v)%Z || (pos >? end_ v)%Z) with true; [done|].
  symmetry. apply orb_true_iff. rewrite Z.ltb_lt, Z.gtb_lt. lia.
Qed.

Lemma Emplace_spare_end xs spare args :
  Emplace (vec xs (S spare)) (Z.of_nat (length xs)) args
  = ([init_event args],
     match init_value args with
     | Some x => Normal (vec (xs ++ [x]) spare, Z.of_nat (length xs))
     | None => Throws elem_failure (vec xs (S spare))
     end).
Proof.
  unfold Emplace, begin, end_. open_op.
  replace ((Z.of_nat (length xs) <? 0)%Z
           || (Z.of_nat (length xs) >? Z.of_nat (length xs))%Z) with false.
  2:{ symmetry. apply orb_false_iff. rewrite Z.ltb_ge, Z.gtb_ltb, Z.ltb_ge.
      lia. }
  rewrite Z.sub_0_r, Nat2Z.id.
  replace (length xs =? length xs + S spare) with false
    by (symmetry; apply Nat.eqb_neq; lia).
  rewrite Nat.eqb_refl, construct_eq.
  destruct (init_value args) as [x|]; run; [|done].
  rewrite place_slots. run.
  unfold with_contents. cbn [capacity_].
  apply normal_vec_pair_eq; vec_side.
Qed.

Lemma Emplace_spare_mid_ok pre mid last spare args x :
  init_value args = Some x ->
  move_throws last = false ->
  Forall (fun y => move_assign_throws y = false) mid ->
  move_assign_throws x = false ->
  Emplace (vec (pre ++ mid ++ [last]) (S spare)) (Z.of_nat (length pre)) args
  = (init_event args :: MoveCtor last :: (MoveAssign <$> reverse mid)
       ++ [MoveAssign x; Destroy (moved_from x)],
     Normal (vec (pre ++ x :: mid ++ [last]) spare, Z.of_nat (length pre))).
Proof.
  intros Hx Hlast Hmid Hax. unfold Emplace, begin, end_. open_op.
  rewrite !length_app. cbn [length].
  replace ((Z.of_nat (length pre) <? 0)%Z
           || (Z.of_nat (length pre)
               >? Z.of_nat (length pre + (length mid + 1)))%Z) with false.
  2:{ symmetry. apply orb_false_iff. rewrite Z.ltb_ge, Z.gtb_ltb, Z.ltb_ge.
      lia. }
  rewrite Z.sub_0_r, Nat2Z.id.
  replace (length pre + (length mid + 1)
           =? length pre + (length mid + 1) + S spare) with false
    by (symmetry; apply Nat.eqb_neq; lia).
  replace (length pre =? length pre + (length mid + 1)) with false
    by (symmetry; apply Nat.eqb_neq; lia).
  rewrite construct_eq, Hx. run.
  unfold at_, RawMemory.Capacity. cbn [capacity_ buffer_].
  replace (length pre + (length mid + 1) - 1
           <? length pre + (length mid + 1) + S spare) with true
    by (symmetry; apply Nat.ltb_lt; lia).
  set (B := Some <$> pre ++ mid).
  assert (HB : length B = length pre + length mid)
    by (unfold B; by rewrite length_fmap, length_app).
  replace (slots (pre ++ mid ++ [last]) (S spare))
    with (B ++ Some last :: None :: replicate spare None).
  2:{ unfold slots, B. rewrite !fmap_app, <- !app_assoc. done. }
  rewrite read_mid by lia. run.
  unfold construct_move. rewrite Hlast. run.
  rewrite (snoc_shift B), place_mid by (rewrite length_snoc; lia). run.
  rewrite <- snoc_shift, store_mid by lia. run.
  unfold move_backward.
  replace (length pre + (length mid + 1) - 1 - length pre)
    with (length mid) by lia.
  unfold B at 1. rewrite fmap_app, <- app_assoc.
  pose proof (move_backward_loop_ok mid (Some <$> pre) (moved_from last)
                (Some last :: replicate spare None) Hmid) as E.
  rewrite length_fmap in E.
  replace (length pre + (length mid + 1) - 1)
    with (length pre + length mid) by lia.
  replace (length pre + (length mid + 1))
    with (length pre + length mid + 1) by lia.
  rewrite E. run.
  replace (length pre <? length pre + length mid + 1 + S spare) with true
    by (symmetry; apply Nat.ltb_lt; lia).
  unfold assign_move. rewrite Hax. run.
  rewrite store_mid by by rewrite length_fmap. run.
  unfold with_contents. cbn [capacity_ app].
  apply normal_vec_pair_eq; vec_side.
  - by rewrite <- app_assoc.
  - unfold slots. list_norm.
Qed.

Lemma Emplace_spare_mid_throw pre mid last spare args :
  init_value args = None \/ move_throws last = true \/
  ~ Forall (fun y => move_assign_throws y = false) mid \/
  (exists x, init_value args = Some x /\ move_assign_throws x = true) ->
  forall l r,
    Emplace (vec (pre ++ mid ++ [last]) (S spare)) (Z.of_nat (length pre))
      args <> (l, Normal r).
Proof.
  intros Hc l r. unfold Emplace, begin, end_. open_op.
  rewrite !length_app. cbn [length].
  replace ((Z.of_nat (length pre) <? 0)%Z
           || (Z.of_nat (length pre)
               >? Z.of_nat (length pre + (length mid + 1)))%Z) with false.
  2:{ symmetry. apply orb_false_iff. rewrite Z.ltb_ge, Z.gtb_ltb, Z.ltb_ge.
      lia. }
  rewrite Z.sub_0_r, Nat2Z.id.
  replace (length pre + (length mid + 1)
           =? length pre + (length mid + 1) + S spare) with false
    by (symmetry; apply Nat.eqb_neq; lia).
  replace (length pre =? length pre + (length mid + 1)) with false
    by (symmetry; apply Nat.eqb_neq; lia).
  rewrite construct_eq.
  destruct (init_value args) as [x|] eqn:Hx; run; [|done].
  unfold at_, RawMemory.Capacity. cbn [capacity_ buffer_].
  replace (length pre + (length mid + 1) - 1
           <? length pre + (length mid + 1) + S spare) with true
    by (symmetry; apply Nat.ltb_lt; lia).
  set (B := Some <$> pre ++ mid).
  assert (HB : length B = length pre + length mid)
    by (unfold B; by rewrite length_fmap, length_app).
  replace (slots (pre ++ mid ++ [last]) (S spare))
    with (B ++ Some last :: None :: replicate spare None).
  2:{ unfold slots, B. rewrite !fmap_app, <- !app_assoc. done. }
  rewrite read_mid by lia. run.
  unfold construct_move.
  destruct (move_throws last) eqn:Hlast; run; [done|].
  rewrite (snoc_shift B), place_mid by (rewrite length_snoc; lia). run.
  rewrite <- snoc_shift, store_mid by lia. run.
  unfold move_backward.
  replace (length pre + (length mid + 1) - 1 - length pre)
    with (length mid) by lia.
  unfold B at 1. rewrite fmap_app, <- app_assoc.
  replace (length pre + (length mid + 1) - 1)
    with (length pre + length mid) by lia.
  replace (length pre + (length mid + 1))
    with (length pre + length mid + 1) by lia.
  destruct (decide (Forall (fun y => move_assign_throws y = false) mid))
    as [Hmid|Hmid].
  - pose proof (move_backward_loop_ok mid (Some <$> pre) (moved_from last)
                  (Some last :: replicate spare None) Hmid) as E.
    rewrite length_fmap in E. rewrite E. run.
    replace (length pre <? length pre + length mid + 1 + S spare) with true
      by (symmetry; apply Nat.ltb_lt; lia).
    unfold assign_move.
    destruct (move_assign_throws x) eqn:Hax; run.
    + destruct (destroy_at _ _) as [? [?|??|]]; run; done.
    + destruct Hc as [?|[?|[?|(x' & ? & ?)]]]; congruence.
  - destruct (move_backward_loop_throw mid (Some <$> pre) (moved_from last)
                (Some last :: replicate spare None) Hmid) as (l' & s & E).
    rewrite length_fmap in E. rewrite E. run.
    destruct (destroy_at _ _) as [? [?|??|]]; run; done.
Qed.


Lemma relocated_from_app xs ys :
  relocated_from (xs ++ ys) = relocated_from xs ++ relocated_from ys.
Proof.
  unfold relocated_from. destruct relocates_by_move; [|done].
  by rewrite fmap_app.
Qed.

Lemma relocation_events_app xs ys :
  relocation_events (xs ++ ys) = relocation_events xs ++ relocation_events ys.
Proof.
  unfold relocation_events. destruct relocates_by_move; by rewrite fmap_app.
Qed.

Lemma relocate_at_ok xs spre spost dpre dpost first d_first n :
  first = length spre -> d_first = length dpre -> n = length xs ->
  Forall (fun x => relocation_throws x = false) xs ->
  (if is_nothrow_move_constructible || negb is_copy_constructible
   then uninitialized_move_n (spre ++ (Some <$> xs) ++ spost) first n
          (dpre ++ replicate n None ++ dpost) d_first
   else uninitialized_copy_n (spre ++ (Some <$> xs) ++ spost) first n
          (dpre ++ replicate n None ++ dpost) d_first)
  = (relocation_events xs,
     Normal (spre ++ (Some <$> relocated_from xs) ++ spost,
             dpre ++ (Some <$> xs) ++ dpost)).
Proof. intros -> -> ->. apply relocate_ok. Qed.

Lemma relocate_at_throw xs spre spost dpre dpost first d_first n :
  first = length spre -> d_first = length dpre -> n = length xs ->
  ~ Forall (fun x => relocation_throws x = false) xs ->
  exists l ys,
    (if is_nothrow_move_constructible || negb is_copy_constructible
     then uninitialized_move_n (spre ++ (Some <$> xs) ++ spost) first n
            (dpre ++ replicate n None ++ dpost) d_first
     else uninitialized_copy_n (spre ++ (Some <$> xs) ++ spost) first n
            (dpre ++ replicate n None ++ dpost) d_first)
    = (l, Throws elem_failure
            (spre ++ (Some <$> ys) ++ spost,
             dpre ++ replicate n None ++ dpost)) /\
    length ys = length xs /\
    (relocates_by_move = false -> ys = xs).
Proof. intros -> -> ->. apply relocate_throw. Qed.

Lemma relocate_prefix_ok xs spost n :
  length xs <= n ->
  Forall (fun x => relocation_throws x = false) xs ->
  (if is_nothrow_move_constructible || negb is_copy_constructible
   then uninitialized_move_n ((Some <$> xs) ++ spost) 0 (length xs)
          (replicate n None) 0
   else uninitialized_copy_n ((Some <$> xs) ++ spost) 0 (length xs)
          (replicate n None) 0)
  = (relocation_events xs,
     Normal ((Some <$> relocated_from xs) ++ spost,
             slots xs (n - length xs))).
Proof.
  intros Hn HF.
  replace (replicate n None)
    with ([] ++ replicate (length xs) (@None T)
             ++ replicate (n - length xs) None).
  - apply (relocate_ok xs [] spost [] (replicate (n - length xs) None) HF).
  - cbn [app]. rewrite <- replicate_add. f_equal. lia.
Qed.

Lemma relocate_prefix_throw xs spost n :
  length xs <= n ->
  ~ Forall (fun x => relocation_throws x = false) xs ->
  exists l ys,
    (if is_nothrow_move_constructible || negb is_copy_constructible
     then uninitialized_move_n ((Some <$> xs) ++ spost) 0 (length xs)
            (replicate n None) 0
     else uninitialized_copy_n ((Some <$> xs) ++ spost) 0 (length xs)
            (replicate n None) 0)
    = (l, Throws elem_failure ((Some <$> ys) ++ spost, replicate n None)) /\
    length ys = length xs /\
    (relocates_by_move = false -> ys = xs).
Proof.
  intros Hn HF.
  destruct (relocate_throw xs [] spost []
              (replicate (n - length xs) None) HF) as (l & ys & E & Hl & Hc).
  exists l, ys. split; [|done]. cbn [app length] in E.
  rewrite <- replicate_add in E.
  by replace (length xs + (n - length xs)) with n in E by lia.
Qed.

Lemma Emplace_full_ok pre suf args x :
  alloc_fails (doubled (length (pre ++ suf))) = false ->
  Forall (fun x => relocation_throws x = false) (pre ++ suf) ->
  init_value args = Some x ->
  Emplace (vec (pre ++ suf) 0) (Z.of_nat (length pre)) args
  = (Alloc (doubled (length (pre ++ suf))) :: relocation_events pre
       ++ init_event args :: relocation_events suf
       ++ (Destroy <$> relocated_from (pre ++ suf))
       ++ free_events (length (pre ++ suf)),
     Normal (vec (pre ++ x :: suf)
               (doubled (length (pre ++ suf)) - S (length (pre ++ suf))),
             Z.of_nat (length pre))).
Proof.
  intros Ha [HFp HFs]%Forall_app Hx.
  pose proof (doubled_gt (length (pre ++ suf))) as Hd.
  unfold Emplace, begin, end_. open_op.
  set (d := doubled (length (pre ++ suf))) in *.
  rewrite length_app in Hd |- *.
  replace ((Z.of_nat (length pre) <? 0)%Z
           || (Z.of_nat (length pre)
               >? Z.of_nat (length pre + length suf))%Z) with false.
  2:{ symmetry. apply orb_false_iff. rewrite Z.ltb_ge, Z.gtb_ltb, Z.ltb_ge.
      lia. }
  rewrite Z.sub_0_r, Nat2Z.id, Nat.add_0_r, Nat.eqb_refl.
  rewrite <- length_app. fold (doubled (length (pre ++ suf))). fold d.
  rewrite length_app.
  replace (alloc_events d) with [Alloc d : event T] in *.
  2:{ unfold alloc_events. destruct d; [lia|done]. }
  rewrite make_ok by auto.
  replace (alloc_events d) with [Alloc d : event T].
  2:{ unfold alloc_events. destruct d; [lia|done]. }
  run. cbn [GetAddress buffer_].
  unfold slots at 1 2. rewrite fmap_app, <- app_assoc.
  rewrite relocate_prefix_ok by (done || lia). run.
  rewrite construct_eq, Hx. run.
  replace (d - length pre) with (S (d - S (length pre))) by lia.
  unfold slots at 1.
  cbn [replicate]. rewrite place_mid by by rewrite length_fmap. run.
  replace (length pre + length suf - length pre) with (length suf) by lia.
  replace (d - S (length pre))
    with (length suf + (d - S (length pre + length suf))) by lia.
  rewrite replicate_add, (snoc_shift (Some <$> pre)).
  rewrite (relocate_at_ok suf)
    by (rewrite ?length_snoc, ?length_fmap, ?length_relocated_from;
        done || lia).
  run.
  replace ((Some <$> relocated_from pre) ++ (Some <$> relocated_from suf)
             ++ replicate 0 None)
    with (slots (relocated_from (pre ++ suf)) 0)
    by (unfold slots; rewrite relocated_from_app; list_norm).
  rewrite destroy_n_front
    by (rewrite length_relocated_from, length_app; lia).
  run. rewrite dtor_raw. run.
  unfold with_contents. cbn [capacity_ app].
  apply normal_vec_pair_eq; vec_side.
  - by rewrite Nat.add_0_r.
  - unfold slots. list_norm.
Qed.

Lemma Emplace_full_throw pre suf args :
  alloc_fails (doubled (length (pre ++ suf))) = true \/
  ~ Forall (fun x => relocation_throws x = false) (pre ++ suf) \/
  init_value args = None ->
  forall l r,
    Emplace (vec (pre ++ suf) 0) (Z.of_nat (length pre)) args
    <> (l, Normal r).
Proof.
  intros Hc l r.
  pose proof (doubled_gt (length (pre ++ suf))) as Hd.
  unfold Emplace, begin, end_. open_op.
  set (d := doubled (length (pre ++ suf))) in *.
  rewrite length_app in Hd |- *.
  replace ((Z.of_nat (length pre) <? 0)%Z
           || (Z.of_nat (length pre)
               >? Z.of_nat (length pre + length suf))%Z) with false.
  2:{ symmetry. apply orb_false_iff. rewrite Z.ltb_ge, Z.gtb_ltb, Z.ltb_ge.
      lia. }
  rewrite Z.sub_0_r, Nat2Z.id, Nat.add_0_r, Nat.eqb_refl.
  rewrite <- length_app. fold (doubled (length (pre ++ suf))). fold d.
  rewrite length_app.
  destruct (alloc_fails d) eqn:Ha.
  { rewrite make_throw by (done || lia). by run. }
  rewrite make_ok by auto. run. cbn [GetAddress buffer_].
  unfold slots at 1 2. rewrite fmap_app, <- app_assoc.
  destruct (decide (Forall (fun x => relocation_throws x = false) pre))
    as [HFp|HFp].
  2:{ destruct (relocate_prefix_throw pre
                  ((Some <$> suf) ++ replicate 0 None) d)
        as (l' & ys & -> & _); [lia|done|].
      run. rewrite dtor_raw. by run. }
  rewrite relocate_prefix_ok by (done || lia). run.
  rewrite construct_eq.
  destruct (init_value args) as [x|] eqn:Hx; run.
  2:{ rewrite destroy_n_front by done. run. rewrite dtor_raw. by run. }
  replace (d - length pre) with (S (d - S (length pre))) by lia.
  unfold slots at 1.
  cbn [replicate]. rewrite place_mid by by rewrite length_fmap. run.
  replace (length pre + length suf - length pre) with (length suf) by lia.
  replace (d - S (length pre))
    with (length suf + (d - S (length pre + length suf))) by lia.
  rewrite replicate_add, (snoc_shift (Some <$> pre)).
  destruct (decide (Forall (fun x => relocation_throws x = false) suf))
    as [HFs|HFs].
  { destruct Hc as [?|[HF|?]]; [done| |done].
    destruct HF. by apply Forall_app. }
  destruct (relocate_at_throw suf (Some <$> relocated_from pre)
              [] ((Some <$> pre) ++ [Some x])
              (replicate (d - S (length pre + length suf)) None)
              (length pre) (length pre + 1) (length suf))
    as (l' & ys & -> & _);
    [by rewrite ?length_fmap, ?length_relocated_from
    |rewrite length_snoc, length_fmap; lia|done|done|].
  run. rewrite <- snoc_shift.
  rewrite destroy_at_mid by by rewrite length_fmap. run.
  replace ((Some <$> pre) ++ None :: replicate (length suf) None
             ++ replicate (d - S (length pre + length suf)) None)
    with (slots pre (d - length pre)).
  2:{ unfold slots. f_equal.
      replace (d - length pre)
        with (S (length suf + (d - S (length pre + length suf)))) by lia.
      cbn [replicate]. by rewrite replicate_add. }
  rewrite destroy_n_front by done. run. rewrite dtor_raw. by run.
Qed.


(** *** What a normal return tells *)

Lemma EmplaceBack_normal xs spare args l v' i :
  EmplaceBack (vec xs spare) args = (l, Normal (v', i)) ->
  exists x,
    init_value args = Some x /\ i = length xs /\
    v' = vec (xs ++ [x])
           (if spare =? 0 then doubled (length xs) - S (length xs)
            else spare - 1) /\
    (spare = 0 ->
     l = Alloc (doubled (length xs)) :: relocation_events xs
           ++ init_event args :: (Destroy <$> relocated_from xs)
           ++ free_events (length xs)).
Proof.
  destruct spare as [|spare].
  - destruct (alloc_fails (doubled (length xs))) eqn:Ha.
    { by rewrite EmplaceBack_full_bad_alloc. }
    destruct (decide (Forall (fun x => relocation_throws x = false) xs))
      as [HF|HF].
    2:{ destruct (EmplaceBack_full_reloc_throws xs args Ha HF)
          as (l' & ys & -> & _). done. }
    destruct (init_value args) as [x|] eqn:Hx.
    2:{ by rewrite EmplaceBack_full_ctor_throws. }
    rewrite (EmplaceBack_full_ok xs args x) by done.
    intros [= <- <- <-]. by exists x.
  - rewrite EmplaceBack_spare.
    destruct (init_value args) as [x|] eqn:Hx; [|done].
    intros [= <- <- <-]. exists x. cbn [Nat.eqb].
    repeat split; try done. f_equal. lia.
Qed.

Lemma EmplaceBack_returns xs spare args x :
  init_value args = Some x ->
  spare <> 0 \/
    (alloc_fails (doubled (length xs)) = false /\
     Forall (fun x => relocation_throws x = false) xs) ->
  exists l v',
    EmplaceBack (vec xs spare) args = (l, Normal (v', length xs)).
Proof.
  intros Hx Hc. destruct spare as [|spare].
  - destruct Hc as [?|[Ha HF]]; [done|].
    rewrite (EmplaceBack_full_ok xs args x) by done. eauto.
  - rewrite EmplaceBack_spare, Hx. eauto.
Qed.

Lemma PushBack_normal v value l v' :
  PushBack v value = (l, Normal v') ->
  exists i, EmplaceBack v (from_copy value) = (l, Normal (v', i)).
Proof.
  unfold PushBack. destruct (EmplaceBack v (from_copy value))
    as [l' [[v'' i]|e s|]]; run; try done.
  rewrite app_nil_r. intros [= <- <-]. eauto.
Qed.

Lemma PushBack_move_normal v value l v' :
  PushBack_move v value = (l, Normal v') ->
  exists i, EmplaceBack v (from_move value) = (l, Normal (v', i)).
Proof.
  unfold PushBack_move. destruct (EmplaceBack v (from_move value))
    as [l' [[v'' i]|e s|]]; run; try done.
  rewrite app_nil_r. intros [= <- <-]. eauto.
Qed.

Lemma Reserve_normal xs spare n l v' :
  length xs + spare < n ->
  Reserve (vec xs spare) n = (l, Normal v') ->
  v' = vec xs (n - length xs) /\
  l = Alloc n :: relocation_events xs ++ (Destroy <$> relocated_from xs)
        ++ free_events (length xs + spare).
Proof.
  intros Hn. destruct (alloc_fails n) eqn:Ha.
  { by rewrite Reserve_bad_alloc. }
  destruct (decide (Forall (fun x => relocation_throws x = false) xs))
    as [HF|HF].
  2:{ destruct (Reserve_reloc_throws xs spare n Hn Ha HF)
        as (l' & ys & -> & _). done. }
  rewrite Reserve_ok by done. by intros [= <- <-].
Qed.

Lemma Resize_normal xs spare n l v' :
  Resize (vec xs spare) n = (l, Normal v') ->
  exists ys,
    length ys = n - length xs /\
    Forall (fun y => value_init = Some y) ys /\
    v' = vec (take n xs ++ ys)
           (if length xs + spare <? n
            then growth_policy n (length xs + spare) - n
            else length xs + spare - n) /\
    (length xs + spare < n ->
     l = Alloc (growth_policy n (length xs + spare)) :: relocation_events xs
           ++ replicate (n - length xs) ValueCtor
           ++ (Destroy <$> relocated_from xs)
           ++ free_events (length xs + spare)).
Proof.
  destruct (decide (n < length xs)) as [Hlt|Hge].
  { rewrite Resize_shrink by done. intros [= <- <-]. exists [].
    replace (length xs + spare <? n) with false
      by (symmetry; apply Nat.ltb_ge; lia).
    rewrite app_nil_r. repeat split; [cbn; lia|constructor| |lia].
    f_equal. lia. }
  destruct (decide (n = length xs)) as [->|Hne].
  { rewrite Resize_same. intros [= <- <-]. exists [].
    replace (length xs + spare <? length xs) with false
      by (symmetry; apply Nat.ltb_ge; lia).
    rewrite app_nil_r, firstn_all. repeat split; [cbn; lia|constructor| |lia].
    f_equal. lia. }
  destruct (decide (n <= length xs + spare)) as [Hle|Hgt].
  - replace (length xs + spare <? n) with false
      by (symmetry; apply Nat.ltb_ge; lia).
    destruct value_init as [d|] eqn:Hd.
    2:{ by rewrite Resize_within_throw by (done || lia). }
    rewrite (Resize_within_ok d) by (done || lia). intros [= <- <-].
    exists (replicate (n - length xs) d). rewrite take_ge by lia.
    repeat split; [by rewrite length_replicate| |lia].
    by apply Forall_replicate.
  - replace (length xs + spare <? n) with true
      by (symmetry; apply Nat.ltb_lt; lia).
    destruct (alloc_fails (growth_policy n (length xs + spare))) eqn:Ha.
    { destruct (Resize_grow_throw xs spare n) as (l' & e & s & ->);
        [lia|auto|done]. }
    destruct (decide (Forall (fun x => relocation_throws x = false) xs))
      as [HF|HF].
    2:{ destruct (Resize_grow_throw xs spare n) as (l' & e & s & ->);
          [lia|auto|done]. }
    destruct value_init as [d|] eqn:Hd.
    2:{ destruct (Resize_grow_throw xs spare n) as (l' & e & s & ->);
          [lia|auto|done]. }
    rewrite (Resize_grow_ok d) by (done || lia). intros [= <- <-].
    exists (replicate (n - length xs) d). rewrite take_ge by lia.
    repeat split; [by rewrite length_replicate| ].
    by apply Forall_replicate.
Qed.

Lemma index_vec {St} ys spare i y :
  ys !! i = Some y -> index (St:=St) (vec ys spare) i = ret y.
Proof.
  intros Hy. pose proof (lookup_lt_Some _ _ _ Hy) as Hi.
  unfold index, at_. open_op.
  replace (i <? length ys) with true by (symmetry; by apply Nat.ltb_lt).
  replace (i <? length ys + spare) with true
    by (symmetry; apply Nat.ltb_lt; lia).
  unfold read, slots.
  rewrite lookup_app_l by by rewrite length_fmap.
  by rewrite list_lookup_fmap, Hy.
Qed.

Lemma Erase_normal xs spare pos l v' p :
  Erase (vec xs spare) pos = (l, Normal (v', p)) ->
  (0 <= pos < Z.of_nat (length xs))%Z /\ p = pos /\
  v' = vec (take (Z.to_nat pos) xs ++ drop (S (Z.to_nat pos)) xs) (S spare).
Proof.
  destruct (decide (0 <= pos < Z.of_nat (length xs))%Z) as [Hp|Hp].
  2:{ rewrite Erase_out_of_range; [done|]. unfold begin, end_. cbn. lia. }
  destruct (lookup_lt_is_Some_2 xs (Z.to_nat pos)) as [y Hy]; [lia|].
  pose proof (take_drop_middle _ _ _ Hy) as Hxs.
  set (pre := take (Z.to_nat pos) xs) in *.
  set (suf := drop (S (Z.to_nat pos)) xs) in *.
  assert (Hpos : pos = Z.of_nat (length pre)).
  { unfold pre. rewrite length_take. lia. }
  rewrite <- Hxs, Hpos.
  destruct (decide (Forall (fun x => move_assign_throws x = false) suf))
    as [HF|HF].
  - destruct (Erase_ok pre y suf spare HF) as [z ->].
    intros [= <- <- <-]. rewrite length_app. cbn [length]. split; [lia|done].
  - destruct (Erase_throw pre y suf spare HF) as (l' & s & ->). done.
Qed.

Lemma Emplace_normal xs spare pos args l v' p :
  Emplace (vec xs spare) pos args = (l, Normal (v', p)) ->
  (0 <= pos <= Z.of_nat (length xs))%Z /\ p = pos /\
  exists x,
    init_value args = Some x /\
    v' = vec (take (Z.to_nat pos) xs ++ x :: drop (Z.to_nat pos) xs)
           (if spare =? 0 then doubled (length xs) - S (length xs)
            else spare - 1) /\
    (spare = 0 ->
     l = Alloc (doubled (length xs))
           :: relocation_events (take (Z.to_nat pos) xs)
           ++ init_event args :: relocation_events (drop (Z.to_nat pos) xs)
           ++ (Destroy <$> relocated_from xs) ++ free_events (length xs)).
Proof.
  destruct (decide (0 <= pos <= Z.of_nat (length xs))%Z) as [Hp|Hp].
  2:{ rewrite Emplace_out_of_range; [done|]. unfold begin, end_. cbn. lia. }
  pose proof (take_drop (Z.to_nat pos) xs) as Hxs.
  set (pre := take (Z.to_nat pos) xs) in *.
  set (suf := drop (Z.to_nat pos) xs) in *.
  assert (Hpos : pos = Z.of_nat (length pre)).
  { unfold pre. rewrite length_take. lia. }
  rewrite <- Hxs, Hpos. intros E. split; [rewrite length_app; lia|].
  revert E. destruct spare as [|spare].
  - destruct (alloc_fails (doubled (length (pre ++ suf)))) eqn:Ha.
    { intros E. by eapply Emplace_full_throw in E; [|auto]. }
    destruct (decide (Forall (fun x => relocation_throws x = false)
                        (pre ++ suf))) as [HF|HF].
    2:{ intros E. by eapply Emplace_full_throw in E; [|auto]. }
    destruct (init_value args) as [x|] eqn:Hx.
    2:{ intros E. by eapply Emplace_full_throw in E; [|auto]. }
    rewrite (Emplace_full_ok pre suf args x) by done.
    intros [= <- <- <-]. split; [done|]. by exists x.
  - destruct suf as [|last mid _] using rev_ind.
    + rewrite app_nil_r, Emplace_spare_end.
      destruct (init_value args) as [x|] eqn:Hx; [|done].
      intros [= <- <- <-]. split; [done|]. exists x.
      repeat split; try done. cbn [Nat.eqb]. f_equal. lia.
    + destruct (init_value args) as [x|] eqn:Hx.
      2:{ intros E. by eapply Emplace_spare_mid_throw in E; [|auto]. }
      destruct (move_throws last) eqn:Hl.
      { intros E. by eapply Emplace_spare_mid_throw in E; [|auto]. }
      destruct (decide (Forall (fun y => move_assign_throws y = false) mid))
        as [HF|HF].
      2:{ intros E. by eapply Emplace_spare_mid_throw in E; [|auto]. }
      destruct (move_assign_throws x) eqn:Hax.
      { intros E. eapply Emplace_spare_mid_throw in E; [done|].
        do 3 right. eauto. }
      rewrite (Emplace_spare_mid_ok pre mid last spare args x) by done.
      intros [= <- <- <-]. split; [done|]. exists x.
      repeat split; try done. cbn [Nat.eqb]. f_equal. lia.
Qed.

End VectorFacts.

(** ** Construction and assignment *)

Section Construction.
Context {T : Type} `{!Element T} `{!Allocator}.
Implicit Types (xs ys : list T) (v : Vector.t T).

Import RawMemory Vector.

Ltac dtor_step :=
  match goal with
  | |- context [@RawMemory.dtor _ ?St ?m] =>
      let l := fresh "l" in
      destruct (dtor_normal (St:=St) m) as [l ->]; run
  end.

Lemma copy_front_ok xs spost :
  Forall (fun x => copy_throws x = false) xs ->
  uninitialized_copy_n ((Some <$> xs) ++ spost) 0 (length xs)
    (replicate (length xs) None) 0
  = (CopyCtor <$> xs, Normal ((Some <$> xs) ++ spost, slots xs 0)).
Proof.
  intros HF.
  pose proof (uninitialized_copy_n_ok xs [] spost [] [] HF) as E.
  cbn [app length] in E. rewrite !app_nil_r in E. rewrite E.
  unfold slots. cbn [replicate]. by rewrite app_nil_r.
Qed.

Lemma copy_front_throw xs spost :
  ~ Forall (fun x => copy_throws x = false) xs ->
  exists l s,
    uninitialized_copy_n ((Some <$> xs) ++ spost) 0 (length xs)
      (replicate (length xs) None) 0
    = (l, Throws elem_failure s).
Proof.
  intros HF.
  destruct (uninitialized_copy_n_throw xs [] spost [] [] HF) as [l E].
  cbn [app length] in E. rewrite !app_nil_r in E. rewrite E. eauto.
Qed.

Lemma sized_normal n l v :
  sized n = (l, Normal v) ->
  exists ys, v = vec ys 0 /\ length ys = n /\
    Forall (fun y => value_init = Some y) ys.
Proof.
  unfold sized.
  destruct (decide (n = 0 \/ alloc_fails n = false)) as [Ha|Ha].
  2:{ rewrite make_throw; [done|lia|]. destruct (alloc_fails n); tauto. }
  rewrite make_ok by done. run. cbn [GetAddress buffer_].
  destruct n as [|n].
  { cbn. intros [= <- <-]. by exists []. }
  destruct value_init as [d|] eqn:Hd.
  2:{ by rewrite uninitialized_value_construct_n_throw. }
  pose proof (value_construct_slots d [] (S n) (S n) (le_n _) Hd) as E.
  rewrite slots_raw in E. cbn [length] in E. rewrite E. run.
  unfold with_contents. cbn [capacity_ app].
  rewrite Nat.sub_diag. intros [= <- <-].
  exists (replicate (S n) d). rewrite length_replicate.
  repeat split; [|by apply Forall_replicate].
  unfold vec. by rewrite length_replicate, Nat.add_0_r.
Qed.

Lemma copy_normal xs spare l v :
  copy (vec xs spare) = (l, Normal v) -> v = vec xs 0.
Proof.
  unfold copy. open_op.
  destruct (decide (length xs = 0 \/ alloc_fails (length xs) = false))
    as [Ha|Ha].
  2:{ rewrite make_throw; [done|lia|].
      destruct (alloc_fails (length xs)); tauto. }
  rewrite make_ok by done. run. cbn [GetAddress buffer_]. unfold slots at 1.
  destruct (decide (Forall (fun x => copy_throws x = false) xs)) as [HF|HF].
  2:{ destruct (copy_front_throw xs (replicate spare None) HF)
        as (l' & s & ->). destruct s. run. by dtor_step. }
  rewrite copy_front_ok by done. run.
  unfold with_contents. cbn [capacity_]. intros [= <- <-].
  unfold vec. by rewrite Nat.add_0_r.
Qed.

Lemma copy_returns xs spare :
  length xs = 0 \/ alloc_fails (length xs) = false ->
  Forall (fun x => copy_throws x = false) xs ->
  copy (vec xs spare)
  = (alloc_events (length xs) ++ (CopyCtor <$> xs), Normal (vec xs 0)).
Proof.
  intros Ha HF. unfold copy. open_op.
  rewrite make_ok by done. run. cbn [GetAddress buffer_]. unfold slots at 1.
  rewrite copy_front_ok by done. run.
  unfold with_contents, vec. cbn [capacity_].
  by rewrite Nat.add_0_r, app_nil_r.
Qed.

Lemma dtor_vec xs spare :
  exists l, Vector.dtor (vec xs spare) = (l, Normal tt).
Proof.
  unfold Vector.dtor. open_op. rewrite destroy_n_front by done. run.
  rewrite dtor_raw. run. eauto.
Qed.

Lemma AssignFromSmaller_normal xs spare ys s2 l v :
  length ys <= length xs + spare ->
  AssignFromSmaller (vec xs spare) (vec ys s2) = (l, Normal v) ->
  v = vec ys (length xs + spare - length ys).
Proof.
  intros Hle. unfold AssignFromSmaller. open_op.
  set (c := length xs `min` length ys).
  assert (Hcx : length (take c xs) = c) by (rewrite length_take; lia).
  assert (Hcy : length (take c ys) = c) by (rewrite length_take; lia).
  replace (slots ys s2)
    with ([] ++ (Some <$> take c ys)
             ++ ((Some <$> drop c ys) ++ replicate s2 None)).
  2:{ unfold slots. cbn [app].
      by rewrite app_assoc, <- fmap_app, take_drop. }
  replace (slots xs spare)
    with ([] ++ (Some <$> take c xs)
             ++ ((Some <$> drop c xs) ++ replicate spare None)) at 1.
  2:{ unfold slots. cbn [app].
      by rewrite app_assoc, <- fmap_app, take_drop. }
  destruct (decide (Forall (fun x => copy_assign_throws x = false)
                      (take c ys))) as [HF|HF].
  2:{ destruct (copy_n_throw (take c ys) (take c xs) []
                  ((Some <$> drop c ys) ++ replicate s2 None) []
                  ((Some <$> drop c xs) ++ replicate spare None))
        as (l' & s & E); [congruence|done|].
      rewrite Hcy in E. cbn [length] in E. rewrite E. by run. }
  pose proof (copy_n_ok (take c ys) (take c xs) []
                ((Some <$> drop c ys) ++ replicate s2 None) []
                ((Some <$> drop c xs) ++ replicate spare None)) as E.
  rewrite Hcy in E. cbn [length] in E. rewrite E by (congruence || done).
  run. clear E. cbn [app].
  destruct (decide (length xs < length ys)) as [Hlt|Hge].
  - replace (length xs <? length ys) with true
      by (symmetry; by apply Nat.ltb_lt).
    assert (c = length xs) as Hc by lia.
    rewrite (drop_ge xs) by lia. cbn [fmap list_fmap app].
    replace spare
      with ((length ys - c) + (spare - (length ys - c))) at 1 by lia.
    rewrite replicate_add.
    destruct (decide (Forall (fun x => copy_throws x = false)
                        (drop c ys))) as [HF2|HF2].
    2:{ destruct (uninitialized_copy_n_throw (drop c ys)
                    (Some <$> take c ys) (replicate s2 None)
                    (Some <$> take c ys)
                    (replicate (spare - (length ys - c)) None) HF2)
          as [l' E].
        rewrite length_fmap, Hcy, length_drop in E. rewrite E. by run. }
    pose proof (uninitialized_copy_n_ok (drop c ys)
                  (Some <$> take c ys) (replicate s2 None)
                  (Some <$> take c ys)
                  (replicate (spare - (length ys - c)) None) HF2) as E.
    rewrite length_fmap, Hcy, length_drop in E. rewrite E. run.
    unfold with_contents. cbn [capacity_]. intros [= <- <-].
    apply vec_eq; [|lia|done].
    unfold slots. rewrite app_assoc, <- fmap_app, take_drop.
    do 2 f_equal. lia.
  - replace (length xs <? length ys) with false
      by (symmetry; apply Nat.ltb_ge; lia).
    assert (c = length ys) as Hc by lia.
    rewrite Hc, (take_ge ys) by lia.
    pose proof (destroy_n_live (St:=Vector.t T) (drop (length ys) xs)
                  (Some <$> ys) (replicate spare None)) as E.
    rewrite length_fmap, length_drop in E. rewrite E. run.
    unfold with_contents. cbn [capacity_]. intros [= <- <-].
    apply vec_eq; [|lia|done].
    unfold slots. rewrite <- replicate_add. do 2 f_equal. lia.
Qed.

Lemma assign_normal xs spare ys s2 l v :
  assign (vec xs spare) (Some (vec ys s2)) = (l, Normal v) ->
  v = vec ys (if length xs + spare <? length ys then 0
              else length xs + spare - length ys).
Proof.
  unfold assign. rewrite Capacity_vec.
  change (size_ (vec ys s2)) with (length ys).
  destruct (length xs + spare <? length ys) eqn:Hc.
  - destruct (copy (vec ys s2)) as [l' [temp|e s|]] eqn:Ecopy; run;
      try done.
    apply copy_normal in Ecopy as ->. cbn [Swap RawMemory.Swap vec data_
      size_ buffer_ capacity_].
    fold (slots xs spare). fold (slots ys 0).
    change {| data_ := {| buffer_ := slots xs spare;
                          capacity_ := length xs + spare |};
              size_ := length xs |} with (vec xs spare).
    destruct (dtor_vec xs spare) as [l'' ->]. run.
    by intros [= <- <-].
  - apply AssignFromSmaller_normal. apply Nat.ltb_ge in Hc. lia.
Qed.

Lemma PopBack_normal xs spare l v :
  PopBack (vec xs spare) = (l, Normal v) ->
  v = vec (take (length xs - 1) xs) (spare + (length xs - (length xs - 1))).
Proof.
  destruct xs as [|x xs _] using rev_ind.
  - rewrite PopBack_empty by done. intros [= <- <-]. cbn.
    by rewrite Nat.add_0_r.
  - rewrite PopBack_snoc. intros [= <- <-]. rewrite length_app. cbn [length].
    replace (length xs + 1 - 1) with (length xs) by lia.
    rewrite take_app_length. f_equal. lia.
Qed.

End Construction.

(** ** Which events an algorithm can log *)

Create HintDb logs discriminated.

Section Logs.
Context {T : Type} `{!Element T}.
Implicit Types (Q : event T -> Prop).

Lemma logs_only_ret {A S} Q (a : A) : logs_only Q (ret (T:=T) (S:=S) a).
Proof. constructor. Qed.

Lemma logs_only_fault {A S} Q : logs_only Q (fault (T:=T) (A:=A) (S:=S)).
Proof. constructor. Qed.

Lemma logs_only_throw {A S} Q e (s : S) :
  logs_only Q (throw (T:=T) (A:=A) e s).
Proof. constructor. Qed.

Lemma logs_only_emit {S} Q l : Forall Q l -> logs_only Q (emit (S:=S) l).
Proof. done. Qed.

Lemma logs_only_pair {A S} Q l (r : outcome A S) :
  Forall Q l -> logs_only Q (l, r).
Proof. done. Qed.

Lemma logs_only_bind {A B S} Q (m : M T A S) (k : A -> M T B S) :
  logs_only Q m -> (forall a, logs_only Q (k a)) -> logs_only Q (bind m k).
Proof.
  unfold logs_only. intros Hm Hk. destruct m as [l [a|e s|]]; run; try done.
  specialize (Hk a). destruct (k a) as [l' r']. run. by apply Forall_app.
Qed.

Lemma logs_only_unwind {A S S'} Q (m : M T A S) (h : exn -> S -> M T A S') :
  logs_only Q m -> (forall e s, logs_only Q (h e s)) ->
  logs_only Q (unwind m h).
Proof.
  unfold logs_only. intros Hm Hh. destruct m as [l [a|e s|]]; run; try done.
  specialize (Hh e s). destruct (h e s) as [l' r']. run. by apply Forall_app.
Qed.

End Logs.

(** one step through the structure of a computation *)
Ltac logs_step :=
  match goal with
  | |- logs_only _ (bind _ _) => apply logs_only_bind; [|intros]
  | |- logs_only _ (unwind _ _) => apply logs_only_unwind; [|intros]
  | |- logs_only _ (ret _) => apply logs_only_ret
  | |- logs_only _ fault => apply logs_only_fault
  | |- logs_only _ (throw _ _) => apply logs_only_throw
  | |- logs_only _ (emit _) => apply logs_only_emit; repeat constructor
  | |- logs_only _ (_, _) => apply logs_only_pair; repeat constructor
  | |- logs_only _ (if ?b then _ else _) => destruct b
  | |- logs_only _ (match ?x with _ => _ end) => destruct x
  | |- logs_only _ _ => solve [eauto with logs]
  end.

Section LogsAlgorithms.
Context {T : Type} `{!Element T} `{!Allocator}.
Implicit Types (Q : event T -> Prop) (buf : list (option T)).

Lemma logs_only_read {S} Q buf i : logs_only Q (read (St:=S) buf i).
Proof. unfold read. repeat logs_step. Qed.

Lemma logs_only_place {S} Q buf i v : logs_only Q (place (St:=S) buf i v).
Proof. unfold place. repeat logs_step. Qed.

Lemma logs_only_store {S} Q buf i v : logs_only Q (store (St:=S) buf i v).
Proof. unfold store. repeat logs_step. Qed.

Lemma logs_only_destroy_at {S} Q buf i :
  lenient Q -> logs_only Q (destroy_at (St:=S) buf i).
Proof.
  intros (_ & _ & _ & _ & _ & _ & HD). unfold destroy_at.
  repeat logs_step; apply HD.
Qed.

Lemma logs_only_destroy_n {S} Q n : forall buf first,
  lenient Q -> logs_only Q (destroy_n (St:=S) buf first n).
Proof.
  pose proof (@logs_only_destroy_at S Q).
  induction n as [|n IH]; intros buf first HQ; cbn [destroy_n];
    repeat logs_step.
Qed.

Lemma logs_only_construct_args {S} Q (s : S) r :
  lenient Q -> logs_only Q (construct_args s r).
Proof.
  intros (_ & _ & HA & _). unfold construct_args. repeat logs_step. apply HA.
Qed.

Lemma logs_only_construct_value {S} Q (s : S) :
  lenient Q -> logs_only Q (construct_value s).
Proof.
  intros (_ & _ & _ & HV & _). unfold construct_value. repeat logs_step.
  apply HV.
Qed.

Lemma logs_only_construct_move {S} Q (s : S) v :
  (forall w, Q (MoveCtor w)) -> logs_only Q (construct_move s v).
Proof. intros HM. unfold construct_move. repeat logs_step. apply HM. Qed.

Lemma logs_only_construct_copy {S} Q (s : S) v :
  (forall w, Q (CopyCtor w)) -> logs_only Q (construct_copy s v).
Proof. intros HC. unfold construct_copy. repeat logs_step. apply HC. Qed.

Lemma logs_only_make {St} Q (s : St) n :
  lenient Q -> logs_only Q (RawMemory.make (T:=T) s n).
Proof.
  intros (HA & _). unfold RawMemory.make, RawMemory.Allocate.
  repeat logs_step. apply HA.
Qed.

Lemma logs_only_dtor {St} Q (m : RawMemory.t T) :
  lenient Q -> logs_only Q (RawMemory.dtor (St:=St) m).
Proof.
  intros (_ & HD & _). unfold RawMemory.dtor, RawMemory.Deallocate.
  repeat logs_step. apply HD.
Qed.

Lemma logs_only_uninitialized_value_construct_n Q n buf first :
  lenient Q -> logs_only Q (uninitialized_value_construct_n buf first n).
Proof.
  intros HQ. unfold uninitialized_value_construct_n.
  pose proof (@logs_only_destroy_n (list (option T)) Q).
  pose proof (@logs_only_construct_value (list (option T) * nat) Q).
  pose proof (@logs_only_place (list (option T) * nat) Q).
  assert (forall k b f c, logs_only Q (value_construct_loop b f c k)).
  { induction k as [|k IH]; intros b f c; cbn [value_construct_loop];
      repeat logs_step. }
  repeat logs_step.
Qed.

Lemma logs_only_uninitialized_copy_n Q n src first dst d_first :
  lenient Q -> (forall w, Q (CopyCtor w)) ->
  logs_only Q (uninitialized_copy_n src first n dst d_first).
Proof.
  intros HQ HC. unfold uninitialized_copy_n.
  pose proof (@logs_only_destroy_n (list (option T) * list (option T)) Q).
  pose proof (@logs_only_construct_copy (list (option T) * nat) Q).
  pose proof (@logs_only_place (list (option T) * nat) Q).
  pose proof (@logs_only_read (list (option T) * nat) Q).
  assert (forall k s f d c, logs_only Q (copy_construct_loop s f d c k)).
  { induction k as [|k IH]; intros s f d c; cbn [copy_construct_loop];
      repeat logs_step. }
  repeat logs_step.
Qed.

Lemma logs_only_uninitialized_move_n Q n src first dst d_first :
  lenient Q -> (forall w, Q (MoveCtor w)) ->
  logs_only Q (uninitialized_move_n src first n dst d_first).
Proof.
  intros HQ HC. unfold uninitialized_move_n.
  pose proof (@logs_only_destroy_n (list (option T) * list (option T)) Q).
  pose proof (@logs_only_construct_move
                (list (option T) * list (option T) * nat) Q).
  pose proof (@logs_only_place (list (option T) * list (option T) * nat) Q).
  pose proof (@logs_only_store (list (option T) * list (option T) * nat) Q).
  pose proof (@logs_only_read (list (option T) * list (option T) * nat) Q).
  assert (forall k s f d c, logs_only Q (move_construct_loop s f d c k)).
  { induction k as [|k IH]; intros s f d c; cbn [move_construct_loop];
      repeat logs_step. }
  repeat logs_step.
Qed.

End LogsAlgorithms.

#[export] Hint Resolve logs_only_read logs_only_place logs_only_store
  logs_only_destroy_at logs_only_destroy_n logs_only_construct_args
  logs_only_construct_value logs_only_construct_move
  logs_only_construct_copy logs_only_make logs_only_dtor
  logs_only_uninitialized_value_construct_n logs_only_uninitialized_copy_n
  logs_only_uninitialized_move_n : logs.

Section CtorEvents.
Context {T : Type} `{!Element T}.
Implicit Types (xs : list T) (l : list (event T)).

Lemma ctor_events_app l1 l2 :
  ctor_events (l1 ++ l2) = ctor_events l1 ++ ctor_events l2.
Proof. apply List.filter_app. Qed.

Lemma ctor_events_relocation xs :
  ctor_events (relocation_events xs) = relocation_events xs.
Proof.
  unfold relocation_events, ctor_events.
  destruct relocates_by_move; induction xs as [|x xs IH]; cbn; congruence.
Qed.

Lemma ctor_events_destroy xs : ctor_events (Destroy <$> xs) = [].
Proof. unfold ctor_events. induction xs as [|x xs IH]; cbn; congruence. Qed.

Lemma ctor_events_free n : ctor_events (free_events (T:=T) n) = [].
Proof. unfold free_events. by destruct n. Qed.

Lemma ctor_events_value n :
  ctor_events (replicate n (ValueCtor (T:=T))) = replicate n ValueCtor.
Proof. unfold ctor_events. induction n as [|n IH]; cbn; congruence. Qed.

Lemma ctor_events_alloc n l : ctor_events (Alloc n :: l) = ctor_events l.
Proof. done. Qed.

Lemma ctor_events_init (a : init) l :
  ctor_events (init_event a :: l) = init_event a :: ctor_events l.
Proof. by destruct a. Qed.

End CtorEvents.

(** * The claims of the specification *)

Section Claims.
Context {T : Type} {ET : Element T} {AL : Allocator}.
Implicit Types (v : Vector.t T) (xs : list T).


(** [PushBack] does return normally when nothing it calls throws. *)
Lemma PushBack_returns v value :
  invariant v ->
  copy_throws value = false ->
  Vector.Size v < Vector.Capacity v \/
    (alloc_fails (doubled (Vector.Size v)) = false /\
     Forall (fun x => relocation_throws x = false) (contents v)) ->
  exists l v', Vector.PushBack v value = (l, Normal v').
Proof.
  intros (xs & spare & ->)%invariant_iff Hc Hok.
  rewrite Size_vec, Capacity_vec, contents_vec in Hok.
  destruct (EmplaceBack_returns xs spare (from_copy value) value)
    as (l & v' & E).
  { cbn. by rewrite Hc. }
  { destruct Hok; [left; lia | by right]. }
  unfold Vector.PushBack. rewrite E. run. eauto.
Qed.


(** For a type with a [noexcept] move constructor no relocation throws,
    and [Reserve] returns normally as soon as the allocation succeeds. *)
Lemma nothrow_relocation xs :
  is_nothrow_move_constructible = true ->
  Forall (fun x => relocation_throws x = false) xs.
Proof.
  intros Hn. apply Forall_forall. intros x _.
  unfold relocation_throws, relocates_by_move. rewrite Hn. cbn.
  by apply nothrow_move_sound.
Qed.

Lemma Reserve_returns_nothrow v n :
  invariant v ->
  is_nothrow_move_constructible = true ->
  Vector.Capacity v < n ->
  alloc_fails n = false ->
  exists l v', Vector.Reserve v n = (l, Normal v').
Proof.
  intros (xs & spare & ->)%invariant_iff Hn Hc Ha.
  rewrite Capacity_vec in Hc.
  rewrite Reserve_ok by (done || by apply nothrow_relocation). eauto.
Qed.

(** C8.  Move construction performs no operation on the elements and no
    allocation (its log is empty, whatever the size), leaves the source
    with size 0 and capacity 0 and no block, and the new vector is the
    source as it was: same block, same size, same contents. *)
Theorem move_constructor_transfers v :
  exists dst src,
    Vector.move v = ([], Normal (dst, src)) /\
    Vector.Size src = 0 /\ Vector.Capacity src = 0 /\
    RawMemory.buffer_ (Vector.data_ src) = [] /\
    dst = v /\ contents dst = contents v.
Proof.
  destruct v as [[b c] n]. unfold Vector.move. cbn.
  eexists _, _. repeat split.
Qed.

(** C10.  [PopBack] on an empty vector returns normally, performs nothing
    and leaves the vector as it was. *)
Theorem PopBack_empty_noop v :
  Vector.Size v = 0 -> Vector.PopBack v = ([], Normal v).
Proof. apply PopBack_empty. Qed.

(** C3, as amended.  When more capacity is needed and the call returns
    normally, the new capacity of [EmplaceBack], [PushBack] and [Resize] is
    [growth_policy requested_size current_capacity]; [Reserve(n)] makes the
    capacity exactly [n]. *)
Theorem growth_policy_amended v :
  invariant v ->
  (forall args l v' i,
     Vector.Capacity v < Vector.Size v + 1 ->
     Vector.EmplaceBack v args = (l, Normal (v', i)) ->
     Vector.Capacity v'
     = growth_policy (Vector.Size v + 1) (Vector.Capacity v)) /\
  (forall value l v',
     Vector.Capacity v < Vector.Size v + 1 ->
     Vector.PushBack v value = (l, Normal v') \/
     Vector.PushBack_move v value = (l, Normal v') ->
     Vector.Capacity v'
     = growth_policy (Vector.Size v + 1) (Vector.Capacity v)) /\
  (forall n l v',
     Vector.Capacity v < n ->
     Vector.Resize v n = (l, Normal v') ->
     Vector.Capacity v' = growth_policy n (Vector.Capacity v)) /\
  (forall n l v',
     Vector.Capacity v < n ->
     Vector.Reserve v n = (l, Normal v') ->
     Vector.Capacity v' = n).
Proof.
  intros (xs & spare & ->)%invariant_iff.
  rewrite Capacity_vec, Size_vec.
  assert (HE : forall args l v' i,
             length xs + spare < length xs + 1 ->
             Vector.EmplaceBack (vec xs spare) args = (l, Normal (v', i)) ->
             Vector.Capacity v'
             = growth_policy (length xs + 1) (length xs + spare)).
  { intros args l v' i Hn (x & _ & _ & -> & _)%EmplaceBack_normal.
    assert (spare = 0) as -> by lia. cbn [Nat.eqb].
    rewrite Capacity_vec, length_app, Nat.add_0_r. cbn [length].
    pose proof (doubled_gt (length xs)).
    unfold growth_policy. fold (doubled (length xs)). lia. }
  split; [done|]. split; [|split].
  - intros value l v' Hn
      [[i E]%PushBack_normal | [i E]%PushBack_move_normal]; eauto.
  - intros n l v' Hn (ys & Hl & _ & -> & _)%Resize_normal.
    replace (length xs + spare <? n) with true
      by (symmetry; by apply Nat.ltb_lt).
    rewrite Capacity_vec, length_app, length_take, Hl.
    assert (n <= growth_policy n (length xs + spare))
      by (unfold growth_policy; lia).
    lia.
  - intros n l v' Hn [-> _]%Reserve_normal; [|done].
    rewrite Capacity_vec. lia.
Qed.

(** C5.  [Emplace] and both overloads of [Insert] end with
    [std::out_of_range] exactly when the position is outside
    [[begin(), end()]], and [Erase] exactly when it is outside
    [[begin(), end())]; the vector is then untouched. *)
Theorem out_of_range_iff_invalid_position v pos :
  (forall args,
     ((exists l s, Vector.Emplace v pos args = (l, Throws out_of_range s))
      <-> (pos < Vector.begin v \/ Vector.end_ v < pos)%Z) /\
     ((pos < Vector.begin v \/ Vector.end_ v < pos)%Z ->
      Vector.Emplace v pos args = ([], Throws out_of_range v))) /\
  (forall value,
     ((exists l s, Vector.Insert v pos value = (l, Throws out_of_range s))
      <-> (pos < Vector.begin v \/ Vector.end_ v < pos)%Z) /\
     ((exists l s,
         Vector.Insert_move v pos value = (l, Throws out_of_range s))
      <-> (pos < Vector.begin v \/ Vector.end_ v < pos)%Z)) /\
  ((exists l s, Vector.Erase v pos = (l, Throws out_of_range s))
   <-> (pos < Vector.begin v \/ Vector.end_ v <= pos)%Z) /\
  ((pos < Vector.begin v \/ Vector.end_ v <= pos)%Z ->
   Vector.Erase v pos = ([], Throws out_of_range v)).
Proof.
  assert (HE : forall args,
             (exists l s,
                Vector.Emplace v pos args = (l, Throws out_of_range s))
             <-> (pos < Vector.begin v \/ Vector.end_ v < pos)%Z).
  { intros args. split.
    - intros (l & s & E).
      destruct (decide (pos < Vector.begin v \/ Vector.end_ v < pos)%Z)
        as [|Hin]; [done|exfalso].
      assert (throws_only (fun e => e <> out_of_range)
                (Vector.Emplace v pos args)) as Ht.
      { unfold Vector.Emplace.
        replace ((pos <? Vector.begin v)%Z || (pos >? Vector.end_ v)%Z)
          with false.
        2:{ symmetry. apply orb_false_iff.
            rewrite Z.ltb_ge, Z.gtb_ltb, Z.ltb_ge. lia. }
        repeat throws_step. }
      apply (Ht out_of_range s); [|done]. by rewrite E.
    - intros Hp. rewrite Emplace_out_of_range by done. eauto. }
  split; [|split; [|split]].
  - intros args. split; [done|]. apply Emplace_out_of_range.
  - intros value. split; apply HE.
  - split.
    + intros (l & s & E).
      destruct (decide (pos < Vector.begin v \/ Vector.end_ v <= pos)%Z)
        as [|Hin]; [done|exfalso].
      assert (throws_only (fun e => e <> out_of_range)
                (Vector.Erase v pos)) as Ht.
      { unfold Vector.Erase.
        replace ((pos <? Vector.begin v)%Z || (pos >=? Vector.end_ v)%Z)
          with false.
        2:{ symmetry. apply orb_false_iff.
            rewrite Z.ltb_ge, Z.geb_leb, Z.leb_gt. lia. }
        repeat throws_step. }
      apply (Ht out_of_range s); [|done]. by rewrite E.
    + intros Hp. rewrite Erase_out_of_range by done. eauto.
  - apply Erase_out_of_range.
Qed.

(** C6.  Erasing the element at a valid position and inserting its value
    again at the same position (either overload of [Insert]), both calls
    returning normally, gives back the vector as it was: the same contents
    in the same order, with the same size and capacity. *)
Theorem Erase_then_Insert_restores v pos x l1 v1 p1 l2 v2 p2 :
  invariant v ->
  contents v !! Z.to_nat (pos - Vector.begin v) = Some x ->
  Vector.Erase v pos = (l1, Normal (v1, p1)) ->
  Vector.Insert v1 pos x = (l2, Normal (v2, p2)) \/
  Vector.Insert_move v1 pos x = (l2, Normal (v2, p2)) ->
  contents v2 = contents v /\ v2 = v /\ p1 = pos /\ p2 = pos.
Proof.
  intros (xs & spare & ->)%invariant_iff Hx.
  rewrite contents_vec in Hx. unfold Vector.begin in Hx.
  rewrite Z.sub_0_r in Hx.
  intros (Hp & -> & ->)%Erase_normal Hins.
  pose proof (take_drop_middle _ _ _ Hx) as Hxs.
  set (pre := take (Z.to_nat pos) xs) in *.
  set (suf := drop (S (Z.to_nat pos)) xs) in *.
  assert (Hpre : length pre = Z.to_nat pos).
  { unfold pre. rewrite length_take. lia. }
  assert (exists args,
            Vector.Emplace (vec (pre ++ suf) (S spare)) pos args
            = (l2, Normal (v2, p2)) /\
            forall y, init_value args = Some y -> y = x)
    as (args & E & Hval).
  { destruct Hins as [E|E].
    - exists (from_copy x). split; [done|]. intros y. cbn.
      case_match; [done|]. by intros [= <-].
    - exists (from_move x). split; [done|]. intros y. cbn.
      case_match; [done|]. by intros [= <-]. }
  apply Emplace_normal in E as (_ & -> & y & Hy & -> & _).
  apply Hval in Hy as ->. cbn [Nat.eqb].
  rewrite <- Hpre, take_app_length, drop_app_length, Hxs.
  replace (S spare - 1) with spare by lia.
  by rewrite contents_vec.
Qed.

(** The two calls of C6 do return normally when no element operation
    throws. *)
Lemma Erase_then_Insert_returns xs spare i x :
  xs !! i = Some x ->
  copy_throws x = false ->
  move_assign_throws x = false ->
  Forall (fun y => move_throws y = false) xs ->
  Forall (fun y => move_assign_throws y = false) xs ->
  exists l1 v1 l2,
    Vector.Erase (vec xs spare) (Z.of_nat i)
    = (l1, Normal (v1, Z.of_nat i)) /\
    Vector.Insert v1 (Z.of_nat i) x
    = (l2, Normal (vec xs spare, Z.of_nat i)).
Proof.
  intros Hx Hc Ha Hm Hma.
  pose proof (take_drop_middle _ _ _ Hx) as Hxs.
  pose proof (lookup_lt_Some _ _ _ Hx) as Hi.
  set (pre := take i xs) in *. set (suf := drop (S i) xs) in *.
  assert (Hpre : length pre = i) by (unfold pre; rewrite length_take; lia).
  rewrite <- Hxs in Hm, Hma |- *.
  apply Forall_app in Hm as [_ Hm]. apply Forall_cons in Hm as [_ Hm].
  apply Forall_app in Hma as [_ Hma]. apply Forall_cons in Hma as [_ Hma].
  rewrite <- Hpre.
  destruct (Erase_ok pre x suf spare Hma) as [z ->].
  unfold Vector.Insert.
  destruct suf as [|last mid _] using rev_ind.
  - eexists _, _, _. split; [done|].
    rewrite !app_nil_r, Emplace_spare_end. unfold init_value.
    by rewrite Hc.
  - apply Forall_app in Hm as [_ Hm]. apply Forall_cons in Hm as [Hm _].
    apply Forall_app in Hma as [Hma _].
    eexists _, _, _. split; [done|].
    rewrite (Emplace_spare_mid_ok pre mid last spare (from_copy x) x);
      try done.
    unfold init_value. by rewrite Hc.
Qed.

(** C7.  In a reallocation by [Reserve], [Resize], [EmplaceBack] or
    [Emplace] the live elements are relocated by the move constructor
    when [T]'s move constructor is [noexcept] or [T] is not copy
    constructible, and by the copy constructor otherwise.  On a normal
    return the constructor calls are exactly: one relocation per element,
    in order (with the new elements where they belong); and in every run,
    however it ends, the constructor that was not selected is never called
    on an element. *)
Theorem relocation_by_move_iff_traits v :
  invariant v ->
  let reloc := fun ys : list T =>
    if is_nothrow_move_constructible || negb is_copy_constructible
    then MoveCtor <$> ys else CopyCtor <$> ys in
  let selected := fun e : event T =>
    if is_nothrow_move_constructible || negb is_copy_constructible
    then copies e = false else moves e = false in
  (forall n l v',
     Vector.Capacity v < n -> Vector.Reserve v n = (l, Normal v') ->
     ctor_events l = reloc (contents v)) /\
  (forall n l v',
     Vector.Capacity v < n -> Vector.Resize v n = (l, Normal v') ->
     ctor_events l
     = reloc (contents v) ++ replicate (n - Vector.Size v) ValueCtor) /\
  (forall args l v' i,
     Vector.Size v = Vector.Capacity v ->
     Vector.EmplaceBack v args = (l, Normal (v', i)) ->
     ctor_events l = reloc (contents v) ++ [init_event args]) /\
  (forall pos args l v' p,
     Vector.Size v = Vector.Capacity v ->
     Vector.Emplace v pos args = (l, Normal (v', p)) ->
     ctor_events l
     = reloc (take (Z.to_nat pos) (contents v))
         ++ init_event args :: reloc (drop (Z.to_nat pos) (contents v))) /\
  (forall n, logs_only selected (Vector.Reserve v n)) /\
  (forall n, logs_only selected (Vector.Resize v n)) /\
  (forall r, logs_only selected (Vector.EmplaceBack v (from_args r))) /\
  (forall pos r,
     Vector.Size v = Vector.Capacity v ->
     logs_only selected (Vector.Emplace v pos (from_args r))).
Proof.
  intros (xs & spare & ->)%invariant_iff reloc selected.
  rewrite Capacity_vec, Size_vec, contents_vec.
  assert (Hreloc : forall ys, reloc ys = relocation_events ys) by done.
  assert (Hsel : lenient selected).
  { unfold selected, lenient.
    by destruct (is_nothrow_move_constructible || negb is_copy_constructible). }
  repeat split.
  - intros n l v' Hn [_ ->]%Reserve_normal; [|done].
    rewrite ctor_events_alloc, !ctor_events_app, ctor_events_relocation,
      ctor_events_destroy, ctor_events_free, !app_nil_r. reflexivity.
  - intros n l v' Hn (ys & _ & _ & _ & ->)%Resize_normal; [|done].
    rewrite ctor_events_alloc, !ctor_events_app, ctor_events_relocation,
      ctor_events_destroy, ctor_events_free, ctor_events_value, !app_nil_r.
    reflexivity.
  - intros args l v' i Hn (x & _ & _ & _ & ->)%EmplaceBack_normal; [|lia].
    rewrite ctor_events_alloc, !ctor_events_app, ctor_events_init,
      !ctor_events_app,
      ctor_events_relocation, ctor_events_destroy, ctor_events_free.
    reflexivity.
  - intros pos args l v' p Hn (_ & _ & x & _ & _ & ->)%Emplace_normal;
      [|lia].
    rewrite ctor_events_alloc, !ctor_events_app, ctor_events_init,
      !ctor_events_app,
      !ctor_events_relocation, ctor_events_destroy, ctor_events_free.
    cbn [app]. rewrite app_nil_r. reflexivity.
  - intros n. unfold Vector.Reserve, selected in *.
    destruct (is_nothrow_move_constructible || negb is_copy_constructible);
      repeat logs_step.
  - intros n. unfold Vector.Resize, selected in *.
    destruct (is_nothrow_move_constructible || negb is_copy_constructible);
      repeat logs_step.
  - intros r. unfold Vector.EmplaceBack, construct, selected in *.
    destruct (is_nothrow_move_constructible || negb is_copy_constructible);
      repeat logs_step.
  - intros pos r Hn. unfold Vector.Emplace, construct, selected in *.
    replace (Vector.size_ (vec xs spare) =? Vector.Capacity (vec xs spare))
      with true by (symmetry; by apply Nat.eqb_eq).
    destruct (is_nothrow_move_constructible || negb is_copy_constructible);
      repeat logs_step.
Qed.

(** The invariant of C9 is kept by every constructor and member function
    other than [DestroyN], whenever the call returns normally. *)
Lemma invariant_preserved v w :
  invariant v -> invariant w ->
  invariant (Vector.default (T:=T)) /\
  (forall n l v', Vector.sized n = (l, Normal v') -> invariant v') /\
  (forall l v', Vector.copy v = (l, Normal v') ->
     invariant v' /\ contents v' = contents v) /\
  (forall l d s, Vector.move v = (l, Normal (d, s)) ->
     invariant d /\ invariant s) /\
  (forall l v', Vector.assign v None = (l, Normal v') -> invariant v') /\
  (forall l v', Vector.assign v (Some w) = (l, Normal v') ->
     invariant v' /\ contents v' = contents w) /\
  (invariant (Vector.move_assign v None).1) /\
  (invariant (Vector.move_assign v (Some w)).1 /\
   forall w', (Vector.move_assign v (Some w)).2 = Some w' -> invariant w') /\
  (invariant (Vector.Swap v w).1 /\ invariant (Vector.Swap v w).2) /\
  (forall n l v', Vector.Reserve v n = (l, Normal v') -> invariant v') /\
  (forall n l v', Vector.Resize v n = (l, Normal v') -> invariant v') /\
  (forall l v', Vector.PopBack v = (l, Normal v') -> invariant v') /\
  (forall args l v' i,
     Vector.EmplaceBack v args = (l, Normal (v', i)) -> invariant v') /\
  (forall value l v',
     Vector.PushBack v value = (l, Normal v') \/
     Vector.PushBack_move v value = (l, Normal v') -> invariant v') /\
  (forall pos args l v' p,
     Vector.Emplace v pos args = (l, Normal (v', p)) -> invariant v') /\
  (forall pos value l v' p,
     Vector.Insert v pos value = (l, Normal (v', p)) \/
     Vector.Insert_move v pos value = (l, Normal (v', p)) -> invariant v') /\
  (forall pos l v' p,
     Vector.Erase v pos = (l, Normal (v', p)) -> invariant v').
Proof.
  intros (xs & spare & ->)%invariant_iff (ys & s2 & ->)%invariant_iff.
  rewrite !contents_vec.
  assert (HEB : forall args l v' i,
             Vector.EmplaceBack (vec xs spare) args = (l, Normal (v', i)) ->
             invariant v').
  { intros args l v' i (x & _ & _ & -> & _)%EmplaceBack_normal.
    apply invariant_vec. }
  assert (HEm : forall pos args l v' p,
             Vector.Emplace (vec xs spare) pos args = (l, Normal (v', p)) ->
             invariant v').
  { intros pos args l v' p (_ & _ & x & _ & -> & _)%Emplace_normal.
    apply invariant_vec. }
  split. { apply (invariant_vec [] 0). }
  split. { intros n l v' (zs & -> & _)%sized_normal. apply invariant_vec. }
  split.
  { intros l v' ->%copy_normal. rewrite contents_vec.
    split; [apply invariant_vec|done]. }
  split.
  { intros l d s [= _ <- <-]. split; [apply invariant_vec|].
    apply (invariant_vec [] 0). }
  split. { intros l v' [= _ <-]. apply invariant_vec. }
  split.
  { intros l v' ->%assign_normal. rewrite contents_vec.
    split; [apply invariant_vec|done]. }
  split. { apply invariant_vec. }
  split.
  { split; [apply invariant_vec|]. intros w' [= <-]. apply invariant_vec. }
  split. { split; apply invariant_vec. }
  split.
  { intros n l v'. destruct (decide (n <= length xs + spare)) as [Hn|Hn].
    - rewrite Reserve_noop by done. intros [= _ <-]. apply invariant_vec.
    - intros [-> _]%Reserve_normal; [|lia]. apply invariant_vec. }
  split.
  { intros n l v' (zs & _ & _ & -> & _)%Resize_normal. apply invariant_vec. }
  split. { intros l v' ->%PopBack_normal. apply invariant_vec. }
  split. { done. }
  split.
  { intros value l v'
      [[i E]%PushBack_normal | [i E]%PushBack_move_normal]; eauto. }
  split. { done. }
  split. { intros pos value l v' p [E|E]; eapply HEm, E. }
  intros pos l v' p (_ & _ & ->)%Erase_normal. apply invariant_vec.
Qed.

End Claims.

(** * The claims on concrete vectors *)

Section Examples.
Open Scope string_scope.


(** C2: a [Vector<std::string>] holding ["a"] at full capacity, and an
    [EmplaceBack] whose constructor throws.  The element has been moved
    into the new block before the constructor runs; the new block is
    destroyed and released, and the vector is left holding the moved-from
    (empty) string instead of ["a"]. *)
Theorem EmplaceBack_throw_leaves_moved_from :
  Vector.EmplaceBack (E:=string_element) (A:=plentiful) (vec ["a"] 0)
    (from_args None)
  = ([Alloc 2; MoveCtor "a"; ArgsCtor None; Destroy "a"; Dealloc []],
     Throws elem_failure (vec [EmptyString] 0)) /\
  contents (vec [EmptyString] 0) <> contents (vec ["a"] 0).
Proof. split; [reflexivity|]. rewrite !contents_vec. discriminate. Qed.

(** C3 as stated fails for [Reserve]: from capacity 4, [Reserve(5)] gives
    capacity 5, while the growth policy gives 8. *)
Lemma growth_policy_fails_for_Reserve :
  exists l v',
    Vector.Reserve (E:=int_element) (A:=plentiful) (vec [1; 2; 3; 4]%Z 0) 5
    = (l, Normal v') /\
    (Vector.Capacity (vec [1; 2; 3; 4]%Z 0) < 5) /\
    Vector.Capacity v' = 5 /\
    growth_policy 5 (Vector.Capacity (vec [1; 2; 3; 4]%Z 0)) = 8 /\
    Vector.Capacity v'
    <> growth_policy 5 (Vector.Capacity (vec [1; 2; 3; 4]%Z 0)).
Proof.
  eexists _, _. split; [reflexivity|]. cbn. repeat split; lia.
Qed.

(** C3 as amended, on the vector [1, 2] at full capacity. *)
Lemma growth_policy_amended_witness :
  Vector.Capacity (vec [1; 2; 7]%Z 1) = growth_policy 3 2 /\
  Vector.Capacity (vec [1; 2; 0; 0; 0]%Z 0) = growth_policy 5 2 /\
  Vector.Capacity (vec [1; 2]%Z 1) = 3.
Proof.
  destruct (growth_policy_amended (ET:=int_element) (AL:=plentiful)
              (vec [1; 2]%Z 0) (invariant_vec _ _)) as (HE & _ & HRz & HRs).
  split; [|split].
  - eapply (HE (from_args (Some 7%Z))); [cbn; lia | reflexivity].
  - eapply (HRz 5); [cbn; lia | reflexivity].
  - eapply (HRs 3); [cbn; lia | reflexivity].
Defined.


(** C6 on the vector [1, 2, 3]: erasing the element at index 1 and
    inserting 2 there again. *)
Lemma Erase_then_Insert_restores_witness :
  Vector.Erase (E:=int_element) (vec [1; 2; 3]%Z 1) 1
  = ([MoveAssign 3%Z; Destroy 3%Z], Normal (vec [1; 3]%Z 2, 1%Z)) /\
  Vector.Insert (E:=int_element) (A:=plentiful) (vec [1; 3]%Z 2) 1 2%Z
  = ([CopyCtor 2%Z; MoveCtor 3%Z; MoveAssign 2%Z; Destroy 2%Z],
     Normal (vec [1; 2; 3]%Z 1, 1%Z)) /\
  contents (vec [1; 2; 3]%Z 1) = contents (vec [1; 2; 3]%Z 1) /\
  vec [1; 2; 3]%Z 1 = vec [1; 2; 3]%Z 1 /\ 1%Z = 1%Z /\ 1%Z = 1%Z.
Proof.
  split; [reflexivity|]. split; [reflexivity|].
  eapply (Erase_then_Insert_restores (ET:=int_element) (AL:=plentiful)
            (vec [1; 2; 3]%Z 1) 1%Z 2%Z).
  - apply invariant_vec.
  - reflexivity.
  - reflexivity.
  - left. reflexivity.
Defined.

(** C7 for a type that relocates by move and for one that relocates by
    copy: the constructor calls of [Reserve(4)] on the vector [1, 2]. *)
Lemma relocation_by_move_iff_traits_witness :
  ctor_events
    (Vector.Reserve (E:=int_element) (A:=plentiful) (vec [1; 2]%Z 0) 4).1
  = [MoveCtor 1%Z; MoveCtor 2%Z] /\
  ctor_events
    (Vector.Reserve (E:=copying_element) (A:=plentiful) (vec [1; 2]%Z 0) 4).1
  = [CopyCtor 1%Z; CopyCtor 2%Z].
Proof.
  split.
  - destruct (relocation_by_move_iff_traits (ET:=int_element) (AL:=plentiful)
                (vec [1; 2]%Z 0) (invariant_vec _ _)) as (HR & _).
    eapply (HR 4); [cbn; lia | reflexivity].
  - destruct (relocation_by_move_iff_traits (ET:=copying_element)
                (AL:=plentiful) (vec [1; 2]%Z 0) (invariant_vec _ _))
      as (HR & _).
    eapply (HR 4); [cbn; lia | reflexivity].
Defined.

(** C9: [DestroyN] is a public member; on the vector [1] the call
    [DestroyN(begin(), 1)] returns normally and leaves [size_ = 1] with no
    object in slot 0. *)
Theorem DestroyN_breaks_invariant :
  Vector.DestroyN (vec [1]%Z 0) 0 1
  = ([Destroy 1%Z],
     Normal {| Vector.data_ :=
                 {| RawMemory.buffer_ := [None];
                    RawMemory.capacity_ := 1 |};
               Vector.size_ := 1 |}) /\
  invariant (vec [1]%Z 0) /\
  ~ invariant {| Vector.data_ :=
                   {| RawMemory.buffer_ := [@None Z];
                      RawMemory.capacity_ := 1 |};
                 Vector.size_ := 1 |}.
Proof.
  split; [reflexivity|]. split; [apply invariant_vec|].
  intros (_ & _ & Hlive & _). destruct (Hlive 0) as [x Hx]; [cbn; lia|].
  discriminate.
Qed.

(** C10 on an empty vector with capacity 2. *)
Lemma PopBack_empty_noop_witness :
  Vector.PopBack (vec [] 2) = ([], Normal (vec (T:=Z) [] 2)).
Proof. apply (PopBack_empty_noop (vec [] 2)). reflexivity. Defined.

End Examples.

(** * Further properties of the member functions *)

Section Further.
Context {T : Type} {ET : Element T} {AL : Allocator}.
Implicit Types (v w : Vector.t T) (xs ys : list T).

(** the exact log of [uninitialized_copy_n] when a copy throws *)
Lemma uninitialized_copy_n_throw_log ys x zs spost :
  Forall (fun y => copy_throws y = false) ys ->
  copy_throws x = true ->
  uninitialized_copy_n ((Some <$> ys ++ x :: zs) ++ spost) 0
    (length (ys ++ x :: zs)) (replicate (length (ys ++ x :: zs)) None) 0
  = ((CopyCtor <$> ys ++ [x]) ++ (Destroy <$> ys),
     Throws elem_failure
       ((Some <$> ys ++ x :: zs) ++ spost,
        replicate (length (ys ++ x :: zs)) None)).
Proof.
  intros HF Hx. unfold uninitialized_copy_n.
  pose proof (copy_construct_loop_throw ys x zs [] spost [] [] HF Hx) as E.
  cbn [app length] in E. rewrite !app_nil_r in E. rewrite E. run.
  rewrite Nat.sub_0_r.
  pose proof (destroy_n_live
                (St:=list (option T) * list (option T)) ys []
                (replicate (length (x :: zs)) None)) as D.
  cbn [app length] in D. cbn [length].
  change (0 + length ys) with (length ys). rewrite D. run.
  rewrite app_nil_r. do 3 f_equal.
  rewrite length_app. cbn [length]. by rewrite <- replicate_add.
Qed.

(** X1.  The copy constructor, when it returns, gives a vector with the
    contents of the source in the same order, whose capacity is the size of
    the source (not its capacity); it performs one allocation (none for an
    empty source) and one copy construction per element, and it returns
    normally whenever the allocation succeeds and no copy throws. *)
Theorem copy_constructor_spec v :
  invariant v ->
  (forall l v', Vector.copy v = (l, Normal v') ->
     contents v' = contents v /\ Vector.Size v' = Vector.Size v /\
     Vector.Capacity v' = Vector.Size v /\ invariant v') /\
  (Vector.Size v = 0 \/ alloc_fails (Vector.Size v) = false ->
   Forall (fun x => copy_throws x = false) (contents v) ->
   Vector.copy v
   = (alloc_events (Vector.Size v) ++ (CopyCtor <$> contents v),
      Normal (vec (contents v) 0))).
Proof.
  intros (xs & spare & ->)%invariant_iff. rewrite contents_vec, Size_vec.
  split.
  - intros l v' ->%copy_normal.
    rewrite contents_vec, Size_vec, Capacity_vec.
    split; [done|]. split; [done|]. split; [lia | apply invariant_vec].
  - intros Ha HF. by apply copy_returns.
Qed.

(** X2.  When the copy of an element throws inside the copy constructor,
    the exception propagates after the copies made so far have been
    destroyed, each once, and the block is released with no object left
    in it. *)
Theorem copy_constructor_throw_cleans_up v ys x zs :
  invariant v ->
  contents v = ys ++ x :: zs ->
  Forall (fun y => copy_throws y = false) ys ->
  copy_throws x = true ->
  alloc_fails (Vector.Size v) = false ->
  Vector.copy v
  = (Alloc (Vector.Size v) :: (CopyCtor <$> ys ++ [x]) ++ (Destroy <$> ys)
       ++ [Dealloc []],
     Throws elem_failure tt).
Proof.
  intros (xs & spare & ->)%invariant_iff. rewrite contents_vec, Size_vec.
  intros -> HF Hx Ha. unfold Vector.copy. open_op.
  assert (Hn : length (ys ++ x :: zs) <> 0)
    by (rewrite length_app; cbn; lia).
  rewrite make_ok by auto. run. cbn [RawMemory.GetAddress RawMemory.buffer_].
  unfold slots at 1. rewrite uninitialized_copy_n_throw_log by done. run.
  rewrite dtor_raw. run. rewrite free_events_pos by done.
  unfold alloc_events. destruct (length (ys ++ x :: zs)); [done|].
  cbn [Nat.eqb app]. by rewrite <- app_assoc.
Qed.


(** X20.  The destructor of a vector destroys every element once, in
    order, and releases the block with no object left in it; it never
    throws and never touches a slot beyond [size_]. *)
Theorem destructor_spec v :
  invariant v ->
  Vector.dtor v
  = ((Destroy <$> contents v) ++ free_events (Vector.Capacity v), Normal tt).
Proof.
  intros (xs & spare & ->)%invariant_iff.
  rewrite contents_vec, Capacity_vec.
  unfold Vector.dtor. open_op. rewrite destroy_n_front by done. run.
  by rewrite dtor_raw.
Qed.

(** X4.  Copy assignment from the vector itself does nothing.  From
    another vector, when it returns, the contents and the size are those of
    the source; the capacity is kept when it was sufficient and is the size
    of the source otherwise. *)
Theorem copy_assignment_spec v w :
  invariant v -> invariant w ->
  Vector.assign v None = ([], Normal v) /\
  (forall l v', Vector.assign v (Some w) = (l, Normal v') ->
     contents v' = contents w /\ Vector.Size v' = Vector.Size w /\
     Vector.Capacity v'
     = (if Vector.Capacity v <? Vector.Size w then Vector.Size w
        else Vector.Capacity v) /\
     invariant v').
Proof.
  intros (xs & spare & ->)%invariant_iff (ys & s2 & ->)%invariant_iff.
  split; [done|]. intros l v' ->%assign_normal.
  rewrite !contents_vec, !Size_vec, !Capacity_vec.
  split; [done|]. split; [done|]. split; [|apply invariant_vec].
  destruct (length xs + spare <? length ys) eqn:Hc; [lia|].
  apply Nat.ltb_ge in Hc. lia.
Qed.

(** X6.  Copy assignment that has to reallocate (the source is larger than
    the capacity) gives the strong guarantee: whatever exception leaves
    it, the vector is exactly as it was. *)
Theorem copy_assignment_realloc_strong v w l e s :
  invariant v -> invariant w ->
  Vector.Capacity v < Vector.Size w ->
  Vector.assign v (Some w) = (l, Throws e s) ->
  s = v.
Proof.
  intros (xs & spare & ->)%invariant_iff (ys & s2 & ->)%invariant_iff Hc.
  unfold Vector.assign.
  replace (Vector.Capacity (vec xs spare) <? Vector.size_ (vec ys s2))
    with true by (symmetry; by apply Nat.ltb_lt).
  destruct (Vector.copy (vec ys s2)) as [l' [temp|e' s'|]] eqn:Ecopy; run.
  - apply copy_normal in Ecopy as ->.
    cbn [Vector.Swap RawMemory.Swap vec Vector.data_ Vector.size_
         RawMemory.buffer_ RawMemory.capacity_].
    change {| Vector.data_ :=
                {| RawMemory.buffer_ := slots xs spare;
                   RawMemory.capacity_ := length xs + spare |};
              Vector.size_ := length xs |} with (vec xs spare).
    destruct (dtor_vec xs spare) as [l'' ->]. by run.
  - by intros [= _ _ <-].
  - done.
Qed.

(** X5.  Copy assignment into sufficient capacity never allocates: it
    copy-assigns over the common prefix, then copy-constructs the
    remaining elements of the source into the spare slots, or destroys the
    surplus elements of the target; the capacity is unchanged. *)
Theorem copy_assignment_in_place v w :
  invariant v -> invariant w ->
  Vector.Size w <= Vector.Capacity v ->
  Forall (fun x => copy_assign_throws x = false)
    (take (Vector.Size v) (contents w)) ->
  Forall (fun x => copy_throws x = false)
    (drop (Vector.Size v) (contents w)) ->
  Vector.assign v (Some w)
  = ((CopyAssign <$> take (Vector.Size v) (contents w))
       ++ (CopyCtor <$> drop (Vector.Size v) (contents w))
       ++ (Destroy <$> drop (Vector.Size w) (contents v)),
     Normal (vec (contents w) (Vector.Capacity v - Vector.Size w))).
Proof.
  intros (xs & spare & ->)%invariant_iff (ys & s2 & ->)%invariant_iff.
  rewrite !contents_vec, !Size_vec, !Capacity_vec. intros Hle HFa HFc.
  unfold Vector.assign. rewrite Capacity_vec.
  change (Vector.size_ (vec ys s2)) with (length ys).
  replace (length xs + spare <? length ys) with false
    by (symmetry; apply Nat.ltb_ge; lia).
  unfold Vector.AssignFromSmaller. open_op.
  set (c := length xs `min` length ys).
  assert (Hcx : length (take c xs) = c) by (rewrite length_take; lia).
  assert (Hcy : length (take c ys) = c) by (rewrite length_take; lia).
  assert (Htake : take (length xs) ys = take c ys).
  { destruct (decide (length xs <= length ys)).
    - by replace c with (length xs) by lia.
    - rewrite !take_ge by lia. done. }
  rewrite Htake in *.
  replace (slots ys s2)
    with ([] ++ (Some <$> take c ys)
             ++ ((Some <$> drop c ys) ++ replicate s2 None)).
  2:{ unfold slots. cbn [app].
      by rewrite app_assoc, <- fmap_app, take_drop. }
  replace (slots xs spare)
    with ([] ++ (Some <$> take c xs)
             ++ ((Some <$> drop c xs) ++ replicate spare None)) at 1.
  2:{ unfold slots. cbn [app].
      by rewrite app_assoc, <- fmap_app, take_drop. }
  pose proof (copy_n_ok (take c ys) (take c xs) []
                ((Some <$> drop c ys) ++ replicate s2 None) []
                ((Some <$> drop c xs) ++ replicate spare None)) as E.
  rewrite Hcy in E. cbn [length] in E. rewrite E by (congruence || done).
  run. clear E. cbn [app].
  destruct (decide (length xs < length ys)) as [Hlt|Hge].
  - replace (length xs <? length ys) with true
      by (symmetry; by apply Nat.ltb_lt).
    assert (c = length xs) as Hc by lia.
    rewrite (drop_ge xs (length ys)), (drop_ge xs c) by lia.
    rewrite <- Hc in HFc |- *.
    cbn [fmap list_fmap app].
    replace spare
      with ((length ys - c) + (spare - (length ys - c))) at 1 by lia.
    rewrite replicate_add.
    pose proof (uninitialized_copy_n_ok (drop c ys)
                  (Some <$> take c ys) (replicate s2 None)
                  (Some <$> take c ys)
                  (replicate (spare - (length ys - c)) None) HFc) as E.
    rewrite length_fmap, Hcy, length_drop in E. rewrite E. run.
    unfold RawMemory.with_contents. cbn [RawMemory.capacity_].
    apply normal_vec_eq; vec_side.
    unfold slots. rewrite app_assoc, <- fmap_app, take_drop.
    do 2 f_equal. lia.
  - replace (length xs <? length ys) with false
      by (symmetry; apply Nat.ltb_ge; lia).
    assert (c = length ys) as Hc by lia.
    rewrite Hc, (take_ge ys), (drop_ge ys (length xs)) by lia.
    pose proof (destroy_n_live (St:=Vector.t T) (drop (length ys) xs)
                  (Some <$> ys) (replicate spare None)) as E.
    rewrite length_fmap, length_drop in E. rewrite E. run.
    unfold RawMemory.with_contents. cbn [RawMemory.capacity_].
    apply normal_vec_eq; vec_side.
    unfold slots. rewrite <- replicate_add. do 2 f_equal. lia.
Qed.


(** X7.  After [Resize(n)] returns, the size is [n], the first
    [min(n, old size)] elements are the old ones in order, every element
    beyond the old size is a value-initialised [T()], and the capacity is
    unchanged whenever it was at least [n]. *)
Theorem Resize_postcondition v n l v' :
  invariant v ->
  Vector.Resize v n = (l, Normal v') ->
  Vector.Size v' = n /\ invariant v' /\
  (n <= Vector.Capacity v -> Vector.Capacity v' = Vector.Capacity v) /\
  exists ys,
    contents v' = take n (contents v) ++ ys /\
    length ys = n - Vector.Size v /\
    Forall (fun y => value_init = Some y) ys.
Proof.
  intros (xs & spare & ->)%invariant_iff
    (ys & Hl & HF & -> & _)%Resize_normal.
  rewrite !contents_vec, !Size_vec, !Capacity_vec.
  split; [rewrite length_app, length_take; lia|].
  split; [apply invariant_vec|]. split; [|by exists ys].
  intros Hn. replace (length xs + spare <? n) with false
    by (symmetry; apply Nat.ltb_ge; lia).
  rewrite length_app, length_take. lia.
Qed.

(** X8.  [Resize(n)] with [n] at most the size never throws and never
    allocates: it destroys exactly the elements from index [n] on, keeps
    the first [n] and leaves the capacity unchanged ([Resize(0)] empties
    the vector, [Resize(size)] does nothing). *)
Theorem Resize_shrink_spec v n :
  invariant v ->
  n <= Vector.Size v ->
  Vector.Resize v n
  = (Destroy <$> drop n (contents v),
     Normal (vec (take n (contents v)) (Vector.Capacity v - n))).
Proof.
  intros (xs & spare & ->)%invariant_iff.
  rewrite contents_vec, Size_vec, Capacity_vec. intros Hn.
  destruct (decide (n = length xs)) as [->|Hne].
  - rewrite Resize_same, drop_all, firstn_all. unfold ret. do 3 f_equal. lia.
  - rewrite Resize_shrink by lia. do 3 f_equal. lia.
Qed.



(** X19.  [PopBack] on a non-empty vector never throws: it destroys the
    last element and nothing else, the other elements stay in place and
    the capacity is unchanged. *)
Theorem PopBack_nonempty_spec v :
  invariant v ->
  Vector.Size v <> 0 ->
  exists x,
    last (contents v) = Some x /\
    Vector.PopBack v
    = ([Destroy x],
       Normal (vec (take (Vector.Size v - 1) (contents v))
                 (Vector.Capacity v - (Vector.Size v - 1)))).
Proof.
  intros (xs & spare & ->)%invariant_iff.
  rewrite contents_vec, Size_vec, Capacity_vec. intros Hn.
  destruct xs as [|x xs _] using rev_ind; [done|]. exists x.
  rewrite last_snoc, PopBack_snoc, length_app. cbn [length].
  replace (length xs + 1 - 1) with (length xs) by lia.
  rewrite take_app_length. split; [done|]. do 3 f_equal. lia.
Qed.

(** X18.  [PushBack(x)] followed by [PopBack] gives back the contents the
    vector had; [PopBack] destroys exactly the element just added and keeps
    the capacity that [PushBack] left. *)
Theorem PushBack_then_PopBack v x l1 v1 :
  invariant v ->
  Vector.PushBack v x = (l1, Normal v1) ->
  exists v2,
    Vector.PopBack v1 = ([Destroy x], Normal v2) /\
    contents v2 = contents v /\ Vector.Size v2 = Vector.Size v /\
    Vector.Capacity v2 = Vector.Capacity v1.
Proof.
  intros (xs & spare & ->)%invariant_iff [i E]%PushBack_normal.
  apply EmplaceBack_normal in E as (y & Hy & _ & -> & _).
  assert (y = x) as ->.
  { cbn in Hy. by destruct (copy_throws x); [|injection Hy]. }
  rewrite PopBack_snoc. eexists. split; [done|].
  rewrite !contents_vec, !Size_vec, !Capacity_vec, length_app.
  cbn [length]. repeat split; lia.
Qed.

(** X11.  [EmplaceBack] with spare capacity performs no allocation and
    relocates nothing: the only operation is the construction of the new
    element at index [size]; the capacity is unchanged, and if the
    constructor throws the vector is exactly as it was. *)
Theorem EmplaceBack_in_place v args :
  invariant v ->
  Vector.Size v < Vector.Capacity v ->
  Vector.EmplaceBack v args
  = ([init_event args],
     match init_value args with
     | Some x =>
         Normal (vec (contents v ++ [x])
                   (Vector.Capacity v - Vector.Size v - 1),
                 Vector.Size v)
     | None => Throws elem_failure v
     end).
Proof.
  intros (xs & spare & ->)%invariant_iff.
  rewrite contents_vec, Size_vec, Capacity_vec. intros Hn.
  destruct spare as [|spare]; [lia|]. rewrite EmplaceBack_spare.
  destruct (init_value args); [|done]. do 4 f_equal. lia.
Qed.




(** X14.  After [Erase(pos)] returns, the element at [pos] is gone, the
    elements before and after it keep their order, the returned iterator
    is [pos], the size is one less and the capacity is unchanged. *)
Theorem Erase_postcondition v pos l v' p :
  invariant v ->
  Vector.Erase v pos = (l, Normal (v', p)) ->
  p = pos /\ (Vector.begin v <= pos < Vector.end_ v)%Z /\ invariant v' /\
  contents v'
  = take (Z.to_nat pos) (contents v) ++ drop (S (Z.to_nat pos)) (contents v)
  /\ Vector.Size v' = Vector.Size v - 1 /\
  Vector.Capacity v' = Vector.Capacity v.
Proof.
  intros (xs & spare & ->)%invariant_iff (Hpos & -> & ->)%Erase_normal.
  rewrite !contents_vec, !Size_vec, !Capacity_vec.
  split; [done|]. split; [by unfold Vector.begin, Vector.end_|].
  split; [apply invariant_vec|]. split; [done|].
  rewrite length_app, length_take, length_drop. lia.
Qed.


(** X16.  [Emplace(end(), args...)] does exactly what [EmplaceBack(args...)]
    does: the same operations in the same order, the same vector
    afterwards and the same outcome, also when an exception is thrown;
    the iterator returned is the one of the index [EmplaceBack] reports. *)
Theorem Emplace_at_end_is_EmplaceBack v args :
  invariant v ->
  Vector.Emplace v (Vector.end_ v) args
  = match Vector.EmplaceBack v args with
    | (l, Normal (v', i)) => (l, Normal (v', Z.of_nat i))
    | (l, Throws e s) => (l, Throws e s)
    | (l, Fault) => (l, Fault)
    end.
Proof.
  intros (xs & spare & ->)%invariant_iff. destruct spare as [|spare].
  2:{ unfold Vector.end_. cbn [vec Vector.size_].
      rewrite Emplace_spare_end, EmplaceBack_spare.
      by destruct (init_value args). }
  unfold Vector.Emplace, Vector.EmplaceBack, Vector.begin, Vector.end_.
  open_op.
  replace ((Z.of_nat (length xs) <? 0)%Z
           || (Z.of_nat (length xs) >? Z.of_nat (length xs))%Z) with false.
  2:{ symmetry. apply orb_false_iff. rewrite Z.ltb_ge, Z.gtb_ltb, Z.ltb_ge.
      lia. }
  rewrite Z.sub_0_r, Nat2Z.id, Nat.add_0_r, Nat.eqb_refl, Nat.ltb_irrefl.
  rewrite Nat.sub_diag.
  destruct (RawMemory.make _ _) as [l0 [newData|e s|]]; run; [|done..].
  destruct (is_nothrow_move_constructible || negb is_copy_constructible).
  - destruct (unwind (uninitialized_move_n _ _ _ _ _) _)
      as [l1 [[old new]|e s|]]; run; [|done..].
    destruct (unwind (construct _ _) _) as [l2 [x|e s|]]; run; [|done..].
    destruct (place new (length xs) x) as [l3 [new'|e s|]]; run; [|done..].
    unfold uninitialized_move_n. cbn [move_construct_loop]. run.
    destruct (destroy_n old 0 (length xs)) as [l4 [old'|e s|]]; run;
      [|done..].
    by destruct (RawMemory.dtor _) as [l5 [[]|e s|]]; run.
  - destruct (unwind (uninitialized_copy_n _ _ _ _ _) _)
      as [l1 [[old new]|e s|]]; run; [|done..].
    destruct (unwind (construct _ _) _) as [l2 [x|e s|]]; run; [|done..].
    destruct (place new (length xs) x) as [l3 [new'|e s|]]; run; [|done..].
    unfold uninitialized_copy_n. cbn [copy_construct_loop]. run.
    destruct (destroy_n old 0 (length xs)) as [l4 [old'|e s|]]; run;
      [|done..].
    by destruct (RawMemory.dtor _) as [l5 [[]|e s|]]; run.
Qed.

(** X17.  [Erase] at the last element does what [PopBack] does, the same
    single destructor call and the same vector afterwards, and returns the
    new [end()]. *)
Theorem Erase_last_is_PopBack v :
  invariant v ->
  Vector.Size v <> 0 ->
  exists l v',
    Vector.PopBack v = (l, Normal v') /\
    Vector.Erase v (Vector.end_ v - 1) = (l, Normal (v', Vector.end_ v')).
Proof.
  intros (xs & spare & ->)%invariant_iff. rewrite Size_vec. intros Hn.
  destruct xs as [|x ys _] using rev_ind; [done|].
  rewrite PopBack_snoc. do 2 eexists. split; [done|].
  unfold Vector.Erase, Vector.begin, Vector.end_. open_op.
  rewrite length_app. cbn [length].
  replace ((Z.of_nat (length ys + 1) - 1 <? 0)%Z
           || (Z.of_nat (length ys + 1) - 1
               >=? Z.of_nat (length ys + 1))%Z) with false.
  2:{ symmetry. apply orb_false_iff. rewrite Z.ltb_ge, Z.geb_leb, Z.leb_gt.
      lia. }
  rewrite Z.sub_0_r.
  replace (Z.to_nat (Z.of_nat (length ys + 1) - 1)) with (length ys) by lia.
  replace (length ys + 1 - (length ys + 1)) with 0 by lia.
  cbn [Vector.Erase_loop]. run.
  unfold slots. rewrite fmap_app, <- app_assoc. cbn [fmap list_fmap app].
  rewrite destroy_at_mid by (rewrite length_fmap; lia). run.
  unfold RawMemory.with_contents. cbn [RawMemory.capacity_].
  apply normal_vec_pair_eq; vec_side.
Qed.

(** X23.  [operator[](i)] yields element [i] of the contents when [i] is
    below the size, without any other effect; for any other [i] its
    [assert] fails. *)
Theorem index_spec v i :
  invariant v ->
  Vector.index (St:=unit) v i
  = match contents v !! i with
    | Some x => ret x
    | None => fault
    end.
Proof.
  intros (xs & spare & ->)%invariant_iff. rewrite contents_vec.
  destruct (xs !! i) as [x|] eqn:Hi; [by apply index_vec|].
  apply lookup_ge_None in Hi. unfold Vector.index. cbn [vec Vector.size_].
  by replace (i <? length xs) with false by (symmetry; apply Nat.ltb_ge; lia).
Qed.

(** ** What a failed call leaves behind *)








(** ** No undefined behaviour *)










(** ** Growth over a sequence of [PushBack]s *)

Lemma length_relocation_events xs :
  length (relocation_events xs) = length xs.
Proof. unfold relocation_events. by destruct relocates_by_move;
  rewrite length_fmap. Qed.

Lemma PushBack_step ys spare x l v :
  Vector.PushBack (vec ys spare) x = (l, Normal v) ->
  v = vec (ys ++ [x])
        (if spare =? 0 then doubled (length ys) - S (length ys)
         else spare - 1) /\
  length (ctor_events l) = if spare =? 0 then S (length ys) else 1.
Proof.
  intros [i E]%PushBack_normal. destruct spare as [|spare].
  - apply EmplaceBack_normal in E as (y & Hy & _ & -> & Hl).
    assert (y = x) as ->.
    { cbn in Hy. by destruct (copy_throws x); [|injection Hy]. }
    split; [done|]. rewrite Hl by done. cbn [Nat.eqb].
    rewrite ctor_events_alloc, ctor_events_app, ctor_events_relocation.
    rewrite ctor_events_init, ctor_events_app, ctor_events_destroy.
    rewrite ctor_events_free, length_app, length_relocation_events.
    cbn [length app]. lia.
  - rewrite EmplaceBack_spare in E. cbn [init_value init_event] in E.
    destruct (copy_throws x); [done|]. injection E as <- <- _.
    cbn [Nat.eqb]. split; [f_equal; lia|done].
Qed.

Lemma PushBack_all_grows xs : forall ys spare k l v,
  length ys + spare = 2 ^ k ->
  2 ^ k < 2 * length ys ->
  PushBack_all (vec ys spare) xs = (l, Normal v) ->
  exists k',
    v = vec (ys ++ xs) (2 ^ k' - length (ys ++ xs)) /\
    length (ys ++ xs) <= 2 ^ k' < 2 * length (ys ++ xs) /\
    length (ctor_events l) + 2 ^ k = length xs + 2 ^ k'.
Proof.
  induction xs as [|x xs IH]; intros ys spare k l v Hcap Hlt.
  { intros [= <- <-]. exists k. rewrite app_nil_r. cbn [length ctor_events
      List.filter]. split; [f_equal; lia|lia]. }
  cbn [PushBack_all].
  destruct (Vector.PushBack (vec ys spare) x) as [l1 [v1|e s|]] eqn:E1; run;
    try done.
  apply PushBack_step in E1 as [-> Hl1].
  destruct (PushBack_all _ xs) as [l2 r2] eqn:E2. intros [= <- ->].
  rewrite ctor_events_app, (length_app (ctor_events l1)), Hl1.
  destruct spare as [|spare]; cbn [Nat.eqb] in *.
  - assert (Hd : doubled (length ys) = 2 ^ S k).
    { rewrite Nat.pow_succ_r'. unfold doubled.
      destruct (length ys) eqn:Hy; cbn [Nat.eqb]; lia. }
    rewrite Hd in E2.
    apply (IH _ _ (S k)) in E2 as (k' & -> & Hb & Hc).
    + exists k'. rewrite <- app_assoc in *. cbn [app length] in *.
      split; [done|]. split; [done|].
      rewrite Nat.pow_succ_r' in Hc. lia.
    + rewrite length_app, Nat.pow_succ_r'. cbn [length]. lia.
    + rewrite length_app, Nat.pow_succ_r'. cbn [length]. lia.
  - apply (IH _ _ k) in E2 as (k' & -> & Hb & Hc).
    + exists k'. rewrite <- app_assoc in *. cbn [app length] in *.
      split; [done|]. split; [done|]. lia.
    + rewrite length_app. cbn [length]. lia.
    + rewrite length_app. cbn [length]. lia.
Qed.

(** X22.  Appending the elements [xs] one by one to an empty vector with
    [PushBack] gives a vector with contents [xs] whose capacity is a power
    of two, at least the size and less than twice the size; over the whole
    sequence the constructors of [T] are called [size + capacity - 1]
    times, fewer than three per element. *)
Theorem PushBack_amortized xs l v :
  xs <> [] ->
  PushBack_all Vector.default xs = (l, Normal v) ->
  contents v = xs /\ invariant v /\
  (exists k, Vector.Capacity v = 2 ^ k) /\
  length xs <= Vector.Capacity v < 2 * length xs /\
  length (ctor_events l) + 1 = length xs + Vector.Capacity v /\
  length (ctor_events l) < 3 * length xs.
Proof.
  destruct xs as [|x xs]; [done|]. intros _.
  change (Vector.default (T:=T)) with (vec (T:=T) [] 0).
  cbn [PushBack_all].
  destruct (Vector.PushBack (vec [] 0) x) as [l1 [v1|e s|]] eqn:E1; run;
    try done.
  apply PushBack_step in E1 as [-> Hl1]. cbn in Hl1.
  destruct (PushBack_all _ xs) as [l2 r2] eqn:E2. intros [= <- ->].
  apply (PushBack_all_grows xs [x] 0 0) in E2 as (k' & -> & Hb & Hc);
    [|done|cbn; lia].
  rewrite contents_vec, Capacity_vec, ctor_events_app.
  rewrite (length_app (ctor_events l1)), Hl1.
  cbn [app length Nat.pow] in *.
  split; [done|]. split; [apply invariant_vec|].
  split; [exists k'; lia|]. lia.
Qed.

(** ** Moves, swaps and the raw block *)

(** X26.  Move assignment and [Swap] exchange the two vectors and do
    nothing else: no element is constructed, assigned or destroyed and no
    memory is allocated or released, the source is left holding what the
    target held, and the target's old elements are destroyed only when
    the source is; self-assignment does nothing. *)
Theorem move_assignment_exchanges v w :
  invariant v ->
  Vector.move_assign v (Some w) = (w, Some v) /\
  Vector.move_assign v None = (v, None) /\
  Vector.Swap v w = (w, v) /\
  forall w',
    (Vector.move_assign v (Some w)).2 = Some w' ->
    Vector.dtor w'
    = ((Destroy <$> contents v) ++ free_events (Vector.Capacity v),
       Normal tt).
Proof.
  intros (xs & spare & ->)%invariant_iff.
  assert (HS : Vector.Swap (vec xs spare) w = (w, vec xs spare))
    by by destruct w as [[b c] n].
  unfold Vector.move_assign. rewrite HS.
  split; [done|]. split; [done|]. split; [done|].
  intros w' [= <-]. rewrite contents_vec, Capacity_vec.
  unfold Vector.dtor. open_op. rewrite destroy_n_front by done. run.
  by rewrite dtor_raw.
Qed.


(** ** Accounting for objects *)

Implicit Types (l mid : list (event T)).

Lemma balanced_nil n : balanced (T:=T) [] n n.
Proof. by split. Qed.

Lemma balanced_app l1 l2 n m k :
  balanced l1 n m -> balanced l2 m k -> balanced (l1 ++ l2) n k.
Proof.
  unfold balanced, ctor_events, dtor_events. intros [H1 F1] [H2 F2].
  rewrite !List.filter_app, !length_app. split; [lia|].
  apply Forall_app. by split.
Qed.

Lemma balanced_cons_ctor (e : event T) l n m :
  is_ctor e = true -> balanced l (S n) m -> balanced (e :: l) n m.
Proof.
  unfold balanced, ctor_events, dtor_events. intros He [H F].
  cbn [List.filter]. rewrite He.
  assert (is_dtor e = false) as -> by by destruct e.
  cbn [length]. split; [lia|]. constructor; [by destruct e|done].
Qed.

Lemma balanced_cons_dtor x l n m :
  balanced l n m -> balanced (Destroy x :: l) (S n) m.
Proof.
  unfold balanced, ctor_events, dtor_events. intros [H F].
  cbn [List.filter is_ctor is_dtor length]. split; [lia|].
  by constructor.
Qed.

Lemma balanced_cons_other (e : event T) l n m :
  is_ctor e = false -> is_dtor e = false -> leaks e = false ->
  balanced l n m -> balanced (e :: l) n m.
Proof.
  unfold balanced, ctor_events, dtor_events. intros Hc Hd Hl [H F].
  cbn [List.filter]. rewrite Hc, Hd. split; [done|]. by constructor.
Qed.

Lemma balanced_init (a : init) l n m :
  balanced l (S n) m -> balanced (init_event a :: l) n m.
Proof. apply balanced_cons_ctor. by destruct a. Qed.

Lemma balanced_relocation xs n :
  balanced (relocation_events xs) n (n + length xs).
Proof.
  unfold relocation_events. revert n.
  induction xs as [|x xs IH]; intros n.
  { destruct relocates_by_move; cbn [fmap list_fmap length];
      rewrite Nat.add_0_r; apply balanced_nil. }
  specialize (IH (S n)). cbn [length].
  replace (n + S (length xs)) with (S n + length xs) by lia.
  destruct relocates_by_move; cbn [fmap list_fmap];
    by apply balanced_cons_ctor.
Qed.

Lemma balanced_destroy xs n : balanced (Destroy <$> xs) (n + length xs) n.
Proof.
  induction xs as [|x xs IH]; cbn [fmap list_fmap length].
  { rewrite Nat.add_0_r. apply balanced_nil. }
  replace (n + S (length xs)) with (S (n + length xs)) by lia.
  by apply balanced_cons_dtor.
Qed.

Lemma balanced_value k n :
  balanced (replicate k (ValueCtor (T:=T))) n (n + k).
Proof.
  revert n. induction k as [|k IH]; intros n; cbn [replicate].
  { rewrite Nat.add_0_r. apply balanced_nil. }
  apply balanced_cons_ctor; [done|].
  replace (n + S k) with (S n + k) by lia. apply IH.
Qed.

Lemma balanced_move_assign xs n : balanced (MoveAssign <$> xs) n n.
Proof.
  induction xs as [|x xs IH]; cbn [fmap list_fmap]; [apply balanced_nil|].
  by apply balanced_cons_other.
Qed.

Lemma balanced_free c n : balanced (free_events (T:=T) c) n n.
Proof.
  unfold free_events. destruct (c =? 0); [apply balanced_nil|].
  by apply balanced_cons_other.
Qed.

Lemma balanced_alloc c n : balanced (alloc_events (T:=T) c) n n.
Proof.
  unfold alloc_events. destruct (c =? 0); [apply balanced_nil|].
  by apply balanced_cons_other.
Qed.

Lemma balanced_copies xs n : balanced (CopyCtor <$> xs) n (n + length xs).
Proof.
  revert n. induction xs as [|x xs IH]; intros n; cbn [fmap list_fmap length].
  { rewrite Nat.add_0_r. apply balanced_nil. }
  apply balanced_cons_ctor; [done|].
  replace (n + S (length xs)) with (S n + length xs) by lia. apply IH.
Qed.

Lemma balanced_realloc c xs mid c' n m :
  balanced mid (n + length xs) (m + length xs) ->
  balanced (Alloc c :: relocation_events xs ++ mid
              ++ (Destroy <$> relocated_from xs) ++ free_events c') n m.
Proof.
  intros Hmid. apply balanced_cons_other; try done.
  eapply balanced_app; [apply balanced_relocation|].
  eapply balanced_app; [apply Hmid|].
  eapply balanced_app; [|apply balanced_free].
  pose proof (balanced_destroy (relocated_from xs) m) as H.
  by rewrite length_relocated_from in H.
Qed.

Lemma Reserve_balanced xs spare n l v' :
  Vector.Reserve (vec xs spare) n = (l, Normal v') ->
  balanced l (length xs) (Vector.Size v').
Proof.
  destruct (decide (n <= length xs + spare)) as [Hn|Hn].
  { rewrite Reserve_noop by done. intros [= <- <-]. apply balanced_nil. }
  intros [-> ->]%Reserve_normal; [|lia]. rewrite Size_vec.
  apply (balanced_realloc _ xs []), balanced_nil.
Qed.

Lemma Resize_balanced xs spare n l v' :
  Vector.Resize (vec xs spare) n = (l, Normal v') ->
  balanced l (length xs) (Vector.Size v').
Proof.
  destruct (decide (n < length xs)) as [Hlt|Hge].
  { rewrite Resize_shrink by done. intros [= <- <-].
    rewrite Size_vec, length_take.
    pose proof (balanced_destroy (drop n xs) n) as H.
    rewrite length_drop in H.
    replace (n + (length xs - n)) with (length xs) in H by lia.
    by replace (n `min` length xs) with n by lia. }
  destruct (decide (n = length xs)) as [->|Hne].
  { rewrite Resize_same. intros [= <- <-]. apply balanced_nil. }
  destruct (decide (n <= length xs + spare)) as [Hle|Hgt].
  - destruct value_init as [d|] eqn:Hd.
    2:{ by rewrite Resize_within_throw by (done || lia). }
    rewrite (Resize_within_ok d) by (done || lia). intros [= <- <-].
    rewrite Size_vec, length_app, length_replicate. apply balanced_value.
  - intros E. pose proof E as (ys & Hl & _ & -> & Hlog)%Resize_normal.
    rewrite Hlog by lia. rewrite Size_vec, length_app, take_ge, Hl by lia.
    apply balanced_realloc.
    pose proof (balanced_value (n - length xs) (length xs + length xs)) as H.
    by replace (length xs + length xs + (n - length xs))
      with (length xs + (n - length xs) + length xs) in H by lia.
Qed.

Lemma EmplaceBack_balanced xs spare args l v' i :
  Vector.EmplaceBack (vec xs spare) args = (l, Normal (v', i)) ->
  balanced l (length xs) (Vector.Size v').
Proof.
  destruct spare as [|spare].
  - intros (x & _ & _ & -> & Hlog)%EmplaceBack_normal. rewrite Hlog by done.
    rewrite Size_vec, length_app. cbn [length].
    apply (balanced_realloc _ xs [init_event args]).
    apply balanced_init.
    replace (length xs + 1 + length xs) with (S (length xs + length xs))
      by lia.
    apply balanced_nil.
  - rewrite EmplaceBack_spare. destruct (init_value args); [|done].
    intros [= <- <- _]. rewrite Size_vec, length_app. cbn [length].
    apply balanced_init. rewrite Nat.add_1_r. apply balanced_nil.
Qed.

Lemma PopBack_balanced xs spare l v' :
  Vector.PopBack (vec xs spare) = (l, Normal v') ->
  balanced l (length xs) (Vector.Size v').
Proof.
  destruct xs as [|x xs _] using rev_ind.
  - rewrite PopBack_empty by done. intros [= <- <-]. apply balanced_nil.
  - rewrite PopBack_snoc. intros [= <- <-]. rewrite Size_vec, length_app.
    cbn [length]. rewrite Nat.add_1_r.
    apply balanced_cons_dtor, balanced_nil.
Qed.

Lemma Erase_balanced xs spare pos l v' p :
  Vector.Erase (vec xs spare) pos = (l, Normal (v', p)) ->
  balanced l (length xs) (Vector.Size v').
Proof.
  destruct (decide (0 <= pos < Z.of_nat (length xs))%Z) as [Hp|Hp].
  2:{ by rewrite Erase_out_of_range
        by (unfold Vector.begin, Vector.end_; cbn; lia). }
  destruct (lookup_lt_is_Some_2 xs (Z.to_nat pos)) as [y Hy]; [lia|].
  pose proof (take_drop_middle _ _ _ Hy) as Hxs.
  set (pre := take (Z.to_nat pos) xs) in *.
  set (suf := drop (S (Z.to_nat pos)) xs) in *.
  assert (Hpos : pos = Z.of_nat (length pre)).
  { unfold pre. rewrite length_take. lia. }
  rewrite <- Hxs, Hpos.
  destruct (decide (Forall (fun x => move_assign_throws x = false) suf))
    as [HF|HF].
  2:{ by destruct (Erase_throw pre y suf spare HF) as (l' & s & ->). }
  destruct (Erase_ok pre y suf spare HF) as [z ->]. intros [= <- <- _].
  rewrite Size_vec, !length_app. cbn [length].
  eapply balanced_app; [apply balanced_move_assign|].
  replace (length pre + S (length suf)) with (S (length pre + length suf))
    by lia.
  apply balanced_cons_dtor, balanced_nil.
Qed.

Lemma Emplace_balanced xs spare pos args l v' p :
  Vector.Emplace (vec xs spare) pos args = (l, Normal (v', p)) ->
  balanced l (length xs) (Vector.Size v').
Proof.
  destruct spare as [|spare].
  { intros (Hp & _ & x & _ & -> & Hlog)%Emplace_normal. rewrite Hlog by done.
    rewrite Size_vec, length_app, length_take. cbn [length].
    rewrite length_drop.
    replace (Z.to_nat pos `min` length xs
             + S (length xs - Z.to_nat pos)) with (S (length xs)) by lia.
    apply balanced_cons_other; try done.
    eapply balanced_app; [apply balanced_relocation|].
    apply balanced_init.
    eapply balanced_app; [apply balanced_relocation|].
    eapply balanced_app; [|apply balanced_free].
    rewrite length_take, length_drop.
    pose proof (balanced_destroy (relocated_from xs) (S (length xs))) as H.
    rewrite length_relocated_from in H.
    by replace (S (length xs + Z.to_nat pos `min` length xs)
                + (length xs - Z.to_nat pos))
      with (S (length xs) + length xs) by lia. }
  destruct (decide (0 <= pos <= Z.of_nat (length xs))%Z) as [Hp|Hp].
  2:{ by rewrite Emplace_out_of_range
        by (unfold Vector.begin, Vector.end_; cbn; lia). }
  pose proof (take_drop (Z.to_nat pos) xs) as Hxs.
  set (pre := take (Z.to_nat pos) xs) in *.
  set (suf := drop (Z.to_nat pos) xs) in *.
  assert (Hpos : pos = Z.of_nat (length pre)).
  { unfold pre. rewrite length_take. lia. }
  rewrite <- Hxs, Hpos. clear Hpos Hp.
  destruct suf as [|last mid _] using rev_ind.
  { rewrite app_nil_r, Emplace_spare_end.
    destruct (init_value args); [|done]. intros [= <- <- _].
    rewrite Size_vec, length_app. cbn [length].
    apply balanced_init. rewrite Nat.add_1_r. apply balanced_nil. }
  destruct (init_value args) as [x|] eqn:Hx.
  2:{ intros E. by eapply Emplace_spare_mid_throw in E; [|auto]. }
  destruct (move_throws last) eqn:Hl.
  { intros E. by eapply Emplace_spare_mid_throw in E; [|auto]. }
  destruct (decide (Forall (fun y => move_assign_throws y = false) mid))
    as [HF|HF].
  2:{ intros E. by eapply Emplace_spare_mid_throw in E; [|auto]. }
  destruct (move_assign_throws x) eqn:Hax.
  { intros E. eapply Emplace_spare_mid_throw in E; [done|].
    do 3 right. eauto. }
  rewrite (Emplace_spare_mid_ok pre mid last spare args x) by done.
  intros [= <- <- _]. rewrite Size_vec, !length_app. cbn [length].
  rewrite !length_app. cbn [length].
  apply balanced_init, balanced_cons_ctor; [done|].
  eapply balanced_app; [apply balanced_move_assign|].
  apply balanced_cons_other; try done.
  replace (S (S (length pre + (length mid + 1))))
    with (S (length pre + S (length mid + 1))) by lia.
  apply balanced_cons_dtor, balanced_nil.
Qed.

Lemma copy_balanced xs spare l v' :
  Vector.copy (vec xs spare) = (l, Normal v') ->
  balanced l 0 (Vector.Size v').
Proof.
  destruct (decide (length xs = 0 \/ alloc_fails (length xs) = false))
    as [Ha|Ha].
  2:{ unfold Vector.copy. open_op. rewrite make_throw; [done|lia|].
      destruct (alloc_fails (length xs)); tauto. }
  destruct (decide (Forall (fun x => copy_throws x = false) xs)) as [HF|HF].
  - rewrite copy_returns by done. intros [= <- <-]. rewrite Size_vec.
    eapply balanced_app; [apply balanced_alloc|].
    apply (balanced_copies xs 0).
  - unfold Vector.copy. open_op. rewrite make_ok by done. run.
    cbn [RawMemory.GetAddress RawMemory.buffer_]. unfold slots at 1.
    destruct (copy_front_throw xs (replicate spare None) HF)
      as (l' & [src dst] & ->). run.
    by destruct (dtor_normal (St:=unit) (RawMemory.with_contents
      {| RawMemory.buffer_ := replicate (length xs) None;
         RawMemory.capacity_ := length xs |} dst)) as [? ->].
Qed.

Lemma sized_balanced n l v' :
  Vector.sized n = (l, Normal v') -> balanced l 0 (Vector.Size v').
Proof.
  intros E. pose proof E as (ys & -> & Hl & _)%sized_normal.
  rewrite Size_vec, Hl. revert E. unfold Vector.sized.
  destruct (decide (n = 0 \/ alloc_fails n = false)) as [Ha|Ha].
  2:{ rewrite make_throw; [done|lia|]. destruct (alloc_fails n); tauto. }
  rewrite make_ok by done. run.
  cbn [RawMemory.GetAddress RawMemory.buffer_].
  destruct value_init as [d|] eqn:Hd.
  2:{ destruct n as [|n].
      - cbn. intros [= <- _]. apply balanced_nil.
      - by rewrite uninitialized_value_construct_n_throw. }
  pose proof (value_construct_slots d [] n n (le_n _) Hd) as E.
  rewrite slots_raw in E. cbn [length app] in E. rewrite E. run.
  intros [= <- _]. rewrite app_nil_r.
  eapply balanced_app; [apply balanced_alloc|]. apply (balanced_value n 0).
Qed.

(** X29.  Every member function that returns accounts for its objects:
    the number of constructor calls minus the number of destructor calls is
    the change of the size, and no block is released while objects are
    alive in it.  A vector's lifetime from a constructor to the destructor
    constructs and destroys the same number of objects. *)
Theorem object_accounting v :
  invariant v ->
  (forall n l v', Vector.sized n = (l, Normal v') ->
     balanced l 0 (Vector.Size v')) /\
  (forall l v', Vector.copy v = (l, Normal v') ->
     balanced l 0 (Vector.Size v')) /\
  (forall l, Vector.dtor v = (l, Normal tt) ->
     balanced l (Vector.Size v) 0) /\
  (forall n l v', Vector.Reserve v n = (l, Normal v') ->
     balanced l (Vector.Size v) (Vector.Size v')) /\
  (forall n l v', Vector.Resize v n = (l, Normal v') ->
     balanced l (Vector.Size v) (Vector.Size v')) /\
  (forall args l v' i, Vector.EmplaceBack v args = (l, Normal (v', i)) ->
     balanced l (Vector.Size v) (Vector.Size v')) /\
  (forall x l v',
     Vector.PushBack v x = (l, Normal v') \/
     Vector.PushBack_move v x = (l, Normal v') ->
     balanced l (Vector.Size v) (Vector.Size v')) /\
  (forall l v', Vector.PopBack v = (l, Normal v') ->
     balanced l (Vector.Size v) (Vector.Size v')) /\
  (forall pos args l v' p,
     Vector.Emplace v pos args = (l, Normal (v', p)) ->
     balanced l (Vector.Size v) (Vector.Size v')) /\
  (forall pos l v' p, Vector.Erase v pos = (l, Normal (v', p)) ->
     balanced l (Vector.Size v) (Vector.Size v')).
Proof.
  intros (xs & spare & ->)%invariant_iff. rewrite Size_vec.
  split; [intros n l v'; apply sized_balanced|].
  split; [apply copy_balanced|].
  split.
  { intros l. unfold Vector.dtor. open_op.
    rewrite destroy_n_front by done. run. rewrite dtor_raw.
    intros [= <-].
    eapply balanced_app; [|apply balanced_free].
    apply (balanced_destroy xs 0). }
  split; [apply Reserve_balanced|].
  split; [apply Resize_balanced|].
  split; [apply EmplaceBack_balanced|].
  split.
  { intros x l v' [[i E]%PushBack_normal|[i E]%PushBack_move_normal];
      by eapply EmplaceBack_balanced. }
  split; [apply PopBack_balanced|].
  split; [apply Emplace_balanced|]. apply Erase_balanced.
Qed.

(** ** Copy assignment that fails *)




End Further.

(** ** The further properties on concrete vectors *)

Section FurtherExamples.

(** X1: copying the vector [1, 2] of capacity 5. *)
Lemma copy_constructor_spec_witness :
  Vector.copy (E:=int_element) (A:=plentiful) (vec [1; 2]%Z 3)
  = ([Alloc 2; CopyCtor 1%Z; CopyCtor 2%Z], Normal (vec [1; 2]%Z 0)).
Proof.
  destruct (copy_constructor_spec (ET:=int_element) (AL:=plentiful)
              (vec [1; 2]%Z 3) (invariant_vec _ _)) as [_ H].
  apply H; [right; reflexivity | repeat constructor].
Defined.

(** X2: the copy constructor of the second element throws. *)
Lemma copy_constructor_throw_cleans_up_witness :
  Vector.copy (E:=fragile_element) (A:=plentiful) (vec [1; 13; 2]%Z 0)
  = ([Alloc 3; CopyCtor 1%Z; CopyCtor 13%Z; Destroy 1%Z; Dealloc []],
     Throws elem_failure tt).
Proof.
  apply (copy_constructor_throw_cleans_up (ET:=fragile_element)
           (AL:=plentiful) (vec [1; 13; 2]%Z 0) [1%Z] 13%Z [2%Z]).
  - apply invariant_vec.
  - reflexivity.
  - repeat constructor.
  - reflexivity.
  - reflexivity.
Defined.

(** X20: destroying the vector [1, 2] of capacity 3. *)
Lemma destructor_spec_witness :
  Vector.dtor (vec [1; 2]%Z 1)
  = ([Destroy 1%Z; Destroy 2%Z; Dealloc []], Normal tt).
Proof. apply (destructor_spec (vec [1; 2]%Z 1)), invariant_vec. Defined.

(** X4: assigning [7, 8] to a vector that is too small. *)
Lemma copy_assignment_spec_witness :
  Vector.assign (E:=int_element) (A:=plentiful) (vec [1]%Z 0)
    (Some (vec [7; 8]%Z 1))
  = ([Alloc 2; CopyCtor 7%Z; CopyCtor 8%Z; Destroy 1%Z; Dealloc []],
     Normal (vec [7; 8]%Z 0)) /\
  contents (vec [7; 8]%Z 0) = contents (vec [7; 8]%Z 1) /\
  Vector.Size (vec [7; 8]%Z 0) = 2 /\
  Vector.Capacity (vec [7; 8]%Z 0) = 2 /\
  invariant (vec [7; 8]%Z 0).
Proof.
  split; [reflexivity|].
  destruct (copy_assignment_spec (ET:=int_element) (AL:=plentiful)
              (vec [1]%Z 0) (vec [7; 8]%Z 1) (invariant_vec _ _)
              (invariant_vec _ _)) as [_ H].
  eapply H. reflexivity.
Defined.

(** X5: assigning [7, 8] in place to the vector [1, 2, 3]. *)
Lemma copy_assignment_in_place_witness :
  Vector.assign (E:=int_element) (A:=plentiful) (vec [1; 2; 3]%Z 1)
    (Some (vec [7; 8]%Z 0))
  = ([CopyAssign 7%Z; CopyAssign 8%Z; Destroy 3%Z],
     Normal (vec [7; 8]%Z 2)).
Proof.
  apply (copy_assignment_in_place (ET:=int_element) (AL:=plentiful)
           (vec [1; 2; 3]%Z 1) (vec [7; 8]%Z 0)).
  - apply invariant_vec.
  - apply invariant_vec.
  - cbn. lia.
  - repeat constructor.
  - apply Forall_nil_2.
Defined.

(** X6: the source does not fit and copying its first element throws. *)
Lemma copy_assignment_realloc_strong_witness :
  Vector.assign (E:=fragile_element) (A:=plentiful) (vec [1]%Z 0)
    (Some (vec [13; 2]%Z 0))
  = ([Alloc 2; CopyCtor 13%Z; Dealloc []],
     Throws elem_failure (vec [1]%Z 0)) /\
  vec [1]%Z 0 = vec [1]%Z 0.
Proof.
  split; [reflexivity|].
  eapply (copy_assignment_realloc_strong (ET:=fragile_element)
            (AL:=plentiful) (vec [1]%Z 0) (vec [13; 2]%Z 0)).
  - apply invariant_vec.
  - apply invariant_vec.
  - cbn. lia.
  - reflexivity.
Defined.


(** X7: [Resize(3)] on the full vector [1, 2]. *)
Lemma Resize_postcondition_witness :
  Vector.Resize (E:=int_element) (A:=plentiful) (vec [1; 2]%Z 0) 3
  = ([Alloc 4; MoveCtor 1%Z; MoveCtor 2%Z; ValueCtor; Destroy 1%Z;
      Destroy 2%Z; Dealloc []],
     Normal (vec [1; 2; 0]%Z 1)) /\
  Vector.Size (vec [1; 2; 0]%Z 1) = 3 /\ invariant (vec [1; 2; 0]%Z 1) /\
  (3 <= Vector.Capacity (vec [1; 2]%Z 0) ->
   Vector.Capacity (vec [1; 2; 0]%Z 1) = Vector.Capacity (vec [1; 2]%Z 0)) /\
  exists ys,
    contents (vec [1; 2; 0]%Z 1) = take 3 (contents (vec [1; 2]%Z 0)) ++ ys /\
    length ys = 3 - Vector.Size (vec [1; 2]%Z 0) /\
    Forall (fun y => value_init (Element:=int_element) = Some y) ys.
Proof.
  split; [reflexivity|].
  eapply (Resize_postcondition (ET:=int_element) (AL:=plentiful)
            (vec [1; 2]%Z 0) 3).
  - apply invariant_vec.
  - reflexivity.
Defined.

(** X8: [Resize(1)] on the vector [1, 2, 3]. *)
Lemma Resize_shrink_spec_witness :
  Vector.Resize (E:=int_element) (A:=plentiful) (vec [1; 2; 3]%Z 1) 1
  = ([Destroy 2%Z; Destroy 3%Z], Normal (vec [1]%Z 3)).
Proof.
  apply (Resize_shrink_spec (ET:=int_element) (AL:=plentiful)
           (vec [1; 2; 3]%Z 1) 1).
  - apply invariant_vec.
  - cbn. lia.
Defined.



(** X19: [PopBack] on the vector [1, 2]. *)
Lemma PopBack_nonempty_spec_witness :
  exists x,
    last (contents (vec [1; 2]%Z 1)) = Some x /\
    Vector.PopBack (vec [1; 2]%Z 1)
    = ([Destroy x],
       Normal (vec (take (Vector.Size (vec [1; 2]%Z 1) - 1)
                      (contents (vec [1; 2]%Z 1)))
                 (Vector.Capacity (vec [1; 2]%Z 1)
                  - (Vector.Size (vec [1; 2]%Z 1) - 1)))).
Proof.
  apply (PopBack_nonempty_spec (vec [1; 2]%Z 1)).
  - apply invariant_vec.
  - discriminate.
Defined.

(** X18: [PushBack(5)] then [PopBack] on the full vector [1]. *)
Lemma PushBack_then_PopBack_witness :
  Vector.PushBack (E:=int_element) (A:=plentiful) (vec [1]%Z 0) 5%Z
  = ([Alloc 2; MoveCtor 1%Z; CopyCtor 5%Z; Destroy 1%Z; Dealloc []],
     Normal (vec [1; 5]%Z 0)) /\
  exists v2,
    Vector.PopBack (vec [1; 5]%Z 0) = ([Destroy 5%Z], Normal v2) /\
    contents v2 = contents (vec [1]%Z 0) /\
    Vector.Size v2 = Vector.Size (vec [1]%Z 0) /\
    Vector.Capacity v2 = Vector.Capacity (vec [1; 5]%Z 0).
Proof.
  split; [reflexivity|].
  eapply (PushBack_then_PopBack (ET:=int_element) (AL:=plentiful)
            (vec [1]%Z 0) 5%Z).
  - apply invariant_vec.
  - reflexivity.
Defined.

(** X11: [EmplaceBack] with a spare slot. *)
Lemma EmplaceBack_in_place_witness :
  Vector.EmplaceBack (E:=int_element) (A:=plentiful) (vec [1]%Z 1)
    (from_args (Some 9%Z))
  = ([ArgsCtor (Some 9%Z)], Normal (vec [1; 9]%Z 0, 1)).
Proof.
  apply (EmplaceBack_in_place (ET:=int_element) (AL:=plentiful)
           (vec [1]%Z 1) (from_args (Some 9%Z))).
  - apply invariant_vec.
  - cbn. lia.
Defined.




(** X14: [Erase] at index 1 of the vector [1, 2, 3]. *)
Lemma Erase_postcondition_witness :
  Vector.Erase (E:=int_element) (vec [1; 2; 3]%Z 0) 1
  = ([MoveAssign 3%Z; Destroy 3%Z], Normal (vec [1; 3]%Z 1, 1%Z)) /\
  1%Z = 1%Z /\
  (Vector.begin (vec [1; 2; 3]%Z 0) <= 1
   < Vector.end_ (vec [1; 2; 3]%Z 0))%Z /\
  invariant (vec [1; 3]%Z 1) /\
  contents (vec [1; 3]%Z 1)
  = take (Z.to_nat 1) (contents (vec [1; 2; 3]%Z 0))
      ++ drop (S (Z.to_nat 1)) (contents (vec [1; 2; 3]%Z 0)) /\
  Vector.Size (vec [1; 3]%Z 1) = Vector.Size (vec [1; 2; 3]%Z 0) - 1 /\
  Vector.Capacity (vec [1; 3]%Z 1) = Vector.Capacity (vec [1; 2; 3]%Z 0).
Proof.
  split; [reflexivity|].
  eapply (Erase_postcondition (ET:=int_element) (vec [1; 2; 3]%Z 0) 1%Z).
  - apply invariant_vec.
  - reflexivity.
Defined.


(** X16: [Emplace(end(), 3)] and [EmplaceBack(3)] on the full vector
    [1, 2]. *)
Lemma Emplace_at_end_is_EmplaceBack_witness :
  Vector.Emplace (E:=int_element) (A:=plentiful) (vec [1; 2]%Z 0)
    (Vector.end_ (vec [1; 2]%Z 0)) (from_args (Some 3%Z))
  = ([Alloc 4; MoveCtor 1%Z; MoveCtor 2%Z; ArgsCtor (Some 3%Z);
      Destroy 1%Z; Destroy 2%Z; Dealloc []],
     Normal (vec [1; 2; 3]%Z 1, 2%Z)).
Proof.
  apply (Emplace_at_end_is_EmplaceBack (ET:=int_element) (AL:=plentiful)
           (vec [1; 2]%Z 0) (from_args (Some 3%Z))), invariant_vec.
Defined.

(** X17: [Erase] at the last element of the vector [1, 2]. *)
Lemma Erase_last_is_PopBack_witness :
  exists l v',
    Vector.PopBack (vec [1; 2]%Z 0) = (l, Normal v') /\
    Vector.Erase (E:=int_element) (vec [1; 2]%Z 0)
      (Vector.end_ (vec [1; 2]%Z 0) - 1)
    = (l, Normal (v', Vector.end_ v')).
Proof.
  apply (Erase_last_is_PopBack (ET:=int_element) (vec [1; 2]%Z 0)).
  - apply invariant_vec.
  - discriminate.
Defined.

(** X23: indexing the vector [5, 6] of capacity 3. *)
Lemma index_spec_witness :
  Vector.index (St:=unit) (vec [5; 6]%Z 1) 1 = ret 6%Z /\
  Vector.index (St:=unit) (vec [5; 6]%Z 1) 2 = fault.
Proof.
  split.
  - apply (index_spec (vec [5; 6]%Z 1) 1), invariant_vec.
  - apply (index_spec (vec [5; 6]%Z 1) 2), invariant_vec.
Defined.




(** X22: [PushBack] of 1, 2 and 3 to an empty vector. *)
Lemma PushBack_amortized_witness :
  PushBack_all (E:=int_element) (A:=plentiful) Vector.default [1; 2; 3]%Z
  = ([Alloc 1; CopyCtor 1%Z;
      Alloc 2; MoveCtor 1%Z; CopyCtor 2%Z; Destroy 1%Z; Dealloc [];
      Alloc 4; MoveCtor 1%Z; MoveCtor 2%Z; CopyCtor 3%Z; Destroy 1%Z;
      Destroy 2%Z; Dealloc []],
     Normal (vec [1; 2; 3]%Z 1)) /\
  contents (vec [1; 2; 3]%Z 1) = [1; 2; 3]%Z /\
  invariant (vec [1; 2; 3]%Z 1) /\
  (exists k, Vector.Capacity (vec [1; 2; 3]%Z 1) = 2 ^ k) /\
  3 <= Vector.Capacity (vec [1; 2; 3]%Z 1) < 2 * 3.
Proof.
  split; [reflexivity|].
  destruct (PushBack_amortized (ET:=int_element) (AL:=plentiful)
              [1; 2; 3]%Z _ _ ltac:(discriminate) eq_refl)
    as (Hc & Hi & Hk & Hb & _).
  split; [exact Hc|]. split; [exact Hi|]. split; [exact Hk|exact Hb].
Defined.

(** X26: move assignment of [2, 3] to the vector [1]. *)
Lemma move_assignment_exchanges_witness :
  Vector.move_assign (vec [1]%Z 0) (Some (vec [2; 3]%Z 1))
  = (vec [2; 3]%Z 1, Some (vec [1]%Z 0)) /\
  Vector.dtor (vec [1]%Z 0) = ([Destroy 1%Z; Dealloc []], Normal tt).
Proof.
  destruct (move_assignment_exchanges (vec [1]%Z 0) (vec [2; 3]%Z 1)
              (invariant_vec _ _)) as (Hm & _ & _ & Hd).
  split; [exact Hm|]. apply Hd. reflexivity.
Defined.

(** X29: [Reserve(4)] on the full vector [1, 2] constructs two objects
    and destroys two. *)
Lemma object_accounting_witness :
  Vector.Reserve (E:=int_element) (A:=plentiful) (vec [1; 2]%Z 0) 4
  = ([Alloc 4; MoveCtor 1%Z; MoveCtor 2%Z; Destroy 1%Z; Destroy 2%Z;
      Dealloc []],
     Normal (vec [1; 2]%Z 2)) /\
  balanced
    [Alloc 4; MoveCtor 1%Z; MoveCtor 2%Z; Destroy 1%Z; Destroy 2%Z;
     Dealloc []] 2 2.
Proof.
  split; [reflexivity|].
  destruct (object_accounting (ET:=int_element) (AL:=plentiful)
              (vec [1; 2]%Z 0) (invariant_vec _ _))
    as (_ & _ & _ & HR & _).
  exact (HR 4 _ _ eq_refl).
Defined.

End FurtherExamples.
